(** * gemini-slknight: the agent orchestrator and the agent event bus

    A shallow embedding of [backend/src/agents/agentBus.ts] and
    [backend/src/agents/orchestrator.ts].

    Conventions of the embedding.
    - JavaScript numbers that the code only ever uses as integers (depths,
      millisecond durations, call counts) are [Z]; a quotient of two of
      them that the code rounds with [Math.round] is computed exactly (see
      [js_round_div]).
    - JavaScript numbers that need not be integers (the quality score the
      judge model writes, the averages and rates computed from fractions)
      are IEEE 754 doubles, [JSNumber], with the arithmetic of the
      language: every operation rounds to the nearest double.
    - An optional field ([x?: T], [T | null]) is an [option].
    - Module-level mutable state (the orchestrator's [state], the
      [checklists] map, the bus singleton) is passed explicitly.
    - Values the runtime supplies ([Date.now()], [Math.random()],
      [new Date().toISOString()], the judge model's reply) are inputs of
      the operation that reads them.
    - A callback is described by what it does when it is called. *)

From stdpp Require Import gmap strings list fin_maps pretty.
From Stdlib Require Import ZArith Lia.
From Stdlib Require Import Floats.SpecFloat.

Local Open Scope Z_scope.

(** ** JavaScript helpers *)

(** [Math.round (num / den)] for integers [num] and [den > 0]:
    [Math.round x] is [floor (x + 1/2)] (ties go up, also for negative
    numbers), and [Z.div] is the floor quotient.  The floating-point
    quotient of two integers below 2^52 lies on the same side of every
    tie as the exact one, so the rounded values agree. *)
Definition js_round_div (num den : Z) : Z := (2 * num + den) / (2 * den).

(** A JavaScript number: a double (binary64: 53 bits of precision,
    exponents below 1024), with its infinities, its two zeros and NaN. *)
Definition JSNumber : Type := spec_float.

(** The number an integer literal or an integer counter denotes. *)
Definition js_num (z : Z) : JSNumber := binary_normalize 53 1024 z 0 false.

(** [x + y], [x * y], [x / y]: rounded to the nearest double, ties to
    even. *)
Definition js_add (x y : JSNumber) : JSNumber := SFadd 53 1024 x y.
Definition js_mul (x y : JSNumber) : JSNumber := SFmul 53 1024 x y.
Definition js_div (x y : JSNumber) : JSNumber := SFdiv 53 1024 x y.

(** [x < y]: false when either side is NaN. *)
Definition js_lt (x y : JSNumber) : bool := SFltb x y.

Notation "x '<js' y" := (js_lt x y = true) (at level 70, no associativity).

(** [Math.round x]: the integer nearest to [x], ties going up; NaN and the
    infinities are returned as they are, and a result of zero keeps the
    sign of [x].  A double with a non-negative exponent is an integer
    already; otherwise [x = n / 2^k] with [k = - e], and
    [floor (x + 1/2) = floor ((2 n + 2^k) / 2^(k+1))] lies below 2^53. *)
Definition Math_round (x : JSNumber) : JSNumber :=
  match x with
  | S754_finite s m e =>
      if 0 <=? e then x
      else
        let n := if s then Z.neg m else Z.pos m in
        let r := (2 * n + 2 ^ (- e)) / 2 ^ (- e + 1) in
        if r =? 0 then S754_zero s else js_num r
  | _ => x
  end.

(** [s || dflt] on an optional string: [undefined], [null] and the empty
    string are falsy. *)
Definition or_default (s : option string) (dflt : string) : string :=
  match s with
  | Some (String a r) => String a r
  | _ => dflt
  end.

(** Truthiness of an optional string, as in [if (log.error)]. *)
Definition truthy (s : option string) : bool :=
  match s with
  | Some (String _ _) => true
  | _ => false
  end.

(** [s.substring(0, n)]. *)
Definition js_prefix (n : nat) (s : string) : string := String.substring 0 n s.

(** The result of running a piece of code that may throw.  [Thrown (Some m)]
    is an [Error] whose message is [m]; [Thrown None] is any other thrown
    value. *)
Inductive Outcome (A : Type) : Type :=
  | Returned (a : A)
  | Thrown (err : option string).
Arguments Returned {A} a.
Arguments Thrown {A} err.

(** ** Types shared by the bus and the orchestrator *)

Inductive AgentName : Set :=
  | freedom | watchdog | coach | simulator | auditor
  | vision | letter | debate | call_script | future_self.

#[global] Instance AgentName_eq_dec : EqDecision AgentName.
Proof. solve_decision. Defined.

Definition AGENT_NAMES : list AgentName :=
  [freedom; watchdog; coach; simulator; auditor;
   vision; letter; debate; call_script; future_self].

Definition agent_text (a : AgentName) : string :=
  match a with
  | freedom => "freedom" | watchdog => "watchdog" | coach => "coach"
  | simulator => "simulator" | auditor => "auditor" | vision => "vision"
  | letter => "letter" | debate => "debate" | call_script => "call-script"
  | future_self => "future-self"
  end.

Inductive BusEventType : Set :=
  | vision_extracted | watchdog_matched | freedom_updated
  | letter_generated | call_script_generated | debate_verdict
  | coach_insight.

#[global] Instance BusEventType_eq_dec : EqDecision BusEventType.
Proof. solve_decision. Defined.

(** [payload: unknown].  The bus never looks inside an agent's output; the
    only payload it builds itself is the chain summary of [completeChain].
    [Nullish] is [null] or [undefined], the values of which no property
    can be read. *)
Inductive Payload : Type :=
  | Nullish
  | AgentOutput (data : string)
  | ChainSummaryPayload (totalAgents : Z) (totalDurationMs : Z)
                        (agentsFired : list AgentName).

Record BusEvent : Type := mkBusEvent {
  ev_id : string;
  ev_type : BusEventType;
  ev_source : AgentName;
  ev_chainId : string;
  ev_depth : Z;
  ev_timestamp : string;
  ev_summary : string;
  ev_payload : Payload;
  ev_durationMs : option Z;
  ev_triggeredBy : option string
}.

(** [Omit<BusEvent, 'id' | 'timestamp' | 'type'>], the argument of [emit]. *)
Record PartialEvent : Type := mkPartialEvent {
  pe_source : AgentName;
  pe_chainId : string;
  pe_depth : Z;
  pe_summary : string;
  pe_payload : Payload;
  pe_durationMs : option Z;
  pe_triggeredBy : option string
}.

Inductive ChainStatus : Set := running | completed_chain | error_chain.

Record ChainSummary : Type := mkChainSummary {
  ch_chainId : string;
  ch_events : list BusEvent;
  ch_totalAgents : Z;
  ch_totalDurationMs : Z;
  ch_startedAt : string;
  ch_completedAt : option string;
  ch_status : ChainStatus
}.

(** ** agentBus.ts *)

Definition MAX_CHAIN_DEPTH : Z := 3.
Definition MAX_EVENT_LOG : nat := 200.

(** What a subscriber callback does when it is called with an event: it
    returns, it throws, or it calls its own unsubscribe function and returns
    (the callback of the feed endpoint does that when its write fails). *)
Inductive Reaction : Set := Returns | Throws | UnsubscribesSelf.

#[global] Instance Reaction_eq_dec : EqDecision Reaction.
Proof. solve_decision. Defined.

(** A callback registered with [subscribe].  [sub_ref] stands for the
    identity of the function object, which is what the [Set] compares. *)
Record Subscriber : Type := mkSubscriber {
  sub_ref : nat;
  sub_on : BusEvent -> Reaction
}.

(** The values [emit] reads from the runtime: the id
    [evt_${Date.now()}_${random}] and [new Date().toISOString()]. *)
Record Stamp : Type := mkStamp {
  stamp_id : string;
  stamp_timestamp : string
}.

Section AgentBus.

(** The listeners registered with [on]; the bus does not know what they
    are. *)
Context {L : Type}.

(** [(ms / 1000).toFixed(1)], a formatting primitive of the runtime. *)
Variable toFixed1 : Z -> string.

Record AgentBus : Type := mkAgentBus {
  eventLog : list BusEvent;
  chains : gmap string ChainSummary;
  (** [Set<callback>], in insertion order *)
  sseClients : list Subscriber;
  (** the [EventEmitter]'s listeners, in registration order *)
  listeners : list (BusEventType * L)
}.

Definition new_bus : AgentBus :=
  {| eventLog := []; chains := ∅; sseClients := []; listeners := [] |}.

(** What one call of a bus method did to the outside: the callbacks it
    called, with their argument, in order. *)
Record Effects : Type := mkEffects {
  delivered : list (nat * BusEvent);
  dispatched : list (L * BusEvent)
}.

Definition no_effects : Effects := {| delivered := []; dispatched := [] |}.

(** [this.eventLog.push(e); if (length > MAX_EVENT_LOG) shift()] *)
Definition push_event (log : list BusEvent) (e : BusEvent) : list BusEvent :=
  let log' := log ++ [e] in
  if decide (MAX_EVENT_LOG < length log')%nat then tail log' else log'.

(** [new Set(events.map(e => e.source)).size] *)
Definition distinct_sources (events : list BusEvent) : Z :=
  Z.of_nat (length (remove_dups (ev_source <$> events))).

(** [event.durationMs || 0] *)
Definition duration_or_0 (d : option Z) : Z :=
  match d with Some ms => ms | None => 0 end.

Definition trackChain (cs : gmap string ChainSummary) (event : BusEvent)
  : gmap string ChainSummary :=
  let chain :=
    match cs !! ev_chainId event with
    | Some c => c
    | None =>
        {| ch_chainId := ev_chainId event;
           ch_events := [];
           ch_totalAgents := 0;
           ch_totalDurationMs := 0;
           ch_startedAt := ev_timestamp event;
           ch_completedAt := None;
           ch_status := running |}
    end in
  let events' := ch_events chain ++ [event] in
  <[ ev_chainId event :=
       {| ch_chainId := ch_chainId chain;
          ch_events := events';
          ch_totalAgents := distinct_sources events';
          ch_totalDurationMs :=
            ch_totalDurationMs chain + duration_or_0 (ev_durationMs event);
          ch_startedAt := ch_startedAt chain;
          ch_completedAt := ch_completedAt chain;
          ch_status := ch_status chain |} ]> cs.

(** [for (const client of this.sseClients) { try { client(e) } catch {} }]:
    every client is called; an exception is swallowed; a client that
    deleted itself from the set is gone afterwards.  Returns the set after
    the loop and the calls made. *)
Fixpoint broadcast (clients : list Subscriber) (e : BusEvent)
  : list Subscriber * list (nat * BusEvent) :=
  match clients with
  | [] => ([], [])
  | c :: rest =>
      let '(rest', calls) := broadcast rest e in
      match sub_on c e with
      | Returns | Throws => (c :: rest', (sub_ref c, e) :: calls)
      | UnsubscribesSelf => (rest', (sub_ref c, e) :: calls)
      end
  end.

(** [super.emit(type, e)]: the listeners of [type], in registration
    order. *)
Definition listeners_of (ls : list (BusEventType * L)) (type : BusEventType)
  : list L :=
  snd <$> filter (fun tl => fst tl = type) ls.

Definition complete_event (type : BusEventType) (event : PartialEvent)
    (stamp : Stamp) : BusEvent :=
  {| ev_id := stamp_id stamp;
     ev_type := type;
     ev_source := pe_source event;
     ev_chainId := pe_chainId event;
     ev_depth := pe_depth event;
     ev_timestamp := stamp_timestamp stamp;
     ev_summary := pe_summary event;
     ev_payload := pe_payload event;
     ev_durationMs := pe_durationMs event;
     ev_triggeredBy := pe_triggeredBy event |}.

(** [emit(type, event)].  The result is the returned boolean, the bus
    afterwards, and the callbacks called.  The listeners are called by
    [super.emit] as the last step; what they do is up to the caller of
    this function (see [run_listener] below). *)
Definition emit (bus : AgentBus) (type : BusEventType) (event : PartialEvent)
    (stamp : Stamp) : bool * AgentBus * Effects :=
  if decide (pe_depth event > MAX_CHAIN_DEPTH) then
    (false, bus, no_effects)
  else
    let fullEvent := complete_event type event stamp in
    let log' := push_event (eventLog bus) fullEvent in
    let chains' := trackChain (chains bus) fullEvent in
    let '(clients', calls) := broadcast (sseClients bus) fullEvent in
    let ls := listeners_of (listeners bus) type in
    (bool_decide (ls ≠ []),
     {| eventLog := log'; chains := chains'; sseClients := clients';
        listeners := listeners bus |},
     {| delivered := calls; dispatched := (fun l => (l, fullEvent)) <$> ls |}).

(** The summary event of [completeChain].  [stamp] holds its runtime
    values: the id [evt_chain_${Date.now()}] and the ISO time, which the
    code reads twice in a row (for [completedAt] and for the event) and the
    model once. *)
Definition chain_summary_event (chain : ChainSummary) (chainId : string)
    (stamp : Stamp) : BusEvent :=
  {| ev_id := stamp_id stamp;
     ev_type := freedom_updated;
     ev_source := freedom;
     ev_chainId := chainId;
     ev_depth := -1;
     ev_timestamp := stamp_timestamp stamp;
     ev_summary :=
       "Chain complete: " +:+ pretty (ch_totalAgents chain) +:+ " agents, "
         +:+ toFixed1 (ch_totalDurationMs chain) +:+ "s";
     ev_payload :=
       ChainSummaryPayload (ch_totalAgents chain) (ch_totalDurationMs chain)
                           (ev_source <$> ch_events chain);
     ev_durationMs := None;
     ev_triggeredBy := None |}.

(** [chain.status = 'completed'; chain.completedAt = now] *)
Definition mark_completed (chain : ChainSummary) (now : string)
  : ChainSummary :=
  {| ch_chainId := ch_chainId chain;
     ch_events := ch_events chain;
     ch_totalAgents := ch_totalAgents chain;
     ch_totalDurationMs := ch_totalDurationMs chain;
     ch_startedAt := ch_startedAt chain;
     ch_completedAt := Some now;
     ch_status := completed_chain |}.

Definition completeChain (bus : AgentBus) (chainId : string) (stamp : Stamp)
  : AgentBus * Effects :=
  match chains bus !! chainId with
  | Some chain =>
      let chain' := mark_completed chain (stamp_timestamp stamp) in
      let summary := chain_summary_event chain' chainId stamp in
      let '(clients', calls) := broadcast (sseClients bus) summary in
      ({| eventLog := eventLog bus;
          chains := <[chainId := chain']> (chains bus);
          sseClients := clients';
          listeners := listeners bus |},
       {| delivered := calls; dispatched := [] |})
  | None => (bus, no_effects)
  end.

(** [subscribe(callback)]: [Set.add] does nothing for a callback that is
    already in the set. *)
Definition subscribe (bus : AgentBus) (callback : Subscriber) : AgentBus :=
  {| eventLog := eventLog bus;
     chains := chains bus;
     sseClients :=
       if bool_decide (sub_ref callback ∈ sub_ref <$> sseClients bus)
       then sseClients bus
       else sseClients bus ++ [callback];
     listeners := listeners bus |}.

(** The function [subscribe] returns: [sseClients.delete(callback)]. *)
Definition unsubscribe (bus : AgentBus) (ref : nat) : AgentBus :=
  {| eventLog := eventLog bus;
     chains := chains bus;
     sseClients := filter (fun c => sub_ref c ≠ ref) (sseClients bus);
     listeners := listeners bus |}.

(** [on(type, listener)] of [EventEmitter]. *)
Definition on (bus : AgentBus) (type : BusEventType) (listener : L)
  : AgentBus :=
  {| eventLog := eventLog bus;
     chains := chains bus;
     sseClients := sseClients bus;
     listeners := listeners bus ++ [(type, listener)] |}.

Definition getChain (bus : AgentBus) (chainId : string)
  : option ChainSummary := chains bus !! chainId.

End AgentBus.

Arguments AgentBus L : clear implicits.
Arguments Effects L : clear implicits.

(** ** orchestrator.ts: call logs and agent health *)

Record AgentCallLog : Type := mkAgentCallLog {
  log_id : string;
  log_agent : AgentName;
  log_timestamp : string;
  log_durationMs : Z;
  log_success : bool;
  log_qualityScore : JSNumber;
  log_qualityReasoning : string;
  log_retryCount : Z;
  log_inputSummary : string;
  log_outputSummary : string;
  log_correctionApplied : option string;
  log_error : option string
}.

Inductive HealthStatus : Set := healthy | degraded | failing.

#[global] Instance HealthStatus_eq_dec : EqDecision HealthStatus.
Proof. solve_decision. Defined.

Record AgentHealth : Type := mkAgentHealth {
  h_agent : AgentName;
  h_totalCalls : Z;
  h_successRate : JSNumber;
  h_avgQualityScore : JSNumber;
  h_avgLatencyMs : Z;
  h_lastCallAt : option string;
  h_lastError : option string;
  h_status : HealthStatus;
  h_recentCorrections : list string
}.

(** [agents] is a [Record<AgentName, AgentHealth>]: one entry per name. *)
Record OrchestratorState : Type := mkOrchestratorState {
  st_agents : AgentName -> AgentHealth;
  st_totalCalls : Z;
  st_totalCorrections : Z;
  st_upSince : string;
  st_callLog : list AgentCallLog
}.

Definition MAX_LOG_SIZE : nat := 100.

Definition createEmptyHealth (agent : AgentName) : AgentHealth :=
  {| h_agent := agent;
     h_totalCalls := 0;
     h_successRate := js_num 100;
     h_avgQualityScore := js_num 0;
     h_avgLatencyMs := 0;
     h_lastCallAt := None;
     h_lastError := None;
     h_status := healthy;
     h_recentCorrections := [] |}.

(** The module-level [state] as it is when the module has been loaded. *)
Definition initial_state (upSince : string) : OrchestratorState :=
  {| st_agents := createEmptyHealth;
     st_totalCalls := 0;
     st_totalCorrections := 0;
     st_upSince := upSince;
     st_callLog := [] |}.

(** [state.agents[agentName] = h] *)
Definition set_agent (agents : AgentName -> AgentHealth) (agentName : AgentName)
    (h : AgentHealth) : AgentName -> AgentHealth :=
  fun a => if decide (a = agentName) then h else agents a.

(** The rolling average of [updateHealth], for the call that brings the
    count to [n]:
    [n === 1 ? value : Math.round((old_avg * (n - 1) + value) / n)].
    The durations are integers (differences of [Date.now()]), and so are
    their rounded averages. *)
Definition rolling_avg (old_avg n value : Z) : Z :=
  if decide (n = 1) then value
  else js_round_div (old_avg * (n - 1) + value) n.

(** The same expression on the quality scores, which are whatever number
    the judge wrote: the first score is stored as it is, the later averages
    are rounded. *)
Definition rolling_score (old_avg : JSNumber) (n : Z) (value : JSNumber)
  : JSNumber :=
  if decide (n = 1) then value
  else Math_round
         (js_div (js_add (js_mul old_avg (js_num (n - 1))) value) (js_num n)).

(** [Math.round((successCount / totalCalls) * 100)]: the quotient is
    rounded to a double before it is multiplied, so 41 successes in 40
    calls give 102 (from 102.49999999999999), not 103. *)
Definition success_rate (successCount totalCalls : Z) : JSNumber :=
  Math_round
    (js_mul (js_div (js_num successCount) (js_num totalCalls)) (js_num 100)).

(** The status rule of [updateHealth]. *)
Definition status_of (successRate avgQualityScore : JSNumber) : HealthStatus :=
  if js_lt successRate (js_num 50) || js_lt avgQualityScore (js_num 40)
  then failing
  else if js_lt successRate (js_num 80) || js_lt avgQualityScore (js_num 60)
  then degraded
  else healthy.

(** [state.callLog.filter(l => l.agent === agentName && l.success).length] *)
Definition logged_successes (callLog : list AgentCallLog) (agentName : AgentName)
  : Z :=
  Z.of_nat (length (filter
    (fun l => log_agent l = agentName /\ log_success l = true) callLog)).

(** [recentCorrections.push(c); if (length > 5) shift()] *)
Definition push_correction (cs : list string) (c : string) : list string :=
  let cs' := cs ++ [c] in
  if decide (5 < length cs')%nat then tail cs' else cs'.

Definition updateHealth (st : OrchestratorState) (agentName : AgentName)
    (log : AgentCallLog) : OrchestratorState :=
  let health := st_agents st agentName in
  let totalCalls := h_totalCalls health + 1 in
  let avgQualityScore :=
    rolling_score (h_avgQualityScore health) totalCalls
                  (log_qualityScore log) in
  let avgLatencyMs :=
    rolling_avg (h_avgLatencyMs health) totalCalls (log_durationMs log) in
  let successCount :=
    logged_successes (st_callLog st) agentName
    + (if log_success log then 1 else 0) in
  let successRate := success_rate successCount totalCalls in
  let health' :=
    {| h_agent := h_agent health;
       h_totalCalls := totalCalls;
       h_successRate := successRate;
       h_avgQualityScore := avgQualityScore;
       h_avgLatencyMs := avgLatencyMs;
       h_lastCallAt := Some (log_timestamp log);
       h_lastError :=
         if negb (log_success log) && truthy (log_error log)
         then log_error log else h_lastError health;
       h_status := status_of successRate avgQualityScore;
       h_recentCorrections :=
         match log_correctionApplied log with
         | Some (String a r) =>
             push_correction (h_recentCorrections health) (String a r)
         | _ => h_recentCorrections health
         end |} in
  {| st_agents := set_agent (st_agents st) agentName health';
     st_totalCalls := st_totalCalls st;
     st_totalCorrections := st_totalCorrections st;
     st_upSince := st_upSince st;
     st_callLog := st_callLog st |}.

(** [state.callLog.push(log); if (length > MAX_LOG_SIZE) shift()] *)
Definition push_log (callLog : list AgentCallLog) (log : AgentCallLog)
  : list AgentCallLog :=
  let callLog' := callLog ++ [log] in
  if decide (MAX_LOG_SIZE < length callLog')%nat then tail callLog'
  else callLog'.

(** The four statements with which [orchestrate] records a finished call,
    on both of its exits:
    [callLog.push(log); shift if too long; totalCalls++; updateHealth]. *)
Definition record_call (st : OrchestratorState) (agentName : AgentName)
    (log : AgentCallLog) : OrchestratorState :=
  updateHealth
    {| st_agents := st_agents st;
       st_totalCalls := st_totalCalls st + 1;
       st_totalCorrections := st_totalCorrections st;
       st_upSince := st_upSince st;
       st_callLog := push_log (st_callLog st) log |}
    agentName log.

(** ** orchestrator.ts: the checklist *)

Inductive ItemStatus : Set := pending | in_progress | completed | failed.

#[global] Instance ItemStatus_eq_dec : EqDecision ItemStatus.
Proof. solve_decision. Defined.

Record ChecklistItem : Type := mkChecklistItem {
  it_id : string;
  it_task : string;
  it_description : string;
  it_assignedAgent : AgentName;
  it_status : ItemStatus;
  it_progress : Z;
  it_result : option string;
  it_decision : option string;
  it_startedAt : option string;
  it_completedAt : option string
}.

(** [Omit<ChecklistItem, 'id' | 'status' | 'progress'>] *)
Record NewItem : Type := mkNewItem {
  ni_task : string;
  ni_description : string;
  ni_assignedAgent : AgentName;
  ni_result : option string;
  ni_decision : option string;
  ni_startedAt : option string;
  ni_completedAt : option string
}.

(** [Partial<Pick<ChecklistItem, 'status' | 'progress' | 'result' |
    'decision' | 'startedAt' | 'completedAt'>>]: [None] is an absent key. *)
Record ItemUpdate : Type := mkItemUpdate {
  up_status : option ItemStatus;
  up_progress : option Z;
  up_result : option string;
  up_decision : option string;
  up_startedAt : option string;
  up_completedAt : option string
}.

(** The module-level [checklists: Map<string, ChecklistItem[]>].  The map's
    iteration order plays no role: the loops over it treat every session on
    its own. *)
Abbreviation Checklists := (gmap string (list ChecklistItem)).

(** [`task_${Date.now()}_${i}`] *)
Definition task_id (now : Z) (i : nat) : string :=
  "task_" +:+ pretty now +:+ "_" +:+ pretty i.

Definition createChecklist (now : Z) (sessionId : string) (items : list NewItem)
    (cl : Checklists) : Checklists * list ChecklistItem :=
  let checklistItems :=
    imap (fun i item =>
      {| it_id := task_id now i;
         it_task := ni_task item;
         it_description := ni_description item;
         it_assignedAgent := ni_assignedAgent item;
         it_status := pending;
         it_progress := 0;
         it_result := ni_result item;
         it_decision := ni_decision item;
         it_startedAt := ni_startedAt item;
         it_completedAt := ni_completedAt item |}) items in
  (<[sessionId := checklistItems]> cl, checklistItems).

(** [Object.assign(item, update)] *)
Definition assign (item : ChecklistItem) (update : ItemUpdate) : ChecklistItem :=
  {| it_id := it_id item;
     it_task := it_task item;
     it_description := it_description item;
     it_assignedAgent := it_assignedAgent item;
     it_status := default (it_status item) (up_status update);
     it_progress := default (it_progress item) (up_progress update);
     it_result :=
       match up_result update with Some r => Some r | None => it_result item end;
     it_decision :=
       match up_decision update with
       | Some d => Some d | None => it_decision item end;
     it_startedAt :=
       match up_startedAt update with
       | Some t => Some t | None => it_startedAt item end;
     it_completedAt :=
       match up_completedAt update with
       | Some t => Some t | None => it_completedAt item end |}.

(** [items.find(i => i.id === itemId)] returns the first match; the item
    object is then changed in place. *)
Definition updateChecklistItem (cl : Checklists) (sessionId itemId : string)
    (update : ItemUpdate) : Checklists * option ChecklistItem :=
  match cl !! sessionId with
  | None => (cl, None)
  | Some items =>
      match list_find (fun i => it_id i = itemId) items with
      | None => (cl, None)
      | Some (k, item) =>
          let item' := assign item update in
          (<[sessionId := <[k := item']> items]> cl, Some item')
      end
  end.

Definition getChecklist (cl : Checklists) (sessionId : string)
  : list ChecklistItem := default [] (cl !! sessionId).

Definition getChecklistSessions (cl : Checklists) : list string :=
  (map_to_list cl).*1.

(** The loop that [orchestrate] and the checklist listener share:
[[
    for (const sid of getChecklistSessions()) {
        const items = getChecklist(sid);
        for (const item of items) {
            if (cond(item)) updateChecklistItem(sid, item.id, update);
        }
    }
]]
    [items] is the array stored in the map and [item] the object stored in
    it, so each test reads the item as the earlier updates left it. *)
Definition sweep_step (cond : ChecklistItem -> bool) (update : ItemUpdate)
    (sid : string) (cl : Checklists) (k : nat) : Checklists :=
  match getChecklist cl sid !! k with
  | Some item =>
      if cond item
      then (updateChecklistItem cl sid (it_id item) update).1
      else cl
  | None => cl
  end.

Definition sweep_session (cond : ChecklistItem -> bool) (update : ItemUpdate)
    (cl : Checklists) (sid : string) : Checklists :=
  foldl (sweep_step cond update sid) cl (seq 0 (length (getChecklist cl sid))).

Definition sweep (cond : ChecklistItem -> bool) (update : ItemUpdate)
    (cl : Checklists) : Checklists :=
  foldl (sweep_session cond update) cl (getChecklistSessions cl).

(** ** orchestrator.ts: [orchestrate] *)

Record QualityEvaluation : Type := mkQualityEvaluation {
  q_score : JSNumber;
  q_reasoning : string;
  q_hasCriticalIssue : bool;
  q_suggestedFix : option string
}.

(** What the judge model gave back to [evaluateQuality]: the call failed;
    or [parseJSON] could not read the text and returned its fallback; or
    the text was the JSON [null], which [parseJSON] returns as it is; or
    [parseJSON] read an object, taken to have the fields that the type
    [QualityEvaluation] declares; their values are not validated (the
    score is any number). *)
Inductive JudgeReply : Type :=
  | JudgeFailed
  | JudgeUnreadable
  | JudgeSaidNull
  | JudgeSaid (q : QualityEvaluation).

(** [evaluateQuality] does not throw; [None] is a returned [null]. *)
Definition evaluateQuality (reply : JudgeReply) : option QualityEvaluation :=
  match reply with
  | JudgeSaid q => Some q
  | JudgeSaidNull => None
  | JudgeUnreadable =>
      Some {| q_score := js_num 70;
              q_reasoning := "Evaluation completed with default score";
              q_hasCriticalIssue := false;
              q_suggestedFix := None |}
  | JudgeFailed =>
      Some {| q_score := js_num 65;
              q_reasoning := "Quality evaluation skipped (evaluator error)";
              q_hasCriticalIssue := false;
              q_suggestedFix := None |}
  end.

(** The message of the [TypeError] that reading [quality.hasCriticalIssue]
    throws when [quality] is [null] (in the wording of V8). *)
Definition NULL_QUALITY_MESSAGE : string :=
  "Cannot read properties of null (reading 'hasCriticalIssue')".

(** The values one call of [orchestrate] reads from the runtime. *)
Record CallEnv : Type := mkCallEnv {
  (** [generateId()] *)
  env_callId : string;
  (** [Date.now()] on entry *)
  env_startTime : Z;
  (** [new Date().toISOString()] while marking checklist items *)
  env_startedAt : string;
  (** [Date.now()] when the unit of work of attempt [k] has returned *)
  env_clock : nat -> Z;
  (** the judge's reply in attempt [k] *)
  env_judge : nat -> JudgeReply;
  (** [new Date().toISOString()] when the log is built *)
  env_logTimestamp : string;
  (** [Date.now()] after the loop *)
  env_endTime : Z
}.

Section Orchestrate.

(** The result type of the unit of work. *)
Context {T : Type}.

(** [JSON.stringify(result)], which yields [undefined] for some values (the
    [.substring] then throws) and throws for others. *)
Variable JSON_stringify : T -> Outcome string.

(** A unit of work is a function with state of its own; it is given the
    number of times it has been called before in this [orchestrate] call. *)
Record Options : Type := mkOptions {
  maxRetries : option Z;
  retryFn : option (string -> nat -> Outcome T);
  outputToString : option (T -> Outcome string);
  skipQualityCheck : option bool
}.

(** The variables of the retry loop, with [state.totalCorrections]. *)
Record Loop : Type := mkLoop {
  lastError : option string;
  retryCount : Z;
  correctionApplied : option string;
  totalCorrections : Z;
  agentFn_calls : nat;
  retryFn_calls : nat
}.

Inductive LoopExit : Type :=
  (** the [return] inside the loop is reached *)
  | Passed (result : T) (durationMs : Z) (outputStr : string)
           (quality : QualityEvaluation) (l : Loop)
  (** the loop ran to its end *)
  | Exhausted (l : Loop).

(** [options?.maxRetries ?? 1] *)
Definition maxRetries_of (options : option Options) : Z :=
  match options with
  | Some o => default 1 (maxRetries o)
  | None => 1
  end.

Definition retryFn_of (options : option Options)
  : option (string -> nat -> Outcome T) :=
  match options with Some o => retryFn o | None => None end.

(** [options?.outputToString ? options.outputToString(result)
                             : JSON.stringify(result).substring(0, 500)] *)
Definition output_text (options : option Options) (result : T)
  : Outcome string :=
  match options with
  | Some {| outputToString := Some f |} => f result
  | _ =>
      match JSON_stringify result with
      | Returned s => Returned (js_prefix 500 s)
      | Thrown e => Thrown e
      end
  end.

(** [!options?.skipQualityCheck] *)
Definition checks_quality (options : option Options) : bool :=
  match options with
  | Some {| skipQualityCheck := Some true |} => false
  | _ => true
  end.

(** The unit of work of attempt [attempt], run: its outcome and the call
    counters afterwards. *)
Definition invoke (agentFn : nat -> Outcome T) (options : option Options)
    (attempt : nat) (l : Loop) : Outcome T * Loop :=
  match attempt, retryFn_of options with
  | S _, Some retry =>
      (retry (or_default (correctionApplied l)
                         "Retry with improved parameters")
             (retryFn_calls l),
       {| lastError := lastError l; retryCount := retryCount l;
          correctionApplied := correctionApplied l;
          totalCorrections := totalCorrections l;
          agentFn_calls := agentFn_calls l;
          retryFn_calls := S (retryFn_calls l) |})
  | _, _ =>
      (agentFn (agentFn_calls l),
       {| lastError := lastError l; retryCount := retryCount l;
          correctionApplied := correctionApplied l;
          totalCorrections := totalCorrections l;
          agentFn_calls := S (agentFn_calls l);
          retryFn_calls := retryFn_calls l |})
  end.

(** [retryCount++; correctionApplied = c; state.totalCorrections++] *)
Definition count_retry (l : Loop) (c : string) : Loop :=
  {| lastError := lastError l;
     retryCount := retryCount l + 1;
     correctionApplied := Some c;
     totalCorrections := totalCorrections l + 1;
     agentFn_calls := agentFn_calls l;
     retryFn_calls := retryFn_calls l |}.

Definition set_lastError (l : Loop) (e : string) : Loop :=
  {| lastError := Some e;
     retryCount := retryCount l;
     correctionApplied := correctionApplied l;
     totalCorrections := totalCorrections l;
     agentFn_calls := agentFn_calls l;
     retryFn_calls := retryFn_calls l |}.

(** [let quality = { score: 80, ... };
     if (!options?.skipQualityCheck) quality = await evaluateQuality(...)],
    and the first read of a field of [quality], which throws when the
    evaluation is [null]. *)
Definition quality_of (env : CallEnv) (options : option Options)
    (attempt : nat) : Outcome QualityEvaluation :=
  if checks_quality options then
    match evaluateQuality (env_judge env attempt) with
    | Some quality => Returned quality
    | None => Thrown (Some NULL_QUALITY_MESSAGE)
    end
  else Returned {| q_score := js_num 80; q_reasoning := "Skipped";
                   q_hasCriticalIssue := false;
                   q_suggestedFix := None |}.

(** [for (let attempt = 0; attempt <= maxRetries; attempt++) { try ... }].
    [fuel] bounds the number of iterations still to run; [orchestrate]
    passes enough of it for the loop condition to end the loop. *)
Fixpoint attempt_loop (env : CallEnv) (agentFn : nat -> Outcome T)
    (options : option Options) (fuel attempt : nat) (l : Loop) : LoopExit :=
  match fuel with
  | O => Exhausted l
  | S fuel' =>
      if decide (Z.of_nat attempt <= maxRetries_of options) then
        let '(outcome, l1) := invoke agentFn options attempt l in
        let body :=
          match outcome with
          | Returned result =>
              match output_text options result with
              | Returned outputStr =>
                  match quality_of env options attempt with
                  | Returned quality => Returned (result, outputStr, quality)
                  | Thrown e => Thrown e
                  end
              | Thrown e => Thrown e
              end
          | Thrown e => Thrown e
          end in
        match body with
        | Returned (result, outputStr, quality) =>
            let durationMs := env_clock env attempt - env_startTime env in
            if q_hasCriticalIssue quality
               && bool_decide (Z.of_nat attempt < maxRetries_of options)
               && bool_decide (is_Some (retryFn_of options))
            then
              attempt_loop env agentFn options fuel' (S attempt)
                (count_retry l1
                   (or_default (q_suggestedFix quality)
                               "Retry with stricter validation"))
            else Passed result durationMs outputStr quality l1
        | Thrown err =>
            (* err instanceof Error ? err.message : 'Unknown error' *)
            let msg := default "Unknown error" err in
            let l2 := set_lastError l1 msg in
            if decide (Z.of_nat attempt < maxRetries_of options) then
              attempt_loop env agentFn options fuel' (S attempt)
                (count_retry l2 ("Auto-retry after error: " +:+ msg))
            else
              attempt_loop env agentFn options fuel' (S attempt) l2
        end
      else Exhausted l
  end.

(** What the caller of [orchestrate] gets: the promise resolves with
    [{ result, log }] or rejects with an [Error]. *)
Inductive Completion : Type :=
  | Resolved (result : T) (log : AgentCallLog)
  | Rejected (message : string).

Definition with_corrections (st : OrchestratorState) (n : Z)
  : OrchestratorState :=
  {| st_agents := st_agents st;
     st_totalCalls := st_totalCalls st;
     st_totalCorrections := n;
     st_upSince := st_upSince st;
     st_callLog := st_callLog st |}.

(** The sweep at the start of [orchestrate]: pending items of the agent
    become [in_progress]. *)
Definition mark_in_progress (env : CallEnv) (agentName : AgentName)
    (cl : Checklists) : Checklists :=
  sweep (fun item => bool_decide (it_assignedAgent item = agentName)
                     && bool_decide (it_status item = pending))
        {| up_status := Some in_progress;
           up_progress := Some 30;
           up_result := None;
           up_decision := None;
           up_startedAt := Some (env_startedAt env);
           up_completedAt := None |}
        cl.

Definition orchestrate (env : CallEnv) (st : OrchestratorState)
    (cl : Checklists) (agentName : AgentName) (inputSummary : string)
    (agentFn : nat -> Outcome T) (options : option Options)
  : OrchestratorState * Checklists * Completion :=
  let maxRetries := maxRetries_of options in
  let cl' := mark_in_progress env agentName cl in
  let start :=
    {| lastError := None; retryCount := 0; correctionApplied := None;
       totalCorrections := st_totalCorrections st;
       agentFn_calls := 0; retryFn_calls := 0 |} in
  match attempt_loop env agentFn options (Z.to_nat (maxRetries + 1)) 0 start
  with
  | Passed result durationMs outputStr quality l =>
      let log :=
        {| log_id := env_callId env;
           log_agent := agentName;
           log_timestamp := env_logTimestamp env;
           log_durationMs := durationMs;
           log_success := true;
           log_qualityScore := q_score quality;
           log_qualityReasoning := q_reasoning quality;
           log_retryCount := retryCount l;
           log_inputSummary := js_prefix 200 inputSummary;
           log_outputSummary := js_prefix 200 outputStr;
           log_correctionApplied := correctionApplied l;
           log_error := None |} in
      (record_call (with_corrections st (totalCorrections l)) agentName log,
       cl', Resolved result log)
  | Exhausted l =>
      let log :=
        {| log_id := env_callId env;
           log_agent := agentName;
           log_timestamp := env_logTimestamp env;
           log_durationMs := env_endTime env - env_startTime env;
           log_success := false;
           log_qualityScore := js_num 0;
           log_qualityReasoning :=
             "All " +:+ pretty (maxRetries + 1) +:+ " attempts failed";
           log_retryCount := retryCount l;
           log_inputSummary := js_prefix 200 inputSummary;
           log_outputSummary := "";
           log_correctionApplied := correctionApplied l;
           log_error := lastError l |} in
      (record_call (with_corrections st (totalCorrections l)) agentName log,
       cl',
       Rejected ("[Orchestrator] " +:+ agent_text agentName
                 +:+ " failed after " +:+ pretty (retryCount l + 1)
                 +:+ " attempts: " +:+ default "undefined" (lastError l)))
  end.

End Orchestrate.

Arguments Options T : clear implicits.
Arguments Completion T : clear implicits.
Arguments LoopExit T : clear implicits.

(** [getAgentHealthMap()]: [{ ...state.agents }] *)
Definition getAgentHealthMap (st : OrchestratorState)
  : AgentName -> AgentHealth := fun a => st_agents st a.

(** [getOrchestratorState()]: [{ ...state, callLog: [...callLog].reverse() }] *)
Definition getOrchestratorState (st : OrchestratorState) : OrchestratorState :=
  {| st_agents := st_agents st;
     st_totalCalls := st_totalCalls st;
     st_totalCorrections := st_totalCorrections st;
     st_upSince := st_upSince st;
     st_callLog := rev (st_callLog st) |}.

(** ** orchestrator.ts: the listeners of [registerBusHandlers] *)

(** The functions [registerBusHandlers] passes to [agentBus.on]: the four
    downstream triggers, and the checklist listener of each event type. *)
Inductive Listener : Set :=
  | VisionExtractedTrigger
  | WatchdogMatchedTrigger
  | DebateVerdictTrigger
  | FreedomUpdatedTrigger
  | ChecklistListener (eventType : BusEventType).

Definition CHECKLIST_EVENT_TYPES : list BusEventType :=
  [vision_extracted; watchdog_matched; debate_verdict; letter_generated;
   call_script_generated; freedom_updated; coach_insight].

Definition registerBusHandlers (bus : AgentBus Listener) : AgentBus Listener :=
  let bus := on bus vision_extracted VisionExtractedTrigger in
  let bus := on bus watchdog_matched WatchdogMatchedTrigger in
  let bus := on bus debate_verdict DebateVerdictTrigger in
  let bus := on bus freedom_updated FreedomUpdatedTrigger in
  foldl (fun bus eventType => on bus eventType (ChecklistListener eventType))
        bus CHECKLIST_EVENT_TYPES.

(** The table [AGENT_TO_CHECKLIST], read at [event.source]; [None] is a
    missing key. *)
Definition AGENT_TO_CHECKLIST (source : AgentName) : option AgentName :=
  match source with
  | vision => Some vision
  | watchdog => Some watchdog
  | debate => Some debate
  | letter => Some letter
  | call_script => Some call_script
  | freedom => Some freedom
  | coach => Some coach
  | simulator | auditor | future_self => None
  end.

(** The update the checklist listener applies; [now] is
    [new Date().toISOString()]. *)
Definition completion (now : string) (event : BusEvent) : ItemUpdate :=
  {| up_status := Some completed;
     up_progress := Some 100;
     up_result := Some (ev_summary event);
     up_decision := None;
     up_startedAt := None;
     up_completedAt := Some now |}.

Definition checklist_listener (now : string) (event : BusEvent)
    (cl : Checklists) : Checklists :=
  match AGENT_TO_CHECKLIST (ev_source event) with
  | None => cl
  | Some agentName =>
      sweep (fun item => bool_decide (it_assignedAgent item = agentName)
                         && negb (bool_decide (it_status item = completed)))
            (completion now event) cl
  end.

(** The asynchronous part of a downstream trigger, started and not yet run:
    it will [orchestrate] [tr_agent] and, if that succeeds, emit [tr_emits]
    in the chain of [tr_cause] at its depth plus one. *)
Record Trigger : Type := mkTrigger {
  tr_agent : AgentName;
  tr_emits : BusEventType;
  tr_cause : BusEvent
}.

(** The bus and the checklists, and what has left the system so far: the
    calls of subscriber callbacks and the triggers started. *)
Record System : Type := mkSystem {
  sys_bus : AgentBus Listener;
  sys_checklists : Checklists;
  sys_delivered : list (nat * BusEvent);
  sys_started : list Trigger
}.

(** The runtime values the listeners of one event read. *)
Record ListenerEnv : Type := mkListenerEnv {
  le_chain : Stamp;
  le_now : string
}.

Section Listeners.

Variable toFixed1 : Z -> string.

Definition start_trigger (s : System) (agent : AgentName)
    (emits : BusEventType) (event : BusEvent) : System :=
  {| sys_bus := sys_bus s;
     sys_checklists := sys_checklists s;
     sys_delivered := sys_delivered s;
     sys_started := sys_started s ++ [mkTrigger agent emits event] |}.

(** One listener called with an event: what it does before it returns (an
    [async] listener: before its first [await]).  None of them throws
    into [super.emit], which so calls them all: an exception in an [async]
    listener rejects the promise it returns, which nobody awaits. *)
Definition run_listener (env : ListenerEnv) (s : System)
    (call : Listener * BusEvent) : System :=
  let '(listener, event) := call in
  match listener with
  | VisionExtractedTrigger =>
      if decide (ev_depth event >= 3) then s
      else start_trigger s watchdog watchdog_matched event
  | WatchdogMatchedTrigger =>
      if decide (ev_depth event >= 3) then s
      else start_trigger s freedom freedom_updated event
  | DebateVerdictTrigger =>
      if decide (ev_depth event >= 3) then s
      else
        (* [verdict.choice] is read for the log line before the [try]: on a
           [null] or [undefined] payload the listener's promise rejects
           there, and nothing is started *)
        match ev_payload event with
        | Nullish => s
        | _ => start_trigger s freedom freedom_updated event
        end
  | FreedomUpdatedTrigger =>
      if decide (ev_depth event >= 3) then s
      else
        let '(bus', eff) :=
          completeChain toFixed1 (sys_bus s) (ev_chainId event) (le_chain env) in
        {| sys_bus := bus';
           sys_checklists := sys_checklists s;
           sys_delivered := sys_delivered s ++ delivered eff;
           sys_started := sys_started s |}
  | ChecklistListener _ =>
      {| sys_bus := sys_bus s;
         sys_checklists := checklist_listener (le_now env) event (sys_checklists s);
         sys_delivered := sys_delivered s;
         sys_started := sys_started s |}
  end.

(** [agentBus.emit(type, event)] with the listeners run, as [super.emit]
    does before [emit] returns. *)
Definition emit_and_dispatch (env : ListenerEnv) (s : System)
    (type : BusEventType) (event : PartialEvent) (stamp : Stamp)
  : bool * System :=
  let '(result, bus', eff) := emit (sys_bus s) type event stamp in
  (result,
   foldl (run_listener env)
         {| sys_bus := bus';
            sys_checklists := sys_checklists s;
            sys_delivered := sys_delivered s ++ delivered eff;
            sys_started := sys_started s |}
         (dispatched eff)).

(** A call of [emit] with everything it reads. *)
Record EmitCall : Type := mkEmitCall {
  ec_type : BusEventType;
  ec_event : PartialEvent;
  ec_stamp : Stamp;
  ec_env : ListenerEnv
}.

Definition emit_call (s : System) (c : EmitCall) : System :=
  (emit_and_dispatch (ec_env c) s (ec_type c) (ec_event c) (ec_stamp c)).2.

Definition emit_calls (s : System) (cs : list EmitCall) : System :=
  foldl emit_call s cs.

End Listeners.

(** What changes the checklists of a running system: a call of [emit], and
    the loop with which a call of [orchestrate] for [agentName] begins. *)
Inductive SystemCall : Type :=
  | EmitStep (c : EmitCall)
  | OrchestrateStep (env : CallEnv) (agentName : AgentName).

Section SystemRuns.

Variable toFixed1 : Z -> string.

Definition system_call (s : System) (c : SystemCall) : System :=
  match c with
  | EmitStep c => emit_call toFixed1 s c
  | OrchestrateStep env agentName =>
      {| sys_bus := sys_bus s;
         sys_checklists := mark_in_progress env agentName (sys_checklists s);
         sys_delivered := sys_delivered s;
         sys_started := sys_started s |}
  end.

Definition system_calls (s : System) (cs : list SystemCall) : System :=
  foldl system_call s cs.

End SystemRuns.

(** The system when [orchestrator.ts] has been loaded. *)
Definition initial_system : System :=
  {| sys_bus := registerBusHandlers new_bus;
     sys_checklists := ∅;
     sys_delivered := [];
     sys_started := [] |}.

(** ** Runs *)

(** A sequence of calls of the bus's methods, by any caller. *)
Inductive BusCall (L : Type) : Type :=
  | CallEmit (type : BusEventType) (event : PartialEvent) (stamp : Stamp)
  | CallCompleteChain (chainId : string) (stamp : Stamp)
  | CallSubscribe (callback : Subscriber)
  | CallUnsubscribe (ref : nat)
  | CallOn (type : BusEventType) (listener : L).
Arguments CallEmit {L} type event stamp.
Arguments CallCompleteChain {L} chainId stamp.
Arguments CallSubscribe {L} callback.
Arguments CallUnsubscribe {L} ref.
Arguments CallOn {L} type listener.

Section BusRuns.

Context {L : Type}.
Variable toFixed1 : Z -> string.

Definition bus_call (bus : AgentBus L) (c : BusCall L)
  : AgentBus L * Effects L :=
  match c with
  | CallEmit type event stamp => let '(_, bus', eff) := emit bus type event stamp in (bus', eff)
  | CallCompleteChain chainId stamp => completeChain toFixed1 bus chainId stamp
  | CallSubscribe callback => (subscribe bus callback, no_effects)
  | CallUnsubscribe ref => (unsubscribe bus ref, no_effects)
  | CallOn type listener => (on bus type listener, no_effects)
  end.

(** The bus after the calls, and all their effects in order. *)
Fixpoint bus_calls (bus : AgentBus L) (cs : list (BusCall L))
  : AgentBus L * Effects L :=
  match cs with
  | [] => (bus, no_effects)
  | c :: cs' =>
      let '(bus1, eff1) := bus_call bus c in
      let '(bus2, eff2) := bus_calls bus1 cs' in
      (bus2, {| delivered := delivered eff1 ++ delivered eff2;
                dispatched := dispatched eff1 ++ dispatched eff2 |})
  end.

End BusRuns.

(** A completed call of [orchestrate], with everything it reads. *)
Record OrchestrateCall (T : Type) : Type := mkOrchestrateCall {
  oc_env : CallEnv;
  oc_agentName : AgentName;
  oc_inputSummary : string;
  oc_agentFn : nat -> Outcome T;
  oc_options : option (Options T)
}.
Arguments oc_env {T} _.
Arguments oc_agentName {T} _.
Arguments oc_inputSummary {T} _.
Arguments oc_agentFn {T} _.
Arguments oc_options {T} _.
Arguments mkOrchestrateCall {T} _ _ _ _ _.

Section OrchestrateRuns.

Context {T : Type}.
Variable JSON_stringify : T -> Outcome string.

Definition orchestrate_call (sc : OrchestratorState * Checklists)
    (c : OrchestrateCall T) : OrchestratorState * Checklists :=
  (orchestrate JSON_stringify (oc_env c) sc.1 sc.2 (oc_agentName c)
               (oc_inputSummary c) (oc_agentFn c) (oc_options c)).1.

Definition orchestrate_calls (sc : OrchestratorState * Checklists)
    (cs : list (OrchestrateCall T)) : OrchestratorState * Checklists :=
  foldl orchestrate_call sc cs.

(** The log that a call writes. *)
Definition log_of_call (sc : OrchestratorState * Checklists)
    (c : OrchestrateCall T) : option AgentCallLog :=
  last (st_callLog (orchestrate_call sc c).1).

End OrchestrateRuns.

(** ** The other accessors and callers *)

(** [arr.slice(start)] for an integer [start]: a negative [start] counts
    from the end, and both are clamped to the array. *)
Definition js_slice_from {A : Type} (start : Z) (l : list A) : list A :=
  let len := Z.of_nat (length l) in
  let from := if start <? 0 then Z.max (len + start) 0 else Z.min start len in
  drop (Z.to_nat from) l.

(** [getRecentEvents(limit = 50)]: [this.eventLog.slice(-limit)] *)
Definition getRecentEvents {L : Type} (bus : AgentBus L) (limit : option Z)
  : list BusEvent := js_slice_from (- default 50 limit) (eventLog bus).

(** [getRecentLogs(limit = 20)]: [state.callLog.slice(-limit).reverse()] *)
Definition getRecentLogs (st : OrchestratorState) (limit : option Z)
  : list AgentCallLog :=
  reverse (js_slice_from (- default 20 limit) (st_callLog st)).

(** The seven tasks of [buildBorrowerChecklist]. *)
Definition BORROWER_TASKS : list NewItem :=
  let task (t d : string) (a : AgentName) :=
    {| ni_task := t; ni_description := d; ni_assignedAgent := a;
       ni_result := None; ni_decision := None; ni_startedAt := None;
       ni_completedAt := None |} in
  [task "Analyze loan documents"
        "Extract loan balances, rates, and servicer info from uploaded screenshots"
        vision;
   task "Find matching grants & opportunities"
        "Scan 35+ relocation grants, forgiveness programs, and refinancing options"
        watchdog;
   task "Evaluate repayment strategy"
        "Hawk vs Dove analysis: aggressive payoff vs patient optimization"
        debate;
   task "Generate servicer letter"
        "Draft professional letter for SAVE enrollment or rate reduction"
        letter;
   task "Prepare servicer call script"
        "Create talking points and rebuttals for calling loan servicer"
        call_script;
   task "Calculate freedom path"
        "Generate optimal debt-free timeline with milestone tasks"
        freedom;
   task "Coach financial habits"
        "Provide personalized savings tips and budget recommendations"
        coach].

Definition buildBorrowerChecklist (now : Z) (sessionId : string)
    (cl : Checklists) : Checklists * list ChecklistItem :=
  createChecklist now sessionId BORROWER_TASKS cl.

(** The orchestrator's state together with the bus and the checklists. *)
Record World : Type := mkWorld {
  w_state : OrchestratorState;
  w_system : System
}.

Section Triggers.

Context {T : Type}.
Variable toFixed1 : Z -> string.
Variable JSON_stringify : T -> Outcome string.

(** What the triggers read from the opaque values they are given: the
    description of the call (for the debate trigger it names the strategy
    of the verdict), the summary of the event to emit, and the payload.
    Building the summary reads a property of the agent's result
    ([watchdogResult.offers?.length], [freedomResult?.optimalOutcome]),
    which throws for a result such as [null] where the access is not
    guarded. *)
Variable strategy_of : Payload -> string.
Variable summary_of : BusEvent -> T -> Outcome string.
Variable payload_of : T -> Payload.

(** [emitAgentEvent]: [chainId || agentBus.newChainId()] and [depth ?? 0];
    the chain id is returned whatever [emit] answers.  [fresh] is what
    [newChainId()] would give. *)
Definition emitAgentEvent (env : ListenerEnv) (s : System)
    (eventType : BusEventType) (source : AgentName) (summary : string)
    (payload : Payload) (chainId : option string) (depth : option Z)
    (triggeredBy : option string) (durationMs : option Z)
    (fresh : string) (stamp : Stamp) : string * System :=
  let cid := or_default chainId fresh in
  (cid,
   (emit_and_dispatch toFixed1 env s eventType
      {| pe_source := source;
         pe_chainId := cid;
         pe_depth := default 0 depth;
         pe_summary := summary;
         pe_payload := payload;
         pe_durationMs := durationMs;
         pe_triggeredBy := triggeredBy |}
      stamp).2).

(** [{ maxRetries: 1, skipQualityCheck: true }] *)
Definition hop_options : option (Options T) :=
  Some {| maxRetries := Some 1; retryFn := None; outputToString := None;
          skipQualityCheck := Some true |}.

(** The description a trigger passes to [orchestrate]; the event that
    caused it tells which of the three triggers it is. *)
Definition trigger_input (cause : BusEvent) : string :=
  match ev_type cause with
  | vision_extracted => "Bus chain: match grants to vision extraction"
  | watchdog_matched => "Bus chain: recalculate path after grant matching"
  | _ =>
      "Bus chain: fork path after debate verdict — "
        +:+ strategy_of (ev_payload cause)
  end.

Definition with_checklists (s : System) (cl : Checklists) : System :=
  {| sys_bus := sys_bus s;
     sys_checklists := cl;
     sys_delivered := sys_delivered s;
     sys_started := sys_started s |}.

(** The asynchronous part of a downstream trigger, from its [await
    orchestrate(...)] on (the dynamic imports before it have resolved): the
    agent is called through [orchestrate], and when that resolves the next
    event is emitted one hop deeper, naming the event that caused it; when
    it rejects, or building the summary throws, the [catch] logs the error
    and nothing is emitted.  [agentFn] is the agent's unit of work. *)
Definition run_trigger (oenv : CallEnv) (lenv : ListenerEnv) (stamp : Stamp)
    (fresh : string) (w : World) (t : Trigger) (agentFn : nat -> Outcome T)
  : World :=
  let cause := tr_cause t in
  let '(st', cl', completion) :=
    orchestrate JSON_stringify oenv (w_state w)
      (sys_checklists (w_system w)) (tr_agent t) (trigger_input cause)
      agentFn hop_options in
  let s1 := with_checklists (w_system w) cl' in
  match completion with
  | Resolved result log =>
      match summary_of cause result with
      | Returned summary =>
          {| w_state := st';
             w_system :=
               (emitAgentEvent lenv s1 (tr_emits t) (tr_agent t)
                  summary (payload_of result)
                  (Some (ev_chainId cause)) (Some (ev_depth cause + 1))
                  (Some (ev_id cause)) (Some (log_durationMs log))
                  fresh stamp).2 |}
      | Thrown _ => {| w_state := st'; w_system := s1 |}
      end
  | Rejected _ => {| w_state := st'; w_system := s1 |}
  end.

End Triggers.

(** ** Sample values

    Concrete calls, used to run the definitions. *)

(** A runtime in which the call starts at [start], every reading of the
    clock after that gives [finish], and the judge's reply is unreadable. *)
Definition sample_env (start finish : Z) : CallEnv :=
  {| env_callId := "call_1";
     env_startTime := start;
     env_startedAt := "2026-01-01T00:00:00.000Z";
     env_clock := fun _ => finish;
     env_judge := fun _ => JudgeUnreadable;
     env_logTimestamp := "2026-01-01T00:00:01.000Z";
     env_endTime := finish |}.

(** The same, with a judge that gives [score] and sees no critical issue. *)
Definition judged_env (start finish : Z) (score : JSNumber) : CallEnv :=
  {| env_callId := "call_1";
     env_startTime := start;
     env_startedAt := "2026-01-01T00:00:00.000Z";
     env_clock := fun _ => finish;
     env_judge := fun _ =>
       JudgeSaid {| q_score := score; q_reasoning := "ok";
                    q_hasCriticalIssue := false; q_suggestedFix := None |};
     env_logTimestamp := "2026-01-01T00:00:01.000Z";
     env_endTime := finish |}.

(** Results that are strings; [JSON.stringify] of a string never fails
    (the quotes it adds are left out). *)
Definition text_json (s : string) : Outcome string := Returned s.


(** A unit of work that always resolves with [r]. *)
Definition always (r : string) : nat -> Outcome string := fun _ => Returned r.

(** A unit of work that always throws. *)
Definition never (m : string) : nat -> Outcome string :=
  fun _ => Thrown (Some m).

(** A unit of work that throws on its first call and resolves with [r] on
    every later one. *)
Definition fails_once (r : string) : nat -> Outcome string :=
  fun k => match k with O => Thrown (Some "boom") | S _ => Returned r end.


(** A runtime whose judge answers with the JSON text [null]. *)
Definition null_judge_env (start finish : Z) : CallEnv :=
  {| env_callId := "call_1";
     env_startTime := start;
     env_startedAt := "2026-01-01T00:00:00.000Z";
     env_clock := fun _ => finish;
     env_judge := fun _ => JudgeSaidNull;
     env_logTimestamp := "2026-01-01T00:00:01.000Z";
     env_endTime := finish |}.

(** [{ maxRetries: 1, skipQualityCheck: true }], the options of the
    downstream triggers. *)
Definition chain_hop_options : option (Options string) :=
  Some {| maxRetries := Some 1; retryFn := None; outputToString := None;
          skipQualityCheck := Some true |}.

Definition sample_call (agentName : AgentName) (start finish : Z)
    (agentFn : nat -> Outcome string) : OrchestrateCall string :=
  {| oc_env := sample_env start finish;
     oc_agentName := agentName;
     oc_inputSummary := "input";
     oc_agentFn := agentFn;
     oc_options := chain_hop_options |}.

Definition judged_call (agentName : AgentName) (start finish : Z)
    (score : JSNumber) : OrchestrateCall string :=
  {| oc_env := judged_env start finish score;
     oc_agentName := agentName;
     oc_inputSummary := "input";
     oc_agentFn := always "done";
     oc_options := None |}.

Definition sample_item (agent : AgentName) : NewItem :=
  {| ni_task := "Task";
     ni_description := "What the agent is to do";
     ni_assignedAgent := agent;
     ni_result := None;
     ni_decision := None;
     ni_startedAt := None;
     ni_completedAt := None |}.

(** One session with three items, for [vision], [simulator] and
    [freedom]. *)
Definition sample_checklists : Checklists :=
  (createChecklist 1700000000000 "session_1"
     [sample_item vision; sample_item simulator; sample_item freedom] ∅).1.

(** [(ms / 1000).toFixed(1)] for a whole number of tenths of a second
    (further digits are cut off). *)
Definition sample_toFixed1 (ms : Z) : string :=
  pretty (ms / 1000) +:+ "." +:+ pretty (ms `mod` 1000 / 100).

(** A subscriber whose callback always throws, and one whose callback
    always returns. *)
Definition thrower : Subscriber := {| sub_ref := 7; sub_on := λ _, Throws |}.
Definition listener8 : Subscriber := {| sub_ref := 8; sub_on := λ _, Returns |}.

(** The bus of the loaded system with these two subscribed, in this
    order. *)
Definition sample_bus : AgentBus Listener :=
  subscribe (subscribe (registerBusHandlers new_bus) thrower) listener8.

Definition sample_event (source : AgentName) (depth : Z) : PartialEvent :=
  {| pe_source := source;
     pe_chainId := "chain_1";
     pe_depth := depth;
     pe_summary := "Done by " +:+ agent_text source;
     pe_payload := AgentOutput "{}";
     pe_durationMs := Some 1200;
     pe_triggeredBy := None |}.

Definition sample_stamp (n : Z) : Stamp :=
  {| stamp_id := "evt_" +:+ pretty n;
     stamp_timestamp := "2026-01-01T00:00:0" +:+ pretty n +:+ ".000Z" |}.

Definition sample_listener_env (n : Z) : ListenerEnv :=
  {| le_chain := sample_stamp n;
     le_now := "2026-01-01T00:00:0" +:+ pretty n +:+ ".000Z" |}.

(** The loaded system with the sample checklist. *)
Definition sample_system : System :=
  {| sys_bus := sample_bus;
     sys_checklists := sample_checklists;
     sys_delivered := [];
     sys_started := [] |}.

Definition sample_emit (type : BusEventType) (source : AgentName)
    (depth n : Z) : EmitCall :=
  {| ec_type := type;
     ec_event := sample_event source depth;
     ec_stamp := sample_stamp n;
     ec_env := sample_listener_env n |}.

(** A runtime whose judge finds a critical issue in the first attempt and
    suggests a fix, and is content with every later attempt. *)
Definition critical_env (start finish : Z) : CallEnv :=
  {| env_callId := "call_1";
     env_startTime := start;
     env_startedAt := "2026-01-01T00:00:00.000Z";
     env_clock := fun _ => finish;
     env_judge := fun k =>
       match k with
       | O => JudgeSaid {| q_score := js_num 20; q_reasoning := "made-up rates";
                           q_hasCriticalIssue := true;
                           q_suggestedFix := Some "Use the real rates" |}
       | S _ => JudgeSaid {| q_score := js_num 90; q_reasoning := "ok";
                             q_hasCriticalIssue := false;
                             q_suggestedFix := None |}
       end;
     env_logTimestamp := "2026-01-01T00:00:01.000Z";
     env_endTime := finish |}.

(** A retry variant that resolves with the correction it was given. *)
Definition echo_fix : string -> nat -> Outcome string :=
  fun correction _ => Returned correction.

(** [{ retryFn }]: the default [maxRetries], with quality check. *)
Definition retry_options : option (Options string) :=
  Some {| maxRetries := None; retryFn := Some echo_fix;
          outputToString := None; skipQualityCheck := None |}.

(** [{ maxRetries }] alone. *)
Definition retries (n : Z) : option (Options string) :=
  Some {| maxRetries := Some n; retryFn := None;
          outputToString := None; skipQualityCheck := None |}.

(** ** Vocabulary of the properties *)

(** The ids within every session are distinct, as [createChecklist] makes
    them. *)
Definition distinct_ids (cl : Checklists) : Prop :=
  ∀ sid items, cl !! sid = Some items → NoDup (it_id <$> items).

(** What the checklist loop does to one item, and to the items of one
    session. *)
Definition touch (cond : ChecklistItem → bool) (update : ItemUpdate)
    (item : ChecklistItem) : ChecklistItem :=
  if cond item then assign item update else item.

Definition touch_all (cond : ChecklistItem → bool) (update : ItemUpdate)
    (items : list ChecklistItem) : list ChecklistItem :=
  touch cond update <$> items.

(** The rolling average of [updateHealth] run over the values of the calls
    [n + 1], [n + 2], ... of an agent, starting from the average [avg];
    [update] is the update of one call, [rolling_avg] or [rolling_score]. *)
Fixpoint rolling_from {A : Type} (update : A → Z → A → A) (avg : A) (n : Z)
    (values : list A) : A :=
  match values with
  | [] => avg
  | v :: values' =>
      rolling_from update (update avg (n + 1) v) (n + 1) values'
  end.

(** From a fresh health record: of the durations, and of the scores. *)
Definition rolling_mean (values : list Z) : Z :=
  rolling_from rolling_avg 0 0 values.

Definition rolling_score_mean (values : list JSNumber) : JSNumber :=
  rolling_from rolling_score (js_num 0) 0 values.

(** The sum of a list of numbers: [values] has the exact mean [m] when
    [m * length values = total values]. *)
Definition total (values : list Z) : Z := foldr Z.add 0 values.

(** A subscriber that returns where [c] throws, and is [c] otherwise. *)
Definition calm (c : Subscriber) : Subscriber :=
  {| sub_ref := sub_ref c;
     sub_on := λ e, match sub_on c e with Throws => Returns | r => r end |}.

(** The bus with another set of subscribers. *)
Definition with_clients {L : Type} (bus : AgentBus L)
    (clients : list Subscriber) : AgentBus L :=
  {| eventLog := eventLog bus;
     chains := chains bus;
     sseClients := clients;
     listeners := listeners bus |}.

(** The item at position [k] of the checklist of session [sid]. *)
Definition item_at (s : System) (sid : string) (k : nat)
  : option ChecklistItem := getChecklist (sys_checklists s) sid !! k.

(** The call puts an event of source [X] on the bus. *)
Definition accepted_from (X : AgentName) (c : SystemCall) : Prop :=
  match c with
  | EmitStep c => pe_source (ec_event c) = X ∧ pe_depth (ec_event c) ≤ 3
  | OrchestrateStep _ _ => False
  end.

(** The listeners are those of [registerBusHandlers]. *)
Definition handlers_registered (s : System) : Prop :=
  listeners (sys_bus s) = listeners (registerBusHandlers new_bus).

(** What the checklist listener does to one item, and what the loop at the
    start of [orchestrate] does to it. *)
Definition observed (now : string) (event : BusEvent) (item : ChecklistItem)
  : ChecklistItem :=
  match AGENT_TO_CHECKLIST (ev_source event) with
  | Some agentName =>
      touch (λ item, bool_decide (it_assignedAgent item = agentName)
                     && negb (bool_decide (it_status item = completed)))
            (completion now event) item
  | None => item
  end.

Definition started (env : CallEnv) (agentName : AgentName)
    (item : ChecklistItem) : ChecklistItem :=
  touch (λ item, bool_decide (it_assignedAgent item = agentName)
                 && bool_decide (it_status item = pending))
        {| up_status := Some in_progress;
           up_progress := Some 30;
           up_result := None;
           up_decision := None;
           up_startedAt := Some (env_startedAt env);
           up_completedAt := None |}
        item.

(** What a call does to one item. *)
Definition after_call (c : SystemCall) (item : ChecklistItem) : ChecklistItem :=
  match c with
  | EmitStep c =>
      if decide (pe_depth (ec_event c) > 3) then item
      else observed (le_now (ec_env c))
             (complete_event (ec_type c) (ec_event c) (ec_stamp c)) item
  | OrchestrateStep env agentName => started env agentName item
  end.

Section CallLogs.

Context {T : Type}.
Variable JSON_stringify : T -> Outcome string.

(** The logs that the calls of a run write, one per call, in order
    (whether or not the call log still holds them). *)
Fixpoint call_logs (sc : OrchestratorState * Checklists)
    (cs : list (OrchestrateCall T)) : list AgentCallLog :=
  match cs with
  | [] => []
  | c :: cs' =>
      match log_of_call JSON_stringify sc c with
      | Some log => [log]
      | None => []
      end ++ call_logs (orchestrate_call JSON_stringify sc c) cs'
  end.

(** Those of one agent. *)
Definition agent_logs (a : AgentName) (sc : OrchestratorState * Checklists)
    (cs : list (OrchestrateCall T)) : list AgentCallLog :=
  filter (λ log, log_agent log = a) (call_logs sc cs).

End CallLogs.

(** The variables of the retry loop when [orchestrate] enters it, the loop
    as [orchestrate] runs it, the variables a run of the loop ends with,
    and the number of times a unit of work ([agentFn] or [retryFn]) has
    been called. *)
Definition loop_start (st : OrchestratorState) : Loop :=
  {| lastError := None; retryCount := 0; correctionApplied := None;
     totalCorrections := st_totalCorrections st;
     agentFn_calls := 0; retryFn_calls := 0 |}.

Definition exit_loop {T : Type} (e : LoopExit T) : Loop :=
  match e with
  | Passed _ _ _ _ l => l
  | Exhausted l => l
  end.

Definition invocations (l : Loop) : Z :=
  Z.of_nat (agentFn_calls l + retryFn_calls l).

Definition run_loop {T : Type} (JSON_stringify : T → Outcome string)
    (env : CallEnv) (st : OrchestratorState) (agentFn : nat → Outcome T)
    (options : option (Options T)) : LoopExit T :=
  attempt_loop JSON_stringify env agentFn options
    (Z.to_nat (maxRetries_of options + 1)) 0 (loop_start st).

(** The last [n] elements of a list: what a buffer that drops its oldest
    entry beyond [n] holds of everything pushed onto it. *)
Definition keep_last {A : Type} (n : nat) (l : list A) : list A :=
  drop (length l - n) l.

(** The error text a log leaves in [lastError], and the correction it
    leaves in [recentCorrections], if any. *)
Definition failure_text (log : AgentCallLog) : option string :=
  if negb (log_success log) && truthy (log_error log) then log_error log
  else None.

Definition correction_text (log : AgentCallLog) : option string :=
  if truthy (log_correctionApplied log) then log_correctionApplied log
  else None.

(** The event a call of a bus method puts on the bus, if any. *)
Definition emitted_by {L : Type} (c : BusCall L) : option BusEvent :=
  match c with
  | CallEmit type event stamp =>
      if decide (pe_depth event > MAX_CHAIN_DEPTH) then None
      else Some (complete_event type event stamp)
  | _ => None
  end.

(** The events of chain [cid] among [events], and what the record of the
    chain is to say when [events] are the events accepted so far. *)
Definition chain_events (cid : string) (events : list BusEvent)
  : list BusEvent := filter (λ e, ev_chainId e = cid) events.

Definition chain_follows (cid : string) (events : list BusEvent)
    (chain : option ChainSummary) : Prop :=
  match chain with
  | None => chain_events cid events = []
  | Some chain =>
      ch_chainId chain = cid
      ∧ ch_events chain = chain_events cid events
      ∧ ch_events chain ≠ []
      ∧ ch_totalAgents chain = distinct_sources (ch_events chain)
      ∧ ch_totalDurationMs chain
        = total ((λ e, duration_or_0 (ev_durationMs e)) <$> ch_events chain)
      ∧ Some (ch_startedAt chain) = ev_timestamp <$> head (ch_events chain)
      ∧ (ch_status chain = running ∧ ch_completedAt chain = None
         ∨ ch_status chain = completed_chain
           ∧ is_Some (ch_completedAt chain))
  end.

(** The downstream triggers that an event handed to the listeners of
    [registerBusHandlers] starts. *)
Definition chain_map (e : BusEvent) : list Trigger :=
  if decide (ev_depth e >= 3) then []
  else match ev_type e, ev_payload e with
       | vision_extracted, _ => [mkTrigger watchdog watchdog_matched e]
       | watchdog_matched, _ => [mkTrigger freedom freedom_updated e]
       | debate_verdict, Nullish => []
       | debate_verdict, _ => [mkTrigger freedom freedom_updated e]
       | _, _ => []
       end.

(** * Properties *)

(** ** Health records *)

Lemma set_agent_same agents a h : set_agent agents a h a = h.
Proof. unfold set_agent. by rewrite decide_True. Qed.

Lemma set_agent_other agents a b h : b ≠ a → set_agent agents a h b = agents b.
Proof. intros Hne. unfold set_agent. by rewrite decide_False. Qed.

Lemma updateHealth_other st a log b :
  b ≠ a → st_agents (updateHealth st a log) b = st_agents st b.
Proof. intros Hne. unfold updateHealth. cbn. by apply set_agent_other. Qed.

Lemma record_call_other st a log b :
  b ≠ a → st_agents (record_call st a log) b = st_agents st b.
Proof. intros Hne. unfold record_call. by rewrite updateHealth_other. Qed.

Lemma record_call_callLog st a log :
  st_callLog (record_call st a log) = push_log (st_callLog st) log.
Proof. reflexivity. Qed.

Lemma record_call_totalCalls st a log :
  st_totalCalls (record_call st a log) = st_totalCalls st + 1.
Proof. reflexivity. Qed.

Lemma record_call_health_calls st a log :
  h_totalCalls (st_agents (record_call st a log) a)
  = h_totalCalls (st_agents st a) + 1.
Proof. unfold record_call, updateHealth. cbn. by rewrite set_agent_same. Qed.

(** [AGENT_NAMES] lists every name, so [state.agents] has a record for
    each of them. *)
Lemma AGENT_NAMES_complete a : a ∈ AGENT_NAMES.
Proof. destruct a; unfold AGENT_NAMES; set_solver. Qed.

(** The three cases of the status rule, as propositions. *)
Lemma status_of_spec rate avg :
  (status_of rate avg = failing
   ↔ rate <js js_num 50 ∨ avg <js js_num 40)
  ∧ (status_of rate avg = degraded
     ↔ ¬ (rate <js js_num 50 ∨ avg <js js_num 40)
       ∧ (rate <js js_num 80 ∨ avg <js js_num 60))
  ∧ (status_of rate avg = healthy
     ↔ ¬ (rate <js js_num 50 ∨ avg <js js_num 40)
       ∧ ¬ (rate <js js_num 80 ∨ avg <js js_num 60)).
Proof.
  unfold status_of.
  destruct (js_lt rate (js_num 50)), (js_lt avg (js_num 40)),
           (js_lt rate (js_num 80)), (js_lt avg (js_num 60)); cbn;
    repeat split; intros; try discriminate; intuition congruence.
Qed.

Lemma updateHealth_status st a log :
  let h := st_agents (updateHealth st a log) a in
  h_status h = status_of (h_successRate h) (h_avgQualityScore h).
Proof. unfold updateHealth. cbn. by rewrite set_agent_same. Qed.

(** ** What every call of [orchestrate] does to the state *)

Section OrchestrateFacts.

Context {T : Type}.
Variable JSON_stringify : T -> Outcome string.

(** The fuel [orchestrate] passes never runs out before the loop condition
    ends the loop: with that much fuel or more, the loop gives the same
    result. *)
Lemma attempt_loop_fuel env (agentFn : nat → Outcome T) options fuel :
  ∀ fuel' attempt l,
    (Z.to_nat (maxRetries_of options + 1 - Z.of_nat attempt) ≤ fuel)%nat →
    (Z.to_nat (maxRetries_of options + 1 - Z.of_nat attempt) ≤ fuel')%nat →
    attempt_loop JSON_stringify env agentFn options fuel attempt l
    = attempt_loop JSON_stringify env agentFn options fuel' attempt l.
Proof.
  induction fuel as [|fuel IH]; intros fuel' attempt l Hfuel Hfuel'.
  - destruct fuel' as [|fuel']; [done|]. cbn [attempt_loop].
    rewrite decide_False by lia. done.
  - destruct fuel' as [|fuel'].
    + cbn [attempt_loop]. rewrite decide_False by lia. done.
    + cbn [attempt_loop]. case_decide as Hcond; [|done].
      destruct (invoke agentFn options attempt l) as [outcome l1].
      assert (Hnext : ∀ l', attempt_loop JSON_stringify env agentFn options
                              fuel (S attempt) l'
                            = attempt_loop JSON_stringify env agentFn options
                                fuel' (S attempt) l')
        by (intros l'; apply IH; lia).
      destruct outcome as [result|err]; [|by rewrite !Hnext].
      destruct (output_text JSON_stringify options result);
        [|by rewrite ?Hnext].
      destruct (quality_of env options attempt); by rewrite ?Hnext.
Qed.

(** Both exits of [orchestrate] record one call. *)
Lemma orchestrate_records env st cl a input (agentFn : nat → Outcome T) options :
  ∃ log n,
    log_agent log = a
    ∧ (orchestrate JSON_stringify env st cl a input agentFn options).1.1
      = record_call (with_corrections st n) a log
    ∧ (∀ r log', (orchestrate JSON_stringify env st cl a input agentFn options).2
                 = Resolved r log' → log' = log ∧ log_success log = true)
    ∧ (∀ m, (orchestrate JSON_stringify env st cl a input agentFn options).2
            = Rejected m → log_success log = false).
Proof.
  unfold orchestrate.
  destruct (attempt_loop _ _ _ _ _ _ _) as [r d s q l | l]; cbn.
  - eexists _, _. split; [|split; [reflexivity|split]]; [done| |].
    + intros r' log' [= <- <-]. done.
    + intros m [=].
  - eexists _, _. split; [|split; [reflexivity|split]]; [done| |].
    + intros r' log' [=].
    + done.
Qed.

Lemma orchestrate_other env st cl a input (agentFn : nat → Outcome T) options b :
  b ≠ a →
  st_agents (orchestrate JSON_stringify env st cl a input agentFn options).1.1 b
  = st_agents st b.
Proof.
  intros Hne.
  destruct (orchestrate_records env st cl a input agentFn options)
    as (log & n & _ & -> & _).
  by rewrite record_call_other.
Qed.

Lemma orchestrate_calls_cons sc (c : OrchestrateCall T) cs :
  orchestrate_calls JSON_stringify sc (c :: cs)
  = orchestrate_calls JSON_stringify (orchestrate_call JSON_stringify sc c) cs.
Proof. reflexivity. Qed.

Lemma orchestrate_calls_snoc sc (c : OrchestrateCall T) cs :
  orchestrate_calls JSON_stringify sc (cs ++ [c])
  = orchestrate_call JSON_stringify (orchestrate_calls JSON_stringify sc cs) c.
Proof. unfold orchestrate_calls. by rewrite foldl_app. Qed.

Lemma orchestrate_calls_other (cs : list (OrchestrateCall T)) sc b :
  b ∉ oc_agentName <$> cs →
  st_agents (orchestrate_calls JSON_stringify sc cs).1 b = st_agents sc.1 b.
Proof.
  revert sc. induction cs as [|c cs IH]; intros sc Hb; [done|].
  cbn in Hb. apply not_elem_of_cons in Hb as [Hne Hb].
  rewrite orchestrate_calls_cons, IH by done.
  unfold orchestrate_call. by apply orchestrate_other.
Qed.

End OrchestrateFacts.

(** ** Never-called agents *)

(** C10.  Before its first orchestrated call (whatever calls were made
    for other agents), an agent's health record, as [getAgentHealthMap] and
    [getOrchestratorState] expose it, is the one [createEmptyHealth] made:
    [totalCalls = 0], [successRate = 100], [avgQualityScore = 0],
    [lastCallAt = null], status [healthy]; the status rule applied to
    these numbers would say [failing]. *)
Theorem C10_never_called_agent_is_reported_healthy
    {T : Type} (JSON_stringify : T → Outcome string)
    (cs : list (OrchestrateCall T)) (upSince : string) (cl : Checklists)
    (a : AgentName) :
  a ∉ oc_agentName <$> cs →
  let st := (orchestrate_calls JSON_stringify (initial_state upSince, cl) cs).1 in
  let h := getAgentHealthMap st a in
  st_agents (getOrchestratorState st) a = h
  ∧ h = createEmptyHealth a
  ∧ h_totalCalls h = 0
  ∧ h_successRate h = js_num 100
  ∧ h_avgQualityScore h = js_num 0
  ∧ h_lastCallAt h = None
  ∧ h_status h = healthy
  ∧ status_of (h_successRate h) (h_avgQualityScore h) = failing.
Proof.
  intros Ha st h.
  assert (Hh : h = createEmptyHealth a).
  { subst h st. unfold getAgentHealthMap.
    by rewrite orchestrate_calls_other. }
  split; [done|]. rewrite Hh. by repeat split.
Qed.

Lemma C10_witness :
  let st := (orchestrate_calls text_json (initial_state "up", ∅)
               [sample_call freedom 0 10 (always "path");
                sample_call watchdog 10 25 (never "down")]).1 in
  h_totalCalls (getAgentHealthMap st coach) = 0
  ∧ h_successRate (getAgentHealthMap st coach) = js_num 100
  ∧ h_status (getAgentHealthMap st coach) = healthy.
Proof.
  pose proof (C10_never_called_agent_is_reported_healthy text_json
    [sample_call freedom 0 10 (always "path");
     sample_call watchdog 10 25 (never "down")] "up" ∅ coach) as H.
  cbn zeta in H.
  destruct H as (_ & _ & H0 & H1 & _ & _ & H2 & _).
  - cbn. rewrite !not_elem_of_cons. repeat split; try discriminate.
    apply not_elem_of_nil.
  - cbn zeta. by rewrite H0, H1, H2.
Defined.

(** ** The status rule *)

(** C6.  After any update of a health record, by [updateHealth] and so by
    any call of [orchestrate], the status is [failing] exactly when
    [successRate < 50] or [avgQualityScore < 40], [degraded] exactly when it
    is not failing and [successRate < 80] or [avgQualityScore < 60], and
    [healthy] otherwise; at 50 and 80 (and 40 and 60) the comparison is
    strict. *)
Theorem C6_status_follows_thresholds :
  (∀ st a log,
     let h := st_agents (updateHealth st a log) a in
     (h_status h = failing ↔ h_successRate h <js js_num 50 ∨ h_avgQualityScore h <js js_num 40)
     ∧ (h_status h = degraded
        ↔ ¬ (h_successRate h <js js_num 50 ∨ h_avgQualityScore h <js js_num 40)
          ∧ (h_successRate h <js js_num 80 ∨ h_avgQualityScore h <js js_num 60))
     ∧ (h_status h = healthy
        ↔ ¬ (h_successRate h <js js_num 50 ∨ h_avgQualityScore h <js js_num 40)
          ∧ ¬ (h_successRate h <js js_num 80 ∨ h_avgQualityScore h <js js_num 60)))
  ∧ (∀ (T : Type) (JSON_stringify : T → Outcome string) env st cl a input
       agentFn options,
     let h := st_agents
       (orchestrate JSON_stringify env st cl a input agentFn options).1.1 a in
     (h_status h = failing ↔ h_successRate h <js js_num 50 ∨ h_avgQualityScore h <js js_num 40)
     ∧ (h_status h = degraded
        ↔ ¬ (h_successRate h <js js_num 50 ∨ h_avgQualityScore h <js js_num 40)
          ∧ (h_successRate h <js js_num 80 ∨ h_avgQualityScore h <js js_num 60))
     ∧ (h_status h = healthy
        ↔ ¬ (h_successRate h <js js_num 50 ∨ h_avgQualityScore h <js js_num 40)
          ∧ ¬ (h_successRate h <js js_num 80 ∨ h_avgQualityScore h <js js_num 60)))
  ∧ status_of (js_num 50) (js_num 40) = degraded ∧ status_of (js_num 49) (js_num 40) = failing
  ∧ status_of (js_num 50) (js_num 39) = failing ∧ status_of (js_num 80) (js_num 60) = healthy
  ∧ status_of (js_num 79) (js_num 60) = degraded ∧ status_of (js_num 80) (js_num 59) = degraded.
Proof.
  split; [|split].
  - intros st a log h. subst h. rewrite updateHealth_status.
    apply status_of_spec.
  - intros T JSON_stringify env st cl a input agentFn options h. subst h.
    destruct (orchestrate_records JSON_stringify env st cl a input agentFn
                options) as (log & n & _ & -> & _).
    unfold record_call. rewrite updateHealth_status. apply status_of_spec.
  - by repeat split.
Qed.

(** A run that ends on both boundaries: one success, then one failure,
    leave [successRate = 50] and [avgQualityScore = 40], and the status is
    [degraded]. *)
Example status_on_the_boundary :
  let st := (orchestrate_calls text_json (initial_state "up", ∅)
               [sample_call letter 0 10 (always "text");
                sample_call letter 10 20 (never "down")]).1 in
  h_successRate (st_agents st letter) = js_num 50
  ∧ h_avgQualityScore (st_agents st letter) = js_num 40
  ∧ h_status (st_agents st letter) = degraded.
Proof. vm_compute. by repeat split. Qed.

(** ** The call log *)

Lemma last_push_log callLog log : last (push_log callLog log) = Some log.
Proof.
  unfold push_log. case_decide as Hlen; [|apply last_snoc].
  destruct callLog as [|l0 callLog]; cbn in *; [unfold MAX_LOG_SIZE in Hlen; lia|].
  apply last_snoc.
Qed.

Lemma push_log_short callLog log :
  (length callLog < MAX_LOG_SIZE)%nat → push_log callLog log = callLog ++ [log].
Proof.
  intros Hlen. unfold push_log. rewrite decide_False; [done|].
  rewrite length_app. cbn. lia.
Qed.

Lemma push_log_full callLog log :
  (MAX_LOG_SIZE ≤ length callLog)%nat →
  push_log callLog log = tail callLog ++ [log].
Proof.
  intros Hlen. unfold push_log. rewrite decide_True.
  - destruct callLog; [cbn in Hlen; unfold MAX_LOG_SIZE in Hlen; lia | done].
  - rewrite length_app. cbn. lia.
Qed.

(** ** The success rate *)

Lemma logged_successes_snoc callLog log a :
  logged_successes (callLog ++ [log]) a
  = logged_successes callLog a
    + (if decide (log_agent log = a ∧ log_success log = true) then 1 else 0).
Proof.
  unfold logged_successes. rewrite filter_app, length_app.
  case_decide as Hlog.
  - rewrite filter_cons_True by done. cbn. lia.
  - rewrite filter_cons_False by done. cbn. lia.
Qed.

(** While the call log has room, a successful call enters the success
    count of its agent twice: once with the log that [orchestrate] has just
    pushed, and once as the [+ 1] of [updateHealth]. *)
Lemma success_is_counted_twice st a log :
  (length (st_callLog st) < MAX_LOG_SIZE)%nat →
  log_agent log = a → log_success log = true →
  h_successRate (st_agents (record_call st a log) a)
  = success_rate (logged_successes (st_callLog st) a + 2)
                 (h_totalCalls (st_agents st a) + 1).
Proof.
  intros Hlen Hagent Hsuccess. unfold record_call, updateHealth. cbn.
  rewrite set_agent_same. cbn.
  rewrite push_log_short, logged_successes_snoc by done.
  rewrite decide_True by done. rewrite Hsuccess. f_equal. lia.
Qed.

(** C2.  One successful call of [orchestrate] for [freedom], the first of
    the process: [N = 1], [k = 1], and the success rate is 200, not
    [round (100 * 1 / 1) = 100].  The log is pushed before [updateHealth]
    counts the successes in [state.callLog] and adds one for the log it
    was given. *)
Theorem C2_first_success_gives_rate_200 :
  let st := (orchestrate text_json (sample_env 0 10) (initial_state "up") ∅
               freedom "input" (always "path") None).1.1 in
  h_totalCalls (st_agents st freedom) = 1
  ∧ (log_success <$> st_callLog st) = [true]
  ∧ h_successRate (st_agents st freedom) = js_num 200
  ∧ js_round_div (100 * 1) 1 = 100.
Proof. vm_compute. by repeat split. Qed.

(** ** Retry after an error *)




(** ** The checklist loops *)

Lemma touch_id cond update item : it_id (touch cond update item) = it_id item.
Proof. unfold touch. by destruct (cond item). Qed.

Lemma touch_ids cond update (items : list ChecklistItem) :
  it_id <$> (touch cond update <$> items) = it_id <$> items.
Proof.
  rewrite <- list_fmap_compose. apply list_fmap_ext.
  intros i x _. apply touch_id.
Qed.

Lemma task_id_inj now i j : task_id now i = task_id now j → i = j.
Proof.
  unfold task_id. intros H.
  apply (inj (String.app "task_")) in H.
  apply (inj (String.app (pretty now))) in H.
  apply (inj (String.app "_")) in H.
  by apply (inj pretty) in H.
Qed.

Lemma createChecklist_ids now sid items cl :
  it_id <$> (createChecklist now sid items cl).2
  = task_id now <$> seq 0 (length items).
Proof.
  unfold createChecklist. cbn.
  apply list_eq. intros i.
  rewrite !list_lookup_fmap, list_lookup_imap.
  destruct (items !! i) as [x|] eqn:Hi; cbn.
  - rewrite lookup_seq_lt; [done|]. by eapply lookup_lt_Some.
  - rewrite lookup_seq_ge; [done|]. by apply lookup_ge_None.
Qed.

Lemma createChecklist_distinct_ids now sid items cl :
  distinct_ids cl → distinct_ids (createChecklist now sid items cl).1.
Proof.
  intros Hwf sid' items' Hlook.
  change (createChecklist now sid items cl).1
    with (<[sid := (createChecklist now sid items cl).2]> cl) in Hlook.
  destruct (decide (sid = sid')) as [<-|Hne].
  - rewrite lookup_insert_eq in Hlook.
    assert (items' = (createChecklist now sid items cl).2) as ->
      by congruence.
    rewrite createChecklist_ids. apply NoDup_fmap_2; [|apply NoDup_seq].
    intros i j. apply task_id_inj.
  - rewrite lookup_insert_ne in Hlook by done. by eapply Hwf.
Qed.

(** In a list with distinct ids, [find] by the id of the item at [k] finds
    that item. *)
Lemma find_by_id (items : list ChecklistItem) k item :
  NoDup (it_id <$> items) → items !! k = Some item →
  list_find (λ i, it_id i = it_id item) items = Some (k, item).
Proof.
  intros Hnd Hk. apply list_find_Some. split; [done|]. split; [done|].
  intros j y Hj Hlt Heq.
  assert ((it_id <$> items) !! j = Some (it_id item)) as Hj'.
  { rewrite list_lookup_fmap, Hj. cbn. by rewrite Heq. }
  assert ((it_id <$> items) !! k = Some (it_id item)) as Hk'.
  { by rewrite list_lookup_fmap, Hk. }
  pose proof (NoDup_lookup _ _ _ _ Hnd Hj' Hk'). lia.
Qed.

Lemma touch_prefix_step (f : ChecklistItem → ChecklistItem)
    (items : list ChecklistItem) k item :
  items !! k = Some item →
  (f <$> take (S k) items) ++ drop (S k) items
  = <[k := f item]> ((f <$> take k items) ++ drop k items).
Proof.
  intros Hk.
  assert (k < length items)%nat as Hlt by by eapply lookup_lt_Some.
  rewrite (take_S_r _ _ _ Hk), fmap_app, <- (assoc_L (++)). cbn.
  rewrite (drop_S _ _ _ Hk).
  rewrite insert_app_r_alt; rewrite length_fmap, length_take; [|lia].
  replace (k - k `min` length items)%nat with 0%nat by lia. done.
Qed.

Lemma touch_prefix_lookup (f : ChecklistItem → ChecklistItem)
    (items : list ChecklistItem) k :
  ((f <$> take k items) ++ drop k items) !! k = items !! k.
Proof.
  destruct (decide (k < length items)%nat) as [Hlt|Hge].
  - rewrite lookup_app_r; rewrite length_fmap, length_take; [|lia].
    rewrite lookup_drop. f_equal. lia.
  - rewrite (lookup_ge_None_2 items) by lia.
    apply lookup_ge_None_2.
    rewrite length_app, length_fmap, length_take, length_drop. lia.
Qed.

(** The loop over one session, after [k] of its items. *)
Lemma sweep_session_prefix cond update (cl : Checklists) sid items k :
  cl !! sid = Some items → NoDup (it_id <$> items) → (k ≤ length items)%nat →
  foldl (sweep_step cond update sid) cl (seq 0 k)
  = <[sid := (touch cond update <$> take k items) ++ drop k items]> cl.
Proof.
  intros Hsid Hnd. induction k as [|k IH]; intros Hk.
  - cbn. rewrite drop_0. by rewrite insert_id.
  - rewrite seq_S, foldl_app, IH by lia. cbn. unfold sweep_step.
    unfold getChecklist at 1. rewrite lookup_insert_eq. cbn.
    rewrite touch_prefix_lookup.
    destruct (items !! k) as [item|] eqn:Hitem;
      [|apply lookup_ge_None in Hitem; lia].
    rewrite (touch_prefix_step _ _ _ _ Hitem).
    unfold touch at 3. destruct (cond item) eqn:Hcond.
    + unfold updateChecklistItem. rewrite lookup_insert_eq.
      rewrite (find_by_id _ k item).
      * cbn. by rewrite insert_insert_eq.
      * rewrite fmap_app, touch_ids, <- fmap_app, take_drop. done.
      * by rewrite touch_prefix_lookup.
    + rewrite list_insert_id; [done|].
      by rewrite touch_prefix_lookup.
Qed.

Lemma sweep_session_lookup cond update (cl : Checklists) sid sid' :
  distinct_ids cl →
  sweep_session cond update cl sid !! sid'
  = if decide (sid' = sid) then touch_all cond update <$> cl !! sid
    else cl !! sid'.
Proof.
  intros Hwf. unfold sweep_session.
  destruct (cl !! sid) as [items|] eqn:Hsid.
  - assert (getChecklist cl sid = items) as ->
      by (unfold getChecklist; by rewrite Hsid).
    rewrite (sweep_session_prefix cond update cl sid items (length items));
      [| done | by eapply Hwf | done].
    rewrite firstn_all, drop_all, app_nil_r. cbn.
    case_decide as Heq.
    + subst. by rewrite lookup_insert_eq.
    + by rewrite lookup_insert_ne.
  - assert (getChecklist cl sid = []) as ->
      by (unfold getChecklist; by rewrite Hsid).
    cbn. case_decide as Heq; [by subst|done].
Qed.

Lemma sweep_session_distinct_ids cond update (cl : Checklists) sid :
  distinct_ids cl → distinct_ids (sweep_session cond update cl sid).
Proof.
  intros Hwf sid' items' Hlook.
  rewrite sweep_session_lookup in Hlook by done.
  case_decide as Heq; [|by eapply Hwf].
  destruct (cl !! sid) as [items|] eqn:Hsid; [|done].
  cbn in Hlook. injection Hlook as <-. unfold touch_all.
  rewrite touch_ids. by eapply Hwf.
Qed.

Lemma sweep_sessions_lookup cond update (sids : list string) :
  NoDup sids → ∀ (cl : Checklists) sid, distinct_ids cl →
  foldl (sweep_session cond update) cl sids !! sid
  = if decide (sid ∈ sids) then touch_all cond update <$> cl !! sid
    else cl !! sid.
Proof.
  induction 1 as [|s sids Hs Hnd IH]; intros cl sid Hwf.
  - cbn. rewrite decide_False; [done|]. apply not_elem_of_nil.
  - cbn [foldl]. rewrite IH by by apply sweep_session_distinct_ids.
    rewrite sweep_session_lookup by done.
    destruct (decide (sid = s)) as [->|Hne].
    + rewrite (decide_False (P := s ∈ sids)) by done.
      rewrite decide_True; [done|]. apply elem_of_cons. by left.
    + destruct (decide (sid ∈ sids)) as [Hin|Hnin].
      * rewrite decide_True; [done|]. apply elem_of_cons. by right.
      * rewrite decide_False; [done|]. rewrite elem_of_cons. tauto.
Qed.

(** The two nested loops come to this: every item of every session that
    passes the test is assigned the update. *)
Lemma sweep_spec cond update (cl : Checklists) :
  distinct_ids cl →
  sweep cond update cl = touch_all cond update <$> cl.
Proof.
  intros Hwf. apply map_eq. intros sid. unfold sweep, getChecklistSessions.
  rewrite sweep_sessions_lookup; [| apply NoDup_fst_map_to_list | done].
  rewrite lookup_fmap. case_decide as Hin; [done|].
  destruct (cl !! sid) as [items|] eqn:Hsid; [|done].
  exfalso. apply Hin. apply list_elem_of_fmap. exists (sid, items).
  split; [done|]. by apply elem_of_map_to_list.
Qed.

Lemma sweep_distinct_ids cond update (cl : Checklists) :
  distinct_ids cl → distinct_ids (sweep cond update cl).
Proof.
  intros Hwf sid items' Hlook. rewrite sweep_spec in Hlook by done.
  rewrite lookup_fmap in Hlook.
  destruct (cl !! sid) as [items|] eqn:Hsid; [|done].
  cbn in Hlook. injection Hlook as <-. unfold touch_all.
  rewrite touch_ids. by eapply Hwf.
Qed.

(** An item of a session after the loop. *)
Lemma sweep_item cond update (cl : Checklists) sid items k :
  distinct_ids cl → cl !! sid = Some items →
  getChecklist (sweep cond update cl) sid !! k
  = touch cond update <$> items !! k.
Proof.
  intros Hwf Hsid. rewrite sweep_spec by done. unfold getChecklist.
  rewrite lookup_fmap, Hsid. cbn. unfold touch_all.
  by rewrite list_lookup_fmap.
Qed.

(** ** One log and one health update per call *)

Lemma orchestrate_checklists {T : Type} (JSON_stringify : T → Outcome string)
    env st cl a input agentFn options :
  (orchestrate JSON_stringify env st cl a input agentFn options).1.2
  = mark_in_progress env a cl.
Proof.
  unfold orchestrate. by destruct (attempt_loop _ _ _ _ _ _ _).
Qed.

Lemma distinct_ids_empty : distinct_ids ∅.
Proof. intros sid items Hlook. by rewrite lookup_empty in Hlook. Qed.

(** C8.  Every call of [orchestrate], resolved or rejected, with any number
    of attempts, pushes exactly one log onto the call log (the oldest log
    is dropped when that makes more than 100) and updates the health record
    of its agent exactly once, from that log; the health records of the
    other agents, and the checklist items assigned to other agents, stay as
    they were. *)
Theorem C8_each_call_writes_one_log_and_one_health_update
    {T : Type} (JSON_stringify : T → Outcome string) env st cl a input
    (agentFn : nat → Outcome T) options :
  distinct_ids cl →
  let out := orchestrate JSON_stringify env st cl a input agentFn options in
  ∃ log n,
    log_agent log = a
    ∧ st_callLog out.1.1 = push_log (st_callLog st) log
    ∧ ((length (st_callLog st) < MAX_LOG_SIZE)%nat →
       st_callLog out.1.1 = st_callLog st ++ [log])
    ∧ ((MAX_LOG_SIZE ≤ length (st_callLog st))%nat →
       st_callLog out.1.1 = tail (st_callLog st) ++ [log])
    ∧ (∀ r log', out.2 = Resolved r log' → log' = log ∧ log_success log = true)
    ∧ (∀ m, out.2 = Rejected m → log_success log = false)
    ∧ out.1.1
      = updateHealth
          {| st_agents := st_agents st;
             st_totalCalls := st_totalCalls st + 1;
             st_totalCorrections := n;
             st_upSince := st_upSince st;
             st_callLog := push_log (st_callLog st) log |} a log
    ∧ h_totalCalls (st_agents out.1.1 a) = h_totalCalls (st_agents st a) + 1
    ∧ h_lastCallAt (st_agents out.1.1 a) = Some (log_timestamp log)
    ∧ (∀ b, b ≠ a → st_agents out.1.1 b = st_agents st b)
    ∧ st_totalCalls out.1.1 = st_totalCalls st + 1
    ∧ (∀ sid items k item,
         cl !! sid = Some items → items !! k = Some item →
         it_assignedAgent item ≠ a →
         getChecklist out.1.2 sid !! k = Some item)
    ∧ distinct_ids out.1.2.
Proof.
  intros Hwf out. subst out.
  destruct (orchestrate_records JSON_stringify env st cl a input agentFn
              options) as (log & n & Hagent & Hst & Hres & Hrej).
  exists log, n. rewrite Hst, orchestrate_checklists.
  split; [done|]. split; [done|].
  split; [intros Hlen; by rewrite record_call_callLog, push_log_short|].
  split; [intros Hlen; by rewrite record_call_callLog, push_log_full|].
  split; [done|]. split; [done|]. split; [done|].
  split; [by rewrite record_call_health_calls|].
  split.
  { unfold record_call, updateHealth. cbn. by rewrite set_agent_same. }
  split; [intros b Hb; by rewrite record_call_other|].
  split; [done|]. split.
  - intros sid items k item Hsid Hk Hother. unfold mark_in_progress.
    rewrite (sweep_item _ _ _ _ items) by done. rewrite Hk. cbn.
    unfold touch. rewrite bool_decide_eq_false_2 by done. done.
  - by apply sweep_distinct_ids.
Qed.

Lemma sample_checklists_distinct_ids : distinct_ids sample_checklists.
Proof. apply createChecklist_distinct_ids, distinct_ids_empty. Qed.

Lemma C8_witness :
  distinct_ids sample_checklists
  ∧ ∃ log,
      log_agent log = freedom
      ∧ st_callLog
          (orchestrate text_json (sample_env 0 10) (initial_state "up")
             sample_checklists freedom "input" (fails_once "path")
             chain_hop_options).1.1
        = push_log [] log
      ∧ st_agents
          (orchestrate text_json (sample_env 0 10) (initial_state "up")
             sample_checklists freedom "input" (fails_once "path")
             chain_hop_options).1.1 coach
        = createEmptyHealth coach.
Proof.
  split; [apply sample_checklists_distinct_ids|].
  destruct (C8_each_call_writes_one_log_and_one_health_update text_json
              (sample_env 0 10) (initial_state "up") sample_checklists freedom
              "input" (fails_once "path") chain_hop_options
              sample_checklists_distinct_ids)
    as (log & n & Hagent & Hlog & _ & _ & _ & _ & _ & _ & _ & Hother & _).
  exists log. split; [exact Hagent|]. split; [exact Hlog|].
  apply Hother. discriminate.
Defined.

(** ** The rolling averages *)

Lemma js_round_div_bounds num den lo hi :
  0 < den → lo * den ≤ num → num ≤ hi * den →
  lo ≤ js_round_div num den ≤ hi.
Proof.
  intros Hden Hlo Hhi. unfold js_round_div. split.
  - apply Z.div_le_lower_bound; lia.
  - apply Z.lt_succ_r. apply Z.div_lt_upper_bound; lia.
Qed.

Lemma rolling_avg_bounds old n v lo hi :
  1 ≤ n → lo ≤ v ≤ hi → (n ≠ 1 → lo ≤ old ≤ hi) →
  lo ≤ rolling_avg old n v ≤ hi.
Proof.
  intros Hn Hv Hold. unfold rolling_avg. case_decide as H1; [done|].
  specialize (Hold H1). apply js_round_div_bounds; nia.
Qed.

Lemma rolling_from_snoc {A : Type} (update : A → Z → A → A) avg n values v :
  rolling_from update avg n (values ++ [v])
  = update (rolling_from update avg n values)
           (n + Z.of_nat (length values) + 1) v.
Proof.
  revert avg n. induction values as [|w values IH]; intros avg n; cbn.
  - f_equal. lia.
  - rewrite IH. f_equal. lia.
Qed.

Lemma rolling_mean_snoc values v :
  rolling_mean (values ++ [v])
  = rolling_avg (rolling_mean values) (Z.of_nat (length values) + 1) v.
Proof. unfold rolling_mean. by rewrite rolling_from_snoc. Qed.

Lemma rolling_score_mean_snoc values v :
  rolling_score_mean (values ++ [v])
  = rolling_score (rolling_score_mean values)
                  (Z.of_nat (length values) + 1) v.
Proof. unfold rolling_score_mean. by rewrite rolling_from_snoc. Qed.

Lemma rolling_mean_bounds values lo hi :
  values ≠ [] → Forall (λ v, lo ≤ v ≤ hi) values →
  lo ≤ rolling_mean values ≤ hi.
Proof.
  induction values as [|v values IH] using rev_ind; [done|].
  intros _ Hall. apply Forall_app in Hall as [Hall Hv%Forall_inv].
  rewrite rolling_mean_snoc.
  cbn beta in Hv. apply rolling_avg_bounds; [lia|lia|].
  intros Hn. apply IH; [|done]. intros ->. cbn in Hn. lia.
Qed.

Section RunFacts.

Context {T : Type}.
Variable JSON_stringify : T -> Outcome string.

Lemma call_logs_snoc sc (cs : list (OrchestrateCall T)) c :
  call_logs JSON_stringify sc (cs ++ [c])
  = call_logs JSON_stringify sc cs
    ++ match log_of_call JSON_stringify
               (orchestrate_calls JSON_stringify sc cs) c with
       | Some log => [log]
       | None => []
       end.
Proof.
  revert sc. induction cs as [|c' cs IH]; intros sc.
  - cbn. by rewrite app_nil_r.
  - rewrite orchestrate_calls_cons. cbn [call_logs app]. rewrite IH.
    by rewrite (assoc_L (++)).
Qed.

(** The state after a call is the state before it with the call's log
    recorded. *)
Lemma orchestrate_call_records sc (c : OrchestrateCall T) :
  ∃ log n,
    log_agent log = oc_agentName c
    ∧ log_of_call JSON_stringify sc c = Some log
    ∧ (orchestrate_call JSON_stringify sc c).1
      = record_call (with_corrections sc.1 n) (oc_agentName c) log.
Proof.
  unfold log_of_call, orchestrate_call.
  destruct (orchestrate_records JSON_stringify (oc_env c) sc.1 sc.2
              (oc_agentName c) (oc_inputSummary c) (oc_agentFn c)
              (oc_options c)) as (log & n & Hagent & Hst & _).
  exists log, n. rewrite Hst. split; [done|]. split; [|done].
  apply last_push_log.
Qed.

(** The health record of an agent is the rolling average over its calls. *)
Lemma health_follows_calls (cs : list (OrchestrateCall T)) upSince cl a :
  let sc := orchestrate_calls JSON_stringify (initial_state upSince, cl) cs in
  let logs := agent_logs JSON_stringify a (initial_state upSince, cl) cs in
  h_totalCalls (st_agents sc.1 a) = Z.of_nat (length logs)
  ∧ h_avgQualityScore (st_agents sc.1 a)
    = rolling_score_mean (log_qualityScore <$> logs)
  ∧ h_avgLatencyMs (st_agents sc.1 a)
    = rolling_mean (log_durationMs <$> logs).
Proof.
  induction cs as [|c cs IH] using rev_ind; [done|].
  cbn zeta in *. unfold agent_logs in *.
  rewrite orchestrate_calls_snoc, call_logs_snoc, filter_app.
  destruct (orchestrate_call_records
              (orchestrate_calls JSON_stringify (initial_state upSince, cl) cs) c)
    as (log & n & Hagent & -> & ->).
  destruct IH as (IHn & IHq & IHl).
  destruct (decide (oc_agentName c = a)) as [Heq|Hne].
  - rewrite filter_cons_True, filter_nil by congruence.
    rewrite !fmap_app.
    change (log_qualityScore <$> [log]) with [log_qualityScore log].
    change (log_durationMs <$> [log]) with [log_durationMs log].
    rewrite rolling_mean_snoc, rolling_score_mean_snoc, length_app,
      !length_fmap.
    subst a. unfold record_call, updateHealth. cbn. rewrite set_agent_same. cbn.
    rewrite IHn, IHq, IHl. repeat split; lia.
  - rewrite filter_cons_False, filter_nil, app_nil_r by congruence.
    rewrite record_call_other by done. done.
Qed.

End RunFacts.

(** C3, as the code has it.  After any run of calls from the start of the
    process, [avgQualityScore] and [avgLatencyMs] of an agent are what the
    incremental update of [updateHealth] gives over the quality scores and
    the durations in the logs of its calls, in order: the first value as
    it is, and from the second call on
    [Math.round ((old * (n - 1) + value) / n)].  The rounding at every
    step stays in the result, which so is not the exact mean. *)
Theorem C3_averages_are_rounded_rolling_averages
    {T : Type} (JSON_stringify : T → Outcome string)
    (cs : list (OrchestrateCall T)) (upSince : string) (cl : Checklists)
    (a : AgentName) :
  let st := (orchestrate_calls JSON_stringify (initial_state upSince, cl) cs).1 in
  let logs := agent_logs JSON_stringify a (initial_state upSince, cl) cs in
  let scores := log_qualityScore <$> logs in
  let durations := log_durationMs <$> logs in
  h_avgQualityScore (st_agents st a) = rolling_score_mean scores
  ∧ h_avgLatencyMs (st_agents st a) = rolling_mean durations
  ∧ (∀ v, scores = [v] → h_avgQualityScore (st_agents st a) = v)
  ∧ (∀ v, durations = [v] → h_avgLatencyMs (st_agents st a) = v)
  ∧ (∀ earlier v, scores = earlier ++ [v] → earlier ≠ [] →
       h_avgQualityScore (st_agents st a)
       = Math_round
           (js_div (js_add (js_mul (rolling_score_mean earlier)
                                   (js_num (Z.of_nat (length earlier))))
                           v)
                   (js_num (Z.of_nat (length earlier) + 1))))
  ∧ (∀ earlier v, durations = earlier ++ [v] → earlier ≠ [] →
       h_avgLatencyMs (st_agents st a)
       = js_round_div (rolling_mean earlier * Z.of_nat (length earlier) + v)
                      (Z.of_nat (length earlier) + 1)).
Proof.
  intros st logs scores durations.
  destruct (health_follows_calls JSON_stringify cs upSince cl a)
    as (_ & Hq & Hl).
  fold st logs scores in Hq. fold st logs durations in Hl.
  rewrite Hq, Hl.
  split; [done|]. split; [done|].
  split; [by intros v ->|]. split; [by intros v ->|].
  split.
  - intros earlier v -> Hne. rewrite rolling_score_mean_snoc.
    unfold rolling_score. rewrite decide_False.
    + by replace (Z.of_nat (length earlier) + 1 - 1)
        with (Z.of_nat (length earlier)) by lia.
    + destruct earlier; [done|]. cbn [length]. lia.
  - intros earlier v -> Hne. rewrite rolling_mean_snoc.
    unfold rolling_avg. rewrite decide_False.
    + by replace (Z.of_nat (length earlier) + 1 - 1)
        with (Z.of_nat (length earlier)) by lia.
    + destruct earlier; [done|]. cbn [length]. lia.
Qed.

Lemma C3_witness :
  let start := (initial_state "up", ∅ : Checklists) in
  let cs := [judged_call coach 0 10 (js_num 80);
             judged_call coach 100 111 (js_num 81)] in
  h_avgLatencyMs (st_agents (orchestrate_calls text_json start cs).1 coach)
  = js_round_div (10 * 1 + 11) 2.
Proof.
  pose proof (C3_averages_are_rounded_rolling_averages text_json
                [judged_call coach 0 10 (js_num 80);
                 judged_call coach 100 111 (js_num 81)]
                "up" ∅ coach) as H.
  cbn zeta in H. destruct H as (_ & _ & _ & _ & _ & Hstep).
  cbn zeta. apply (Hstep [10] 11).
  - vm_compute. reflexivity.
  - discriminate.
Defined.

(** C3, as the spec has it, fails: two calls for [coach] with scores 80
    and 81 and durations 10 and 11 leave [avgQualityScore = 81] and
    [avgLatencyMs = 11]; the means are 80.5 and 10.5. *)
Lemma C3_counterexample :
  let start := (initial_state "up", ∅ : Checklists) in
  let cs := [judged_call coach 0 10 (js_num 80);
             judged_call coach 100 111 (js_num 81)] in
  let st := (orchestrate_calls text_json start cs).1 in
  let logs := agent_logs text_json coach start cs in
  log_qualityScore <$> logs = [js_num 80; js_num 81]
  ∧ log_durationMs <$> logs = [10; 11]
  ∧ logs = st_callLog st
  ∧ h_avgQualityScore (st_agents st coach) = js_num 81
  ∧ h_avgLatencyMs (st_agents st coach) = 11
  ∧ h_avgQualityScore (st_agents st coach)
    ≠ js_div (js_add (js_num 80) (js_num 81)) (js_num 2)
  ∧ h_avgLatencyMs (st_agents st coach) * 2 ≠ 10 + 11.
Proof. vm_compute. repeat split; discriminate. Qed.

(** The first score is stored unrounded and the second average is rounded:
    two scores of 72.5 leave an average of 73. *)
Example fractional_scores_round_up :
  let score := js_div (js_num 145) (js_num 2) in
  let start := (initial_state "up", ∅ : Checklists) in
  let st1 := (orchestrate_calls text_json start
                [judged_call coach 0 10 score]).1 in
  let st2 := (orchestrate_calls text_json start
                [judged_call coach 0 10 score;
                 judged_call coach 100 111 score]).1 in
  h_avgQualityScore (st_agents st1 coach) = score
  ∧ h_avgQualityScore (st_agents st2 coach) = js_num 73.
Proof. vm_compute. by split. Qed.

(** The success rate is rounded from a product of doubles: an agent with
    41 logged successes in 40 counted calls gets 102. *)
Example success_rate_41_of_40 : success_rate 41 40 = js_num 102.
Proof. vm_compute. reflexivity. Qed.

(** ** The bus: broadcasting *)

Section BusFacts.

Context {L : Type}.
Variable toFixed1 : Z -> string.

(** Every client in the set is called once, in order, whatever the clients
    before it did. *)
Lemma broadcast_calls clients e :
  (broadcast clients e).2 = (λ c, (sub_ref c, e)) <$> clients.
Proof.
  induction clients as [|c clients IH]; [done|]. cbn.
  destruct (broadcast clients e) as [rest calls]. cbn in IH. subst calls.
  by destruct (sub_on c e).
Qed.

(** The set after the loop: the clients that did not unsubscribe. *)
Lemma broadcast_clients clients e :
  (broadcast clients e).1
  = filter (λ c, sub_on c e ≠ UnsubscribesSelf) clients.
Proof.
  induction clients as [|c clients IH]; [done|]. cbn [broadcast].
  destruct (broadcast clients e) as [rest calls]. cbn [fst] in IH. subst rest.
  destruct (sub_on c e) eqn:Hc; cbn [fst].
  - rewrite filter_cons_True; [done|]. by rewrite Hc.
  - rewrite filter_cons_True; [done|]. by rewrite Hc.
  - rewrite filter_cons_False; [done|]. rewrite Hc. by intros H.
Qed.

Lemma broadcast_pair clients e :
  broadcast clients e
  = (filter (λ c, sub_on c e ≠ UnsubscribesSelf) clients,
     (λ c, (sub_ref c, e)) <$> clients).
Proof.
  rewrite <- broadcast_clients, <- broadcast_calls.
  by destruct (broadcast clients e).
Qed.

(** [emit] written out for an accepted event. *)
Lemma emit_accepted (bus : AgentBus L) type event stamp :
  pe_depth event ≤ MAX_CHAIN_DEPTH →
  let fullEvent := complete_event type event stamp in
  emit bus type event stamp
  = (bool_decide (listeners_of (listeners bus) type ≠ []),
     {| eventLog := push_event (eventLog bus) fullEvent;
        chains := trackChain (chains bus) fullEvent;
        sseClients :=
          filter (λ c, sub_on c fullEvent ≠ UnsubscribesSelf) (sseClients bus);
        listeners := listeners bus |},
     {| delivered := (λ c, (sub_ref c, fullEvent)) <$> sseClients bus;
        dispatched :=
          (λ l, (l, fullEvent)) <$> listeners_of (listeners bus) type |}).
Proof.
  intros Hdepth fullEvent. unfold emit.
  rewrite decide_False by lia. fold fullEvent.
  by rewrite broadcast_pair.
Qed.

Lemma emit_rejected (bus : AgentBus L) type event stamp :
  pe_depth event > MAX_CHAIN_DEPTH →
  emit bus type event stamp = (false, bus, no_effects).
Proof. intros Hdepth. unfold emit. by rewrite decide_True. Qed.

Lemma emit_dispatched_depth (bus : AgentBus L) type event stamp :
  Forall (λ d, ev_depth d.2 ≤ MAX_CHAIN_DEPTH)
         (dispatched (emit bus type event stamp).2).
Proof.
  destruct (decide (pe_depth event > MAX_CHAIN_DEPTH)) as [Hgt|Hle].
  - rewrite emit_rejected by done. constructor.
  - rewrite emit_accepted by lia. cbn.
    apply Forall_fmap, Forall_forall. intros l _. cbn. lia.
Qed.

Lemma completeChain_dispatched (bus : AgentBus L) chainId stamp :
  dispatched (completeChain toFixed1 bus chainId stamp).2 = [].
Proof.
  unfold completeChain. destruct (chains bus !! chainId); [|done].
  by destruct (broadcast _ _).
Qed.

Lemma bus_call_dispatched_depth (bus : AgentBus L) c :
  Forall (λ d, ev_depth d.2 ≤ MAX_CHAIN_DEPTH)
         (dispatched (bus_call toFixed1 bus c).2).
Proof.
  destruct c as [type event stamp|chainId stamp|callback|ref|type listener];
    cbn; try constructor.
  - pose proof (emit_dispatched_depth bus type event stamp) as H.
    by destruct (emit bus type event stamp) as [[r bus'] eff].
  - rewrite completeChain_dispatched. constructor.
Qed.

Lemma bus_calls_dispatched_depth (cs : list (BusCall L)) (bus : AgentBus L) :
  Forall (λ d, ev_depth d.2 ≤ MAX_CHAIN_DEPTH)
         (dispatched (bus_calls toFixed1 bus cs).2).
Proof.
  revert bus. induction cs as [|c cs IH]; intros bus; cbn; [constructor|].
  pose proof (bus_call_dispatched_depth bus c) as Hc.
  destruct (bus_call toFixed1 bus c) as [bus1 eff1].
  specialize (IH bus1).
  destruct (bus_calls toFixed1 bus1 cs) as [bus2 eff2]. cbn in *.
  by apply Forall_app.
Qed.

End BusFacts.

(** C1.  A call of [emit] with an event of depth above 3 returns [false]
    and does nothing else: the event log, the chain summaries and the set of
    subscribers are as before, no subscriber and no listener is called; with
    the listeners of [registerBusHandlers] on the bus, nothing changes in
    the system either.  So, in any sequence of calls of the bus's methods,
    no listener is ever called with an event of depth above 3. *)
Theorem C1_emit_above_depth_3_is_dropped
    {L : Type} (toFixed1 : Z → string) (bus : AgentBus L)
    (type : BusEventType) (event : PartialEvent) (stamp : Stamp) :
  pe_depth event > 3 →
  emit bus type event stamp = (false, bus, no_effects)
  ∧ (emit bus type event stamp).1.1 = false
  ∧ eventLog (emit bus type event stamp).1.2 = eventLog bus
  ∧ chains (emit bus type event stamp).1.2 = chains bus
  ∧ sseClients (emit bus type event stamp).1.2 = sseClients bus
  ∧ delivered (emit bus type event stamp).2 = []
  ∧ dispatched (emit bus type event stamp).2 = []
  ∧ (∀ env (s : System),
       emit_and_dispatch toFixed1 env s type event stamp = (false, s))
  ∧ (∀ (bus0 : AgentBus L) (cs : list (BusCall L)),
       Forall (λ d, ev_depth d.2 ≤ 3)
              (dispatched (bus_calls toFixed1 bus0 cs).2)).
Proof.
  intros Hdepth. rewrite emit_rejected by done. cbn.
  repeat split; try done.
  - intros env s. unfold emit_and_dispatch.
    rewrite emit_rejected by done. cbn. rewrite app_nil_r. by destruct s.
  - intros bus0 cs. apply bus_calls_dispatched_depth.
Qed.

Lemma C1_witness :
  emit sample_bus freedom_updated (sample_event freedom 4) (sample_stamp 1)
  = (false, sample_bus, no_effects).
Proof.
  apply (C1_emit_above_depth_3_is_dropped sample_toFixed1 sample_bus
           freedom_updated (sample_event freedom 4) (sample_stamp 1)).
  reflexivity.
Defined.

(** ** The bus: a subscriber that throws *)

Lemma broadcast_calm clients e :
  broadcast (calm <$> clients) e
  = (calm <$> (broadcast clients e).1, (broadcast clients e).2).
Proof.
  induction clients as [|c clients IH]; [done|].
  cbn [fmap list_fmap broadcast]. cbn [fmap] in IH. rewrite IH.
  destruct (broadcast clients e) as [rest calls]. cbn.
  by destruct (sub_on c e).
Qed.

(** C5, as the code has it.  When the callback of a subscriber throws while
    an accepted event is delivered, [emit] swallows the exception and the
    subscriber stays in the set, so the next event is delivered to it
    again; every subscriber, before and after it in the set, is still called
    with the event, and the returned value, the event log, the chain
    summaries and the calls made are those of a run in which the callback
    returned.  A subscriber leaves the set when its unsubscribe function is
    called, be it by its own callback. *)
Theorem C5_throwing_subscriber_is_kept_and_harmless
    {L : Type} (bus : AgentBus L) (type : BusEventType) (event : PartialEvent)
    (stamp : Stamp) (c : Subscriber) :
  pe_depth event ≤ 3 →
  c ∈ sseClients bus →
  sub_on c (complete_event type event stamp) = Throws →
  let fullEvent := complete_event type event stamp in
  let out := emit bus type event stamp in
  let quiet := emit (with_clients bus (calm <$> sseClients bus)) type event stamp in
  c ∈ sseClients out.1.2
  ∧ delivered out.2 = (λ c', (sub_ref c', fullEvent)) <$> sseClients bus
  ∧ dispatched out.2
    = (λ l, (l, fullEvent)) <$> listeners_of (listeners bus) type
  ∧ out.1.1 = bool_decide (listeners_of (listeners bus) type ≠ [])
  ∧ quiet.1.1 = out.1.1
  ∧ quiet.2 = out.2
  ∧ eventLog quiet.1.2 = eventLog out.1.2
  ∧ chains quiet.1.2 = chains out.1.2
  ∧ sseClients quiet.1.2 = calm <$> sseClients out.1.2
  ∧ (∀ type2 event2 stamp2,
       pe_depth event2 ≤ 3 →
       (sub_ref c, complete_event type2 event2 stamp2)
       ∈ delivered (emit out.1.2 type2 event2 stamp2).2)
  ∧ (∀ c', sub_on c' fullEvent = UnsubscribesSelf → c' ∉ sseClients out.1.2)
  ∧ sub_ref c ∉ sub_ref <$> sseClients (unsubscribe out.1.2 (sub_ref c)).
Proof.
  intros Hdepth Hin Hthrows fullEvent out quiet.
  change (sub_on c fullEvent = Throws) in Hthrows.
  pose proof (emit_accepted bus type event stamp Hdepth) as Hout.
  pose proof (emit_accepted (with_clients bus (calm <$> sseClients bus))
                type event stamp Hdepth) as Hquiet.
  cbn zeta in Hout, Hquiet. fold fullEvent out in Hout.
  fold fullEvent quiet in Hquiet.
  cbn [with_clients sseClients listeners eventLog chains] in Hquiet.
  clearbody fullEvent out quiet. subst out quiet. cbn [fst snd].
  cbn [sseClients eventLog chains delivered dispatched].
  assert (Hkept : c ∈ filter (λ c', sub_on c' fullEvent ≠ UnsubscribesSelf)
                         (sseClients bus)).
  { apply list_elem_of_filter. split; [|done]. by rewrite Hthrows. }
  split; [done|]. split; [done|]. split; [done|]. split; [done|].
  split; [done|]. split.
  { f_equal. rewrite <- list_fmap_compose. by apply list_fmap_ext. }
  split; [done|]. split; [done|]. split.
  { by rewrite <- !broadcast_clients, broadcast_calm. }
  split; [|split].
  - intros type2 event2 stamp2 Hdepth2.
    rewrite emit_accepted by done. cbn [snd delivered sseClients].
    apply list_elem_of_fmap. by exists c.
  - intros c' Hc'. rewrite list_elem_of_filter. intros [Hne _]. by apply Hne.
  - unfold unsubscribe. cbn [sseClients].
    rewrite list_elem_of_fmap. intros (c' & Href & Hc').
    apply list_elem_of_filter in Hc' as [Hne _]. by apply Hne.
Qed.

Lemma C5_witness :
  thrower ∈ sseClients
    (emit sample_bus vision_extracted (sample_event vision 0)
          (sample_stamp 1)).1.2.
Proof.
  apply (C5_throwing_subscriber_is_kept_and_harmless sample_bus
           vision_extracted (sample_event vision 0) (sample_stamp 1) thrower).
  - vm_compute. discriminate.
  - vm_compute. apply list_elem_of_here.
  - reflexivity.
Defined.

(** C5, as the spec has it, fails: the subscriber whose callback threw is
    still in the set after [emit], and is called again with the next
    event. *)
Lemma C5_counterexample :
  let out1 := emit sample_bus vision_extracted (sample_event vision 0)
                   (sample_stamp 1) in
  let out2 := emit out1.1.2 watchdog_matched (sample_event watchdog 1)
                   (sample_stamp 2) in
  sub_on thrower (complete_event vision_extracted (sample_event vision 0)
                                 (sample_stamp 1)) = Throws
  ∧ sub_ref <$> sseClients sample_bus = [7; 8]%nat
  ∧ sub_ref <$> sseClients out1.1.2 = [7; 8]%nat
  ∧ fst <$> delivered out1.2 = [7; 8]%nat
  ∧ fst <$> delivered out2.2 = [7; 8]%nat.
Proof. vm_compute. by repeat split. Qed.

(** ** The bus: completing a chain *)

Lemma completeChain_known {L : Type} (toFixed1 : Z → string)
    (bus : AgentBus L) chainId chain stamp :
  chains bus !! chainId = Some chain →
  let chain' := mark_completed chain (stamp_timestamp stamp) in
  let summary := chain_summary_event toFixed1 chain' chainId stamp in
  completeChain toFixed1 bus chainId stamp
  = ({| eventLog := eventLog bus;
        chains := <[chainId := chain']> (chains bus);
        sseClients :=
          filter (λ c, sub_on c summary ≠ UnsubscribesSelf) (sseClients bus);
        listeners := listeners bus |},
     {| delivered := (λ c, (sub_ref c, summary)) <$> sseClients bus;
        dispatched := [] |}).
Proof.
  intros Hchain chain' summary. unfold completeChain. rewrite Hchain.
  fold chain' summary. by rewrite broadcast_pair.
Qed.

(** C4, as the code has it.  Every call of [completeChain] for a known
    chain calls every subscriber in the set once with a summary event of
    depth -1, and no listener.  Called twice, it delivers two summary events
    to a subscriber that was in the set before the first call (and did not
    unsubscribe); they carry the same statistics and the same text.  The id
    [evt_chain_<Date.now()>] and the timestamp of each are read from the
    clock at its call, so the second event is the first with these two
    replaced, and the two are the same event when both calls read the same
    clock value.  What the second call leaves as it was is the chain: its
    status is [completed] after either call, and only [completedAt] is
    stamped again. *)
Theorem C4_each_completeChain_call_delivers_a_summary
    {L : Type} (toFixed1 : Z → string) (bus : AgentBus L) (chainId : string)
    (chain : ChainSummary) (stamp1 stamp2 : Stamp) (c : Subscriber) :
  chains bus !! chainId = Some chain →
  c ∈ sseClients bus →
  let summary1 :=
    chain_summary_event toFixed1
      (mark_completed chain (stamp_timestamp stamp1)) chainId stamp1 in
  let summary2 :=
    chain_summary_event toFixed1
      (mark_completed chain (stamp_timestamp stamp2)) chainId stamp2 in
  sub_on c summary1 ≠ UnsubscribesSelf →
  let out1 := completeChain toFixed1 bus chainId stamp1 in
  let out2 := completeChain toFixed1 out1.1 chainId stamp2 in
  delivered out1.2 = (λ c', (sub_ref c', summary1)) <$> sseClients bus
  ∧ delivered out2.2 = (λ c', (sub_ref c', summary2)) <$> sseClients out1.1
  ∧ (sub_ref c, summary1) ∈ delivered out1.2
  ∧ (sub_ref c, summary2) ∈ delivered out2.2
  ∧ ev_depth summary1 = -1 ∧ ev_depth summary2 = -1
  ∧ ev_payload summary2 = ev_payload summary1
  ∧ ev_summary summary2 = ev_summary summary1
  ∧ dispatched out1.2 = [] ∧ dispatched out2.2 = []
  ∧ chains out1.1 !! chainId
    = Some (mark_completed chain (stamp_timestamp stamp1))
  ∧ chains out2.1 !! chainId
    = Some (mark_completed chain (stamp_timestamp stamp2))
  ∧ eventLog out2.1 = eventLog bus
  ∧ summary2
    = {| ev_id := stamp_id stamp2;
         ev_type := ev_type summary1;
         ev_source := ev_source summary1;
         ev_chainId := ev_chainId summary1;
         ev_depth := ev_depth summary1;
         ev_timestamp := stamp_timestamp stamp2;
         ev_summary := ev_summary summary1;
         ev_payload := ev_payload summary1;
         ev_durationMs := ev_durationMs summary1;
         ev_triggeredBy := ev_triggeredBy summary1 |}
  ∧ ev_id summary1 = stamp_id stamp1
  ∧ ev_timestamp summary1 = stamp_timestamp stamp1
  ∧ (stamp2 = stamp1 → summary2 = summary1).
Proof.
  intros Hchain Hin summary1 summary2 Hstays out1 out2.
  pose proof (completeChain_known toFixed1 bus chainId chain stamp1 Hchain)
    as H1.
  cbn zeta in H1. fold summary1 out1 in H1.
  assert (Hchain1 : chains out1.1 !! chainId
                    = Some (mark_completed chain (stamp_timestamp stamp1))).
  { rewrite H1. cbn. apply lookup_insert_eq. }
  pose proof (completeChain_known toFixed1 out1.1 chainId _ stamp2 Hchain1)
    as H2.
  cbn zeta in H2.
  change (mark_completed (mark_completed chain (stamp_timestamp stamp1))
                         (stamp_timestamp stamp2))
    with (mark_completed chain (stamp_timestamp stamp2)) in H2.
  fold summary2 out2 in H2.
  assert (Hin1 : c ∈ sseClients out1.1).
  { rewrite H1. cbn. apply list_elem_of_filter. by split. }
  assert (Hsame : ev_depth summary1 = -1 ∧ ev_depth summary2 = -1
                  ∧ ev_payload summary2 = ev_payload summary1
                  ∧ ev_summary summary2 = ev_summary summary1)
    by done.
  destruct Hsame as (Hd1 & Hd2 & Hpayload & Htext).
  assert (Hstamps :
            summary2
            = {| ev_id := stamp_id stamp2;
                 ev_type := ev_type summary1;
                 ev_source := ev_source summary1;
                 ev_chainId := ev_chainId summary1;
                 ev_depth := ev_depth summary1;
                 ev_timestamp := stamp_timestamp stamp2;
                 ev_summary := ev_summary summary1;
                 ev_payload := ev_payload summary1;
                 ev_durationMs := ev_durationMs summary1;
                 ev_triggeredBy := ev_triggeredBy summary1 |}
            ∧ ev_id summary1 = stamp_id stamp1
            ∧ ev_timestamp summary1 = stamp_timestamp stamp1
            ∧ (stamp2 = stamp1 → summary2 = summary1)).
  { split; [done|]. split; [done|]. split; [done|].
    intros ->. by subst summary1 summary2. }
  clearbody out2. subst out2. clearbody out1 summary1 summary2.
  cbn [fst snd delivered dispatched chains eventLog].
  split; [by rewrite H1|]. split; [done|]. split.
  { rewrite H1. cbn. apply list_elem_of_fmap. by exists c. }
  split. { apply list_elem_of_fmap. by exists c. }
  split; [done|]. split; [done|]. split; [done|]. split; [done|].
  split; [by rewrite H1|]. split; [done|]. split; [done|].
  split; [apply lookup_insert_eq|]. split; [by rewrite H1|]. exact Hstamps.
Qed.

Lemma C4_witness :
  let bus := (emit sample_bus vision_extracted (sample_event vision 0)
                   (sample_stamp 1)).1.2 in
  let out1 := completeChain sample_toFixed1 bus "chain_1" (sample_stamp 2) in
  let out2 := completeChain sample_toFixed1 out1.1 "chain_1" (sample_stamp 3) in
  length (delivered out1.2) = 2%nat ∧ length (delivered out2.2) = 2%nat.
Proof.
  destruct (C4_each_completeChain_call_delivers_a_summary sample_toFixed1
              (emit sample_bus vision_extracted (sample_event vision 0)
                    (sample_stamp 1)).1.2
              "chain_1"
              {| ch_chainId := "chain_1";
                 ch_events := [complete_event vision_extracted
                                 (sample_event vision 0) (sample_stamp 1)];
                 ch_totalAgents := 1;
                 ch_totalDurationMs := 1200;
                 ch_startedAt := stamp_timestamp (sample_stamp 1);
                 ch_completedAt := None;
                 ch_status := running |}
              (sample_stamp 2) (sample_stamp 3) listener8)
    as (H1 & H2 & _).
  - vm_compute. reflexivity.
  - vm_compute. apply list_elem_of_further, list_elem_of_here.
  - vm_compute. discriminate.
  - cbn zeta. rewrite H1, H2. vm_compute. by split.
Defined.

(** C4, as the spec has it, fails: after one event in chain [chain_1],
    two calls of [completeChain] deliver two summary events of depth -1 to
    subscriber 8, which was subscribed before the first call. *)
Lemma C4_counterexample :
  let bus := (emit sample_bus vision_extracted (sample_event vision 0)
                   (sample_stamp 1)).1.2 in
  let out1 := completeChain sample_toFixed1 bus "chain_1" (sample_stamp 2) in
  let out2 := completeChain sample_toFixed1 out1.1 "chain_1" (sample_stamp 3) in
  (λ d, (d.1, ev_depth d.2, ev_summary d.2))
    <$> filter (λ d, d.1 = 8%nat) (delivered out1.2 ++ delivered out2.2)
  = [(8%nat, -1, "Chain complete: 1 agents, 1.2s");
     (8%nat, -1, "Chain complete: 1 agents, 1.2s")].
Proof. vm_compute. reflexivity. Qed.

(** Two calls that read the same clock value deliver the same event
    twice. *)
Example same_clock_gives_identical_summaries :
  let bus := (emit sample_bus vision_extracted (sample_event vision 0)
                   (sample_stamp 1)).1.2 in
  let out1 := completeChain sample_toFixed1 bus "chain_1" (sample_stamp 2) in
  let out2 := completeChain sample_toFixed1 out1.1 "chain_1" (sample_stamp 2) in
  delivered out2.2 = delivered out1.2 ∧ length (delivered out1.2) = 2%nat.
Proof. vm_compute. by split. Qed.

(** ** The checklist listener *)

Lemma alias_is_identity source a : AGENT_TO_CHECKLIST source = Some a → source = a.
Proof. destruct source; cbn; congruence. Qed.

(** The listeners of each event type: its trigger, if it has one, and the
    checklist listener. *)
Lemma registered_listeners type :
  listeners_of (listeners (registerBusHandlers new_bus)) type
  = match type with
    | vision_extracted => [VisionExtractedTrigger]
    | watchdog_matched => [WatchdogMatchedTrigger]
    | debate_verdict => [DebateVerdictTrigger]
    | freedom_updated => [FreedomUpdatedTrigger]
    | _ => []
    end ++ [ChecklistListener type].
Proof. by destruct type. Qed.

Section SystemFacts.

Variable toFixed1 : Z -> string.

Lemma run_listener_listeners env s call :
  listeners (sys_bus (run_listener toFixed1 env s call))
  = listeners (sys_bus s).
Proof.
  destruct call as [[| | | |type] event]; cbn; try done; try by case_decide.
  - case_decide; [done|]. by destruct (ev_payload event).
  - case_decide; [done|]. unfold completeChain.
    destruct (chains (sys_bus s) !! ev_chainId event); [|done].
    by destruct (broadcast _ _).
Qed.

Lemma run_listener_checklists env s call :
  sys_checklists (run_listener toFixed1 env s call)
  = match call.1 with
    | ChecklistListener _ => checklist_listener (le_now env) call.2 (sys_checklists s)
    | _ => sys_checklists s
    end.
Proof.
  destruct call as [[| | | |type] event]; cbn; try done; try by case_decide.
  - case_decide; [done|]. by destruct (ev_payload event).
  - case_decide; [done|]. by destruct (completeChain _ _ _ _).
Qed.

Lemma run_listeners_listeners env calls s :
  listeners (sys_bus (foldl (run_listener toFixed1 env) s calls))
  = listeners (sys_bus s).
Proof.
  revert s. induction calls as [|call calls IH]; intros s; [done|].
  cbn [foldl]. by rewrite IH, run_listener_listeners.
Qed.

(** Of the listeners of an accepted event, the checklist listener is the
    one that changes the checklists. *)
Lemma emit_call_checklists s c :
  handlers_registered s →
  sys_checklists (emit_call toFixed1 s c)
  = if decide (pe_depth (ec_event c) > 3) then sys_checklists s
    else checklist_listener (le_now (ec_env c))
           (complete_event (ec_type c) (ec_event c) (ec_stamp c))
           (sys_checklists s).
Proof.
  intros Hreg. unfold emit_call, emit_and_dispatch.
  case_decide as Hdepth.
  - by rewrite emit_rejected.
  - rewrite emit_accepted by (unfold MAX_CHAIN_DEPTH; lia).
    cbn [snd dispatched delivered]. rewrite Hreg, registered_listeners.
    rewrite fmap_app, foldl_app. cbn [fmap list_fmap foldl].
    rewrite run_listener_checklists. cbn [fst snd].
    destruct (ec_type c); cbn [fmap list_fmap foldl app];
      by rewrite ?run_listener_checklists.
Qed.

Lemma emit_call_listeners s c :
  listeners (sys_bus (emit_call toFixed1 s c)) = listeners (sys_bus s).
Proof.
  unfold emit_call, emit_and_dispatch.
  destruct (emit (sys_bus s) (ec_type c) (ec_event c) (ec_stamp c))
    as [[r bus'] eff] eqn:Hemit.
  cbn [snd]. rewrite run_listeners_listeners. cbn.
  unfold emit in Hemit. case_decide; [congruence|].
  destruct (broadcast _ _). injection Hemit as _ <- _. done.
Qed.

End SystemFacts.

Lemma checklist_listener_item now event (cl : Checklists) sid items k :
  distinct_ids cl → cl !! sid = Some items →
  getChecklist (checklist_listener now event cl) sid !! k
  = observed now event <$> items !! k.
Proof.
  intros Hwf Hsid. unfold checklist_listener, observed.
  destruct (AGENT_TO_CHECKLIST (ev_source event)) as [agentName|].
  - by apply sweep_item.
  - unfold getChecklist. rewrite Hsid. cbn. by destruct (items !! k).
Qed.

Lemma checklist_listener_distinct_ids now event (cl : Checklists) :
  distinct_ids cl → distinct_ids (checklist_listener now event cl).
Proof.
  intros Hwf. unfold checklist_listener.
  destruct (AGENT_TO_CHECKLIST (ev_source event)); [|done].
  by apply sweep_distinct_ids.
Qed.

Lemma item_at_session s sid k item :
  item_at s sid k = Some item →
  ∃ items, sys_checklists s !! sid = Some items ∧ items !! k = Some item.
Proof.
  unfold item_at, getChecklist.
  destruct (sys_checklists s !! sid) as [items|]; [eauto|done].
Qed.

Section ChecklistRuns.

Variable toFixed1 : Z -> string.

(** A call keeps the listeners and the distinct ids, and does to every
    item what [after_call] says. *)
Lemma system_call_item s c sid k item :
  handlers_registered s → distinct_ids (sys_checklists s) →
  item_at s sid k = Some item →
  handlers_registered (system_call toFixed1 s c)
  ∧ distinct_ids (sys_checklists (system_call toFixed1 s c))
  ∧ item_at (system_call toFixed1 s c) sid k = Some (after_call c item).
Proof.
  intros Hreg Hwf Hitem.
  destruct (item_at_session _ _ _ _ Hitem) as (items & Hsid & Hk).
  destruct c as [c|env agentName]; cbn [system_call after_call].
  - split; [|split].
    + unfold handlers_registered. by rewrite emit_call_listeners.
    + rewrite emit_call_checklists by done.
      case_decide; [done|]. by apply checklist_listener_distinct_ids.
    + unfold item_at. rewrite emit_call_checklists by done.
      case_decide; [done|].
      rewrite (checklist_listener_item _ _ _ _ items) by done.
      by rewrite Hk.
  - split; [done|]. split; [by apply sweep_distinct_ids|].
    unfold item_at. cbn [sys_checklists]. unfold mark_in_progress.
    rewrite (sweep_item _ _ _ _ items) by done. by rewrite Hk.
Qed.

Lemma system_calls_item cs : ∀ s sid k item,
  handlers_registered s → distinct_ids (sys_checklists s) →
  item_at s sid k = Some item →
  handlers_registered (system_calls toFixed1 s cs)
  ∧ distinct_ids (sys_checklists (system_calls toFixed1 s cs))
  ∧ item_at (system_calls toFixed1 s cs) sid k
    = Some (foldl (λ item c, after_call c item) item cs).
Proof.
  induction cs as [|c cs IH]; intros s sid k item Hreg Hwf Hitem; [done|].
  destruct (system_call_item s c sid k item Hreg Hwf Hitem)
    as (Hreg' & Hwf' & Hitem').
  cbn [foldl]. by apply IH.
Qed.

End ChecklistRuns.

(** A completed item is left alone by every call. *)
Lemma after_call_completed c item :
  it_status item = completed → after_call c item = item.
Proof.
  intros Hdone. destruct c as [c|env agentName]; cbn.
  - case_decide; [done|]. unfold observed, touch.
    destruct (AGENT_TO_CHECKLIST _); [|done].
    rewrite (bool_decide_eq_true_2 (it_status item = completed)) by done.
    by rewrite andb_false_r.
  - unfold started, touch. rewrite Hdone.
    by rewrite andb_false_r.
Qed.

Lemma after_calls_completed cs item :
  it_status item = completed →
  foldl (λ item c, after_call c item) item cs = item.
Proof.
  intros Hdone. induction cs as [|c cs IH]; [done|].
  cbn [foldl]. by rewrite after_call_completed.
Qed.

(** Until an event of its agent is accepted, an item is not completed and
    stays assigned to its agent. *)
Lemma after_call_waiting c item :
  ¬ accepted_from (it_assignedAgent item) c → it_status item ≠ completed →
  it_status (after_call c item) ≠ completed
  ∧ it_assignedAgent (after_call c item) = it_assignedAgent item
  ∧ it_id (after_call c item) = it_id item.
Proof.
  intros Hnot Hwait. destruct c as [c|env agentName]; cbn in *.
  - case_decide as Hdepth; [done|]. unfold observed.
    destruct (AGENT_TO_CHECKLIST _) as [agentName|] eqn:Halias; [|done].
    apply alias_is_identity in Halias. cbn in Halias. unfold touch.
    case_bool_decide as Hassigned; [|done].
    exfalso. apply Hnot. split; [congruence|lia].
  - unfold started, touch.
    destruct (bool_decide _ && bool_decide _); [|done]. done.
Qed.

Lemma after_calls_waiting cs : ∀ item,
  Forall (λ c, ¬ accepted_from (it_assignedAgent item) c) cs →
  it_status item ≠ completed →
  it_status (foldl (λ item c, after_call c item) item cs) ≠ completed
  ∧ it_assignedAgent (foldl (λ item c, after_call c item) item cs)
    = it_assignedAgent item
  ∧ it_id (foldl (λ item c, after_call c item) item cs) = it_id item.
Proof.
  induction cs as [|c cs IH]; intros item Hall Hwait; [done|].
  apply Forall_cons in Hall as [Hc Hall].
  destruct (after_call_waiting c item Hc Hwait) as (Hwait' & Hagent & Hid).
  cbn [foldl]. rewrite <- Hagent in Hall.
  destruct (IH _ Hall Hwait') as (? & ? & ?).
  split; [done|]. split; congruence.
Qed.

(** C9, as the code has it.  Take an item that is not completed and is
    assigned to an agent [X] of the listener's table (vision, watchdog,
    debate, letter, call-script, freedom, coach).  Whatever happens before
    the bus accepts an event of source [X] (events of other sources, events
    of [X] rejected for their depth, calls of [orchestrate]), the item is
    not completed.  The first accepted event of source [X] makes it
    [completed] with progress 100 and the event's summary as result.
    Nothing that the bus or [orchestrate] does afterwards changes the item
    again; later events of [X] in particular leave it as it is. *)
Theorem C9_item_completes_on_first_event_of_its_agent
    (toFixed1 : Z → string) (s : System) (sid : string) (k : nat)
    (item : ChecklistItem) (before after : list SystemCall) (c : EmitCall) :
  handlers_registered s →
  distinct_ids (sys_checklists s) →
  item_at s sid k = Some item →
  it_status item ≠ completed →
  AGENT_TO_CHECKLIST (it_assignedAgent item) = Some (it_assignedAgent item) →
  Forall (λ c', ¬ accepted_from (it_assignedAgent item) c') before →
  pe_source (ec_event c) = it_assignedAgent item →
  pe_depth (ec_event c) ≤ 3 →
  let s1 := system_calls toFixed1 s before in
  let s2 := emit_call toFixed1 s1 c in
  let s3 := system_calls toFixed1 s2 after in
  ∃ waiting finished,
    item_at s1 sid k = Some waiting
    ∧ it_status waiting ≠ completed
    ∧ item_at s2 sid k = Some finished
    ∧ finished
      = assign waiting
          (completion (le_now (ec_env c))
             (complete_event (ec_type c) (ec_event c) (ec_stamp c)))
    ∧ it_status finished = completed
    ∧ it_progress finished = 100
    ∧ it_result finished = Some (pe_summary (ec_event c))
    ∧ item_at s3 sid k = Some finished.
Proof.
  intros Hreg Hwf Hitem Hwait Halias Hbefore Hsource Hdepth s1 s2 s3.
  destruct (system_calls_item toFixed1 before s sid k item Hreg Hwf Hitem)
    as (Hreg1 & Hwf1 & Hitem1).
  destruct (after_calls_waiting before item Hbefore Hwait)
    as (Hwait1 & Hagent1 & _).
  set (waiting := foldl (λ item c, after_call c item) item before) in *.
  destruct (system_call_item toFixed1 (system_calls toFixed1 s before)
              (EmitStep c) sid k waiting Hreg1 Hwf1 Hitem1)
    as (Hreg2 & Hwf2 & Hitem2).
  cbn [system_call] in Hreg2, Hwf2, Hitem2.
  assert (Hfinished : after_call (EmitStep c) waiting
                      = assign waiting
                          (completion (le_now (ec_env c))
                             (complete_event (ec_type c) (ec_event c)
                                             (ec_stamp c)))).
  { cbn [after_call]. rewrite decide_False by lia. unfold observed.
    cbn [complete_event ev_source]. rewrite Hsource, Halias. unfold touch.
    rewrite bool_decide_eq_true_2 by done.
    by rewrite (bool_decide_eq_false_2 (it_status waiting = completed)). }
  rewrite Hfinished in Hitem2.
  destruct (system_calls_item toFixed1 after _ sid k _ Hreg2 Hwf2 Hitem2)
    as (_ & _ & Hitem3).
  rewrite after_calls_completed in Hitem3 by done.
  exists waiting, (assign waiting
                     (completion (le_now (ec_env c))
                        (complete_event (ec_type c) (ec_event c) (ec_stamp c)))).
  by repeat split.
Qed.

Lemma C9_witness :
  let before :=
    [EmitStep (sample_emit watchdog_matched watchdog 0 1);
     EmitStep (sample_emit vision_extracted vision 4 2);
     OrchestrateStep (sample_env 0 10) vision] in
  let c := sample_emit vision_extracted vision 1 3 in
  let after := [EmitStep (sample_emit vision_extracted vision 2 4)] in
  ∃ finished,
    item_at (system_calls sample_toFixed1
               (emit_call sample_toFixed1
                  (system_calls sample_toFixed1 sample_system before) c)
               after) "session_1" 0
    = Some finished
    ∧ it_status finished = completed
    ∧ it_result finished = Some "Done by vision".
Proof.
  cbn zeta.
  destruct (C9_item_completes_on_first_event_of_its_agent sample_toFixed1
              sample_system "session_1" 0
              {| it_id := task_id 1700000000000 0;
                 it_task := "Task";
                 it_description := "What the agent is to do";
                 it_assignedAgent := vision;
                 it_status := pending;
                 it_progress := 0;
                 it_result := None;
                 it_decision := None;
                 it_startedAt := None;
                 it_completedAt := None |}
              [EmitStep (sample_emit watchdog_matched watchdog 0 1);
               EmitStep (sample_emit vision_extracted vision 4 2);
               OrchestrateStep (sample_env 0 10) vision]
              [EmitStep (sample_emit vision_extracted vision 2 4)]
              (sample_emit vision_extracted vision 1 3))
    as (waiting & finished & _ & _ & _ & _ & Hstatus & _ & Hresult & Hlast).
  - reflexivity.
  - apply sample_checklists_distinct_ids.
  - vm_compute. reflexivity.
  - discriminate.
  - reflexivity.
  - apply Forall_cons. split; [intros [Hs _]; vm_compute in Hs; discriminate|].
    apply Forall_cons. split; [intros [_ Hd]; vm_compute in Hd; by apply Hd|].
    apply Forall_cons. split; [intros []|]. apply Forall_nil_2.
  - reflexivity.
  - vm_compute. discriminate.
  - exists finished. split; [exact Hlast|]. split; [exact Hstatus|exact Hresult].
Defined.

(** C9, as the spec has it, fails for an agent outside the listener's
    table: the bus accepts an event of source [simulator] and calls its
    listeners, and the item assigned to [simulator] is still pending. *)
Lemma C9_counterexample :
  let c := sample_emit coach_insight simulator 0 1 in
  let out := emit_and_dispatch sample_toFixed1 (ec_env c) sample_system
               (ec_type c) (ec_event c) (ec_stamp c) in
  out.1 = true
  ∧ ev_source <$> eventLog (sys_bus out.2) = [simulator]
  ∧ it_assignedAgent <$> item_at sample_system "session_1" 1 = Some simulator
  ∧ (λ i, (it_assignedAgent i, it_status i, it_progress i, it_result i))
      <$> item_at out.2 "session_1" 1
    = Some (simulator, pending, 0, None).
Proof. vm_compute. by repeat split. Qed.

(** * Further properties *)

(** ** The retry loop *)

Section LoopFacts.

Context {T : Type}.
Variable JSON_stringify : T -> Outcome string.

Lemma orchestrate_run_loop env st cl a input (agentFn : nat → Outcome T) options :
  orchestrate JSON_stringify env st cl a input agentFn options
  = match run_loop JSON_stringify env st agentFn options with
    | Passed result durationMs outputStr quality l =>
        let log :=
          {| log_id := env_callId env;
             log_agent := a;
             log_timestamp := env_logTimestamp env;
             log_durationMs := durationMs;
             log_success := true;
             log_qualityScore := q_score quality;
             log_qualityReasoning := q_reasoning quality;
             log_retryCount := retryCount l;
             log_inputSummary := js_prefix 200 input;
             log_outputSummary := js_prefix 200 outputStr;
             log_correctionApplied := correctionApplied l;
             log_error := None |} in
        (record_call (with_corrections st (totalCorrections l)) a log,
         mark_in_progress env a cl, Resolved result log)
    | Exhausted l =>
        let log :=
          {| log_id := env_callId env;
             log_agent := a;
             log_timestamp := env_logTimestamp env;
             log_durationMs := env_endTime env - env_startTime env;
             log_success := false;
             log_qualityScore := js_num 0;
             log_qualityReasoning :=
               "All " +:+ pretty (maxRetries_of options + 1)
                 +:+ " attempts failed";
             log_retryCount := retryCount l;
             log_inputSummary := js_prefix 200 input;
             log_outputSummary := "";
             log_correctionApplied := correctionApplied l;
             log_error := lastError l |} in
        (record_call (with_corrections st (totalCorrections l)) a log,
         mark_in_progress env a cl,
         Rejected ("[Orchestrator] " +:+ agent_text a
                   +:+ " failed after " +:+ pretty (retryCount l + 1)
                   +:+ " attempts: " +:+ default "undefined" (lastError l)))
    end.
Proof. reflexivity. Qed.

Lemma invoke_accounting (agentFn : nat → Outcome T) options attempt l :
  let l1 := (invoke agentFn options attempt l).2 in
  retryCount l1 = retryCount l
  ∧ totalCorrections l1 = totalCorrections l
  ∧ lastError l1 = lastError l
  ∧ correctionApplied l1 = correctionApplied l
  ∧ invocations l1 = invocations l + 1.
Proof.
  unfold invoke, invocations.
  destruct attempt, (retryFn_of options); cbn; repeat split; lia.
Qed.

(** A run of the loop from attempt [attempt]: every retry is counted once
    in [retryCount] and once in [totalCorrections], every iteration calls
    one unit of work, and the loop stops at [maxRetries]. *)
Lemma attempt_loop_accounting env (agentFn : nat → Outcome T) options fuel :
  ∀ attempt l,
    (Z.to_nat (maxRetries_of options + 1 - Z.of_nat attempt) ≤ fuel)%nat →
    let e := attempt_loop JSON_stringify env agentFn options fuel attempt l in
    let r := retryCount (exit_loop e) - retryCount l in
    totalCorrections (exit_loop e) - totalCorrections l = r
    ∧ 0 ≤ r
    ∧ match e with
      | Passed _ _ _ _ _ =>
          Z.of_nat attempt + r ≤ maxRetries_of options
          ∧ invocations (exit_loop e) - invocations l = r + 1
      | Exhausted _ =>
          r = Z.max 0 (maxRetries_of options - Z.of_nat attempt)
          ∧ invocations (exit_loop e) - invocations l
            = Z.max 0 (maxRetries_of options + 1 - Z.of_nat attempt)
      end.
Proof.
  induction fuel as [|fuel IH]; intros attempt l Hfuel; cbn [attempt_loop].
  - cbn. lia.
  - case_decide as Hcond; [|cbn; lia].
    pose proof (invoke_accounting agentFn options attempt l) as Hinv.
    destruct (invoke agentFn options attempt l) as [outcome l1].
    cbn zeta in Hinv. cbn [snd] in Hinv.
    destruct Hinv as (Hr & Hc & _ & _ & Hi).
    assert (Hstep : ∀ l2,
      retryCount l2 - retryCount l1 = totalCorrections l2 - totalCorrections l1 →
      0 ≤ retryCount l2 - retryCount l1 ≤ 1 →
      (retryCount l2 - retryCount l1 = 0 → maxRetries_of options ≤ Z.of_nat attempt) →
      (retryCount l2 - retryCount l1 = 1 → Z.of_nat attempt < maxRetries_of options) →
      invocations l2 = invocations l1 →
      let e := attempt_loop JSON_stringify env agentFn options fuel
                 (S attempt) l2 in
      let r := retryCount (exit_loop e) - retryCount l in
      totalCorrections (exit_loop e) - totalCorrections l = r
      ∧ 0 ≤ r
      ∧ match e with
        | Passed _ _ _ _ _ =>
            Z.of_nat attempt + r ≤ maxRetries_of options
            ∧ invocations (exit_loop e) - invocations l = r + 1
        | Exhausted _ =>
            r = Z.max 0 (maxRetries_of options - Z.of_nat attempt)
            ∧ invocations (exit_loop e) - invocations l
              = Z.max 0 (maxRetries_of options + 1 - Z.of_nat attempt)
        end).
    { intros l2 Hsame Hone Hlast Hmore Hi2.
      specialize (IH (S attempt) l2). cbn zeta in IH.
      destruct IH as (IHc & IHr & IHe); [lia|].
      destruct (attempt_loop JSON_stringify env agentFn options fuel
                  (S attempt) l2); cbn [exit_loop] in *; lia. }
    destruct outcome as [result|err].
    + destruct (output_text JSON_stringify options result) as [outputStr|err];
        [destruct (quality_of env options attempt) as [quality|err]|].
      * destruct (q_hasCriticalIssue _ && _ && _) eqn:Hretry.
        -- apply andb_prop in Hretry as [Hretry _].
           apply andb_prop in Hretry as [_ Hlt].
           apply bool_decide_eq_true in Hlt.
           apply Hstep; cbn; first [reflexivity | lia].
        -- cbn [exit_loop]. lia.
      * case_decide; apply Hstep; cbn; first [reflexivity | lia].
      * case_decide; apply Hstep; cbn; first [reflexivity | lia].
    + case_decide; apply Hstep; cbn; first [reflexivity | lia].
Qed.

End LoopFacts.

(** X1.  Whatever the unit of work and the judge do, [orchestrate] calls a
    unit of work at most [maxRetries + 1] times (never, for a negative
    [maxRetries]); the [retryCount] of the log it writes is the number of
    corrections it added to [totalCorrections], and lies between 0 and
    [maxRetries]; a resolved call has made [retryCount + 1] calls, a
    rejected one all [maxRetries + 1]. *)
Theorem X1_retries_are_bounded_and_counted
    {T : Type} (JSON_stringify : T → Outcome string) env st cl a input
    (agentFn : nat → Outcome T) options :
  let out := orchestrate JSON_stringify env st cl a input agentFn options in
  let calls :=
    invocations (exit_loop (run_loop JSON_stringify env st agentFn options)) in
  ∃ log,
    last (st_callLog out.1.1) = Some log
    ∧ 0 ≤ log_retryCount log ≤ Z.max 0 (maxRetries_of options)
    ∧ st_totalCorrections out.1.1
      = st_totalCorrections st + log_retryCount log
    ∧ 0 ≤ calls ≤ Z.max 0 (maxRetries_of options + 1)
    ∧ (∀ r log', out.2 = Resolved r log' →
         log' = log ∧ calls = log_retryCount log + 1)
    ∧ (∀ m, out.2 = Rejected m →
         log_success log = false
         ∧ calls = Z.max 0 (maxRetries_of options + 1)
         ∧ log_retryCount log = Z.max 0 (maxRetries_of options)).
Proof.
  intros out calls. subst out calls. rewrite orchestrate_run_loop.
  pose proof (attempt_loop_accounting JSON_stringify env agentFn options
                (Z.to_nat (maxRetries_of options + 1)) 0 (loop_start st)) as H.
  cbn zeta in H. fold (run_loop JSON_stringify env st agentFn options) in H.
  destruct H as (Hc & Hr & He); [lia|].
  change (retryCount (loop_start st)) with 0 in *.
  change (totalCorrections (loop_start st)) with (st_totalCorrections st) in *.
  change (invocations (loop_start st)) with 0 in *.
  destruct (run_loop JSON_stringify env st agentFn options)
    as [r d s q l|l]; cbn [exit_loop] in *; cbn zeta.
  - eexists. split; [apply last_push_log|]. cbn.
    split; [lia|]. split; [lia|]. split; [lia|]. split.
    + intros r' log' [= <- <-]. split; [done|]. cbn. lia.
    + intros m [=].
  - eexists. split; [apply last_push_log|]. cbn.
    split; [lia|]. split; [lia|]. split; [lia|]. split.
    + intros r' log' [=].
    + intros m _. split; [done|]. lia.
Qed.

Section FailingRuns.

Context {T : Type}.
Variable JSON_stringify : T -> Outcome string.

(** With no [retryFn] and a unit of work that throws every time, the loop
    runs to its end, and the last error is that of the last attempt. *)
Lemma attempt_loop_all_thrown env (agentFn : nat → Outcome T) options err fuel :
  retryFn_of options = None →
  (∀ k, agentFn k = Thrown (err k)) →
  ∀ attempt l,
    agentFn_calls l = attempt →
    Z.of_nat attempt ≤ maxRetries_of options →
    (Z.to_nat (maxRetries_of options + 1 - Z.of_nat attempt) ≤ fuel)%nat →
    ∃ l',
      attempt_loop JSON_stringify env agentFn options fuel attempt l
      = Exhausted l'
      ∧ lastError l'
        = Some (default "Unknown error"
                        (err (Z.to_nat (maxRetries_of options)))).
Proof.
  intros Hretry Hthrow.
  induction fuel as [|fuel IH]; intros attempt l Hcalls Hle Hfuel; [lia|].
  cbn [attempt_loop]. rewrite decide_True by done.
  unfold invoke. rewrite Hretry.
  replace (match attempt with
           | O | _ => (agentFn (agentFn_calls l),
               {| lastError := lastError l; retryCount := retryCount l;
                  correctionApplied := correctionApplied l;
                  totalCorrections := totalCorrections l;
                  agentFn_calls := S (agentFn_calls l);
                  retryFn_calls := retryFn_calls l |})
           end)
    with (agentFn (agentFn_calls l),
          {| lastError := lastError l; retryCount := retryCount l;
             correctionApplied := correctionApplied l;
             totalCorrections := totalCorrections l;
             agentFn_calls := S (agentFn_calls l);
             retryFn_calls := retryFn_calls l |})
    by by destruct attempt.
  rewrite Hthrow, Hcalls.
  case_decide as Hlt.
  - apply IH; [done|lia|lia].
  - assert (Z.to_nat (maxRetries_of options) = attempt) as -> by lia.
    destruct fuel as [|fuel']; cbn [attempt_loop].
    + eexists. split; [reflexivity|]. done.
    + rewrite decide_False by lia. eexists. split; [reflexivity|]. done.
Qed.

(** With the quality check on, no [retryFn] and a judge that answers
    [null] every time, every attempt whose unit of work resolves fails on
    the evaluation, and the loop runs to its end. *)
Lemma attempt_loop_null_judge env (agentFn : nat → Outcome T) options fuel :
  retryFn_of options = None →
  checks_quality options = true →
  (∀ k, env_judge env k = JudgeSaidNull) →
  (∀ k, ∃ r text, agentFn k = Returned r
                  ∧ output_text JSON_stringify options r = Returned text) →
  ∀ attempt l,
    Z.of_nat attempt ≤ maxRetries_of options →
    (Z.to_nat (maxRetries_of options + 1 - Z.of_nat attempt) ≤ fuel)%nat →
    ∃ l',
      attempt_loop JSON_stringify env agentFn options fuel attempt l
      = Exhausted l'
      ∧ lastError l' = Some NULL_QUALITY_MESSAGE.
Proof.
  intros Hretry Hchecks Hnull Hfine.
  induction fuel as [|fuel IH]; intros attempt l Hle Hfuel; [lia|].
  cbn [attempt_loop]. rewrite decide_True by done.
  unfold invoke. rewrite Hretry.
  replace (match attempt with
           | O | _ => (agentFn (agentFn_calls l),
               {| lastError := lastError l; retryCount := retryCount l;
                  correctionApplied := correctionApplied l;
                  totalCorrections := totalCorrections l;
                  agentFn_calls := S (agentFn_calls l);
                  retryFn_calls := retryFn_calls l |})
           end)
    with (agentFn (agentFn_calls l),
          {| lastError := lastError l; retryCount := retryCount l;
             correctionApplied := correctionApplied l;
             totalCorrections := totalCorrections l;
             agentFn_calls := S (agentFn_calls l);
             retryFn_calls := retryFn_calls l |})
    by by destruct attempt.
  destruct (Hfine (agentFn_calls l)) as (r & text & -> & ->).
  unfold quality_of. rewrite Hchecks, Hnull. cbn [evaluateQuality default].
  case_decide as Hlt.
  - apply IH; lia.
  - destruct fuel as [|fuel']; cbn [attempt_loop].
    + eexists. split; [reflexivity|]. done.
    + rewrite decide_False by lia. eexists. split; [reflexivity|]. done.
Qed.

End FailingRuns.

(** X2.  With no [retryFn], a non-negative [maxRetries] and a unit of work
    that throws on every call, [orchestrate] calls it [maxRetries + 1]
    times and rejects; the log it writes has [success = false], quality
    score 0, [retryCount = maxRetries] and the message of the last error,
    and [totalCorrections] has grown by [maxRetries].  With [maxRetries =
    0] that is one attempt, no retry and no correction. *)
Theorem X2_unit_of_work_that_always_throws
    {T : Type} (JSON_stringify : T → Outcome string) env st cl a input
    (agentFn : nat → Outcome T) options (err : nat → option string) :
  retryFn_of options = None →
  0 ≤ maxRetries_of options →
  (∀ k, agentFn k = Thrown (err k)) →
  let out := orchestrate JSON_stringify env st cl a input agentFn options in
  let message :=
    default "Unknown error" (err (Z.to_nat (maxRetries_of options))) in
  ∃ log,
    last (st_callLog out.1.1) = Some log
    ∧ out.2 = Rejected ("[Orchestrator] " +:+ agent_text a
                        +:+ " failed after "
                        +:+ pretty (maxRetries_of options + 1)
                        +:+ " attempts: " +:+ message)
    ∧ log_success log = false
    ∧ log_qualityScore log = js_num 0
    ∧ log_retryCount log = maxRetries_of options
    ∧ log_error log = Some message
    ∧ st_totalCorrections out.1.1
      = st_totalCorrections st + maxRetries_of options
    ∧ invocations (exit_loop (run_loop JSON_stringify env st agentFn options))
      = maxRetries_of options + 1.
Proof.
  intros Hretry Hmax Hthrow out message.
  destruct (attempt_loop_all_thrown JSON_stringify env agentFn options err
              (Z.to_nat (maxRetries_of options + 1)) Hretry Hthrow 0
              (loop_start st)) as (l' & Hloop & Herr); [done|lia|lia|].
  pose proof (attempt_loop_accounting JSON_stringify env agentFn options
                (Z.to_nat (maxRetries_of options + 1)) 0 (loop_start st))
    as Hcount.
  cbn zeta in Hcount. rewrite Hloop in Hcount. cbn [exit_loop] in Hcount.
  destruct Hcount as (Hcorr & _ & Hretries & Hcalls); [lia|].
  change (retryCount (loop_start st)) with 0 in *.
  change (totalCorrections (loop_start st)) with (st_totalCorrections st) in *.
  change (invocations (loop_start st)) with 0 in *.
  fold (run_loop JSON_stringify env st agentFn options) in Hloop.
  subst out. rewrite orchestrate_run_loop, Hloop. cbn zeta. cbn [fst snd].
  eexists. split; [apply last_push_log|]. cbn.
  rewrite Herr. fold message.
  replace (retryCount l') with (maxRetries_of options) by lia.
  repeat split; try done; lia.
Qed.

Lemma X2_witness :
  (orchestrate text_json (sample_env 0 10) (initial_state "up") ∅ watchdog
     "input" (never "down") (retries 0)).2
  = Rejected "[Orchestrator] watchdog failed after 1 attempts: down".
Proof.
  destruct (X2_unit_of_work_that_always_throws text_json (sample_env 0 10)
              (initial_state "up") ∅ watchdog "input" (never "down")
              (retries 0) (λ _, Some "down"))
    as (log & _ & Hout & _); [reflexivity|vm_compute; discriminate|done|].
  rewrite Hout. reflexivity.
Defined.

(** X3.  With a negative [maxRetries] the loop body never runs: no unit of
    work is called, and still [orchestrate] rejects, reporting one attempt
    and the error [undefined], logs a failed call with no error text, and
    counts it in the agent's health record. *)
Theorem X3_negative_maxRetries_fails_without_a_call
    {T : Type} (JSON_stringify : T → Outcome string) env st cl a input
    (agentFn : nat → Outcome T) options :
  maxRetries_of options < 0 →
  let out := orchestrate JSON_stringify env st cl a input agentFn options in
  ∃ log,
    last (st_callLog out.1.1) = Some log
    ∧ run_loop JSON_stringify env st agentFn options
      = Exhausted (loop_start st)
    ∧ invocations (exit_loop (run_loop JSON_stringify env st agentFn options))
      = 0
    ∧ out.2 = Rejected ("[Orchestrator] " +:+ agent_text a
                        +:+ " failed after 1 attempts: undefined")
    ∧ log_success log = false
    ∧ log_retryCount log = 0
    ∧ log_error log = None
    ∧ st_totalCorrections out.1.1 = st_totalCorrections st
    ∧ h_totalCalls (st_agents out.1.1 a) = h_totalCalls (st_agents st a) + 1
    ∧ h_lastError (st_agents out.1.1 a) = h_lastError (st_agents st a).
Proof.
  intros Hneg out.
  assert (Hloop : run_loop JSON_stringify env st agentFn options
                  = Exhausted (loop_start st)).
  { unfold run_loop.
    replace (Z.to_nat (maxRetries_of options + 1)) with 0%nat by lia. done. }
  subst out. rewrite orchestrate_run_loop, Hloop. cbn zeta. cbn [fst snd].
  eexists. split; [apply last_push_log|].
  split; [done|]. split; [done|]. split; [done|].
  split; [done|]. split; [done|]. split; [done|]. split; [done|].
  split; [by rewrite record_call_health_calls|].
  unfold record_call, updateHealth. cbn. by rewrite set_agent_same.
Qed.

Lemma X3_witness :
  (orchestrate text_json (sample_env 0 10) (initial_state "up") ∅ coach
     "input" (always "tip") (retries (-1))).2
  = Rejected "[Orchestrator] coach failed after 1 attempts: undefined".
Proof.
  destruct (X3_negative_maxRetries_fails_without_a_call text_json
              (sample_env 0 10) (initial_state "up") ∅ coach "input"
              (always "tip") (retries (-1)))
    as (log & _ & _ & _ & Hout & _); [reflexivity|].
  rewrite Hout. reflexivity.
Defined.

(** X4.  Take a first call of the unit of work that resolves with a result
    that goes into text (through [outputToString], or
    [JSON.stringify(result).substring]), and a quality check that, if it is
    made, does not return [null].  When there is no retry path for a
    quality finding (no [retryFn], or [maxRetries = 0], or no critical
    issue), [orchestrate] resolves with that result after one call: even a
    critical finding is logged with its score and returned as success.  A
    failing judge gives score 65, an unreadable reply 70, a skipped check
    80, and none of the three is critical. *)
Theorem X4_first_attempt_resolves_without_retry_path
    {T : Type} (JSON_stringify : T → Outcome string) env st cl a input
    (agentFn : nat → Outcome T) options r outputStr quality :
  0 ≤ maxRetries_of options →
  agentFn 0%nat = Returned r →
  output_text JSON_stringify options r = Returned outputStr →
  quality_of env options 0 = Returned quality →
  retryFn_of options = None ∨ maxRetries_of options = 0
  ∨ q_hasCriticalIssue quality = false →
  let out := orchestrate JSON_stringify env st cl a input agentFn options in
  ∃ log,
    out.2 = Resolved r log
    ∧ last (st_callLog out.1.1) = Some log
    ∧ log_success log = true
    ∧ log_qualityScore log = q_score quality
    ∧ log_qualityReasoning log = q_reasoning quality
    ∧ log_retryCount log = 0
    ∧ log_correctionApplied log = None
    ∧ log_durationMs log = env_clock env 0 - env_startTime env
    ∧ st_totalCorrections out.1.1 = st_totalCorrections st
    ∧ invocations (exit_loop (run_loop JSON_stringify env st agentFn options))
      = 1
    ∧ (checks_quality options = false →
       quality
       = {| q_score := js_num 80; q_reasoning := "Skipped";
            q_hasCriticalIssue := false; q_suggestedFix := None |})
    ∧ (checks_quality options = true → env_judge env 0%nat = JudgeFailed →
       quality
       = {| q_score := js_num 65;
            q_reasoning := "Quality evaluation skipped (evaluator error)";
            q_hasCriticalIssue := false; q_suggestedFix := None |})
    ∧ (checks_quality options = true → env_judge env 0%nat = JudgeUnreadable →
       quality
       = {| q_score := js_num 70;
            q_reasoning := "Evaluation completed with default score";
            q_hasCriticalIssue := false; q_suggestedFix := None |})
    ∧ (checks_quality options = true → ∀ q,
       env_judge env 0%nat = JudgeSaid q → quality = q).
Proof.
  intros Hmax H0 Hout Hquality Hnopath out.
  assert (Hloop : run_loop JSON_stringify env st agentFn options
                  = Passed r (env_clock env 0 - env_startTime env) outputStr
                      quality
                      {| lastError := None; retryCount := 0;
                         correctionApplied := None;
                         totalCorrections := st_totalCorrections st;
                         agentFn_calls := 1; retryFn_calls := 0 |}).
  { unfold run_loop.
    destruct (Z.to_nat (maxRetries_of options + 1)) as [|fuel] eqn:Hfuel;
      [lia|].
    cbn [attempt_loop]. rewrite decide_True by (cbn; lia).
    unfold invoke. cbn [loop_start agentFn_calls]. rewrite H0, Hout, Hquality.
    assert (q_hasCriticalIssue quality
            && bool_decide (Z.of_nat 0 < maxRetries_of options)
            && bool_decide (is_Some (retryFn_of options)) = false) as ->.
    { destruct Hnopath as [Hnone|[Hzero|Hfine]].
      - rewrite Hnone. rewrite (bool_decide_eq_false_2 (is_Some None)).
        + apply andb_false_r.
        + by intros [? ?].
      - rewrite Hzero. cbn. by rewrite andb_false_r.
      - by rewrite Hfine. }
    done. }
  subst out. rewrite orchestrate_run_loop, Hloop. cbn zeta. cbn [fst snd].
  eexists. split; [reflexivity|]. split; [apply last_push_log|]. cbn.
  unfold quality_of in Hquality.
  repeat split; try done.
  - intros Hskip. rewrite Hskip in Hquality. by injection Hquality as <-.
  - intros Hcheck Hjudge. rewrite Hcheck, Hjudge in Hquality.
    by injection Hquality as <-.
  - intros Hcheck Hjudge. rewrite Hcheck, Hjudge in Hquality.
    by injection Hquality as <-.
  - intros Hcheck q Hjudge. rewrite Hcheck, Hjudge in Hquality.
    by injection Hquality as <-.
Qed.

Lemma X4_witness :
  ∃ log,
    (orchestrate text_json (critical_env 0 10) (initial_state "up") ∅ freedom
       "input" (always "path") None).2
    = Resolved "path" log
    ∧ log_qualityScore log = js_num 20.
Proof.
  destruct (X4_first_attempt_resolves_without_retry_path text_json
              (critical_env 0 10) (initial_state "up") ∅ freedom "input"
              (always "path") None "path" "path"
              {| q_score := js_num 20; q_reasoning := "made-up rates";
                 q_hasCriticalIssue := true;
                 q_suggestedFix := Some "Use the real rates" |})
    as (log & Hout & _ & _ & Hscore & _);
    [vm_compute; discriminate|reflexivity|reflexivity|reflexivity|by left|].
  exists log. split; [exact Hout|]. rewrite Hscore. reflexivity.
Defined.

(** X5.  With a [retryFn], the quality check on and [maxRetries = 1]: when
    the judge finds a critical issue in the result of the first attempt,
    [orchestrate] calls [retryFn] once, with the judge's suggested fix (or
    "Retry with stricter validation" when there is none).  When [retryFn]
    resolves, with a result that goes into text as the first did, and the
    second evaluation is not [null], [orchestrate] resolves with the result
    of [retryFn], also when the second evaluation finds a critical issue
    again; the log has [retryCount = 1], the fix as [correctionApplied] and
    the score of the second evaluation, and one correction is counted. *)
Theorem X5_critical_finding_is_retried_through_retryFn
    {T : Type} (JSON_stringify : T → Outcome string) env st cl a input
    (agentFn : nat → Outcome T) options retry q0 r0 text0 r1 text1 q1 :
  maxRetries_of options = 1 →
  retryFn_of options = Some retry →
  checks_quality options = true →
  agentFn 0%nat = Returned r0 →
  output_text JSON_stringify options r0 = Returned text0 →
  env_judge env 0%nat = JudgeSaid q0 →
  q_hasCriticalIssue q0 = true →
  let correction :=
    or_default (q_suggestedFix q0) "Retry with stricter validation" in
  retry correction 0%nat = Returned r1 →
  output_text JSON_stringify options r1 = Returned text1 →
  evaluateQuality (env_judge env 1%nat) = Some q1 →
  let out := orchestrate JSON_stringify env st cl a input agentFn options in
  ∃ log,
    out.2 = Resolved r1 log
    ∧ last (st_callLog out.1.1) = Some log
    ∧ log_success log = true
    ∧ log_retryCount log = 1
    ∧ log_correctionApplied log = Some correction
    ∧ log_qualityScore log = q_score q1
    ∧ log_outputSummary log = js_prefix 200 text1
    ∧ st_totalCorrections out.1.1 = st_totalCorrections st + 1
    ∧ agentFn_calls
        (exit_loop (run_loop JSON_stringify env st agentFn options)) = 1%nat
    ∧ retryFn_calls
        (exit_loop (run_loop JSON_stringify env st agentFn options)) = 1%nat.
Proof.
  intros Hmax Hretry Hchecks H0 Hout0 Hjudge Hcritical correction H1 Hout1
    Hjudge1 out.
  assert (Hnonempty : or_default (Some correction)
                        "Retry with improved parameters" = correction).
  { subst correction. destruct (q_suggestedFix q0) as [[|c f]|]; done. }
  assert (Hloop : run_loop JSON_stringify env st agentFn options
                  = Passed r1 (env_clock env 1 - env_startTime env) text1
                      q1
                      {| lastError := None; retryCount := 1;
                         correctionApplied := Some correction;
                         totalCorrections := st_totalCorrections st + 1;
                         agentFn_calls := 1; retryFn_calls := 1 |}).
  { unfold run_loop. rewrite Hmax. change (Z.to_nat (1 + 1)) with 2%nat.
    cbn [attempt_loop]. unfold quality_of.
    rewrite Hmax, Hretry, Hchecks. cbn [Z.of_nat].
    rewrite decide_True by lia. unfold invoke at 1.
    cbn [loop_start agentFn_calls]. rewrite H0, Hout0, Hjudge.
    cbn [evaluateQuality]. rewrite Hcritical.
    rewrite bool_decide_eq_true_2 by lia.
    rewrite bool_decide_eq_true_2 by by eexists.
    cbn [andb]. fold correction.
    rewrite decide_True by (cbn; lia). unfold invoke. rewrite Hretry.
    cbn [count_retry correctionApplied retryFn_calls].
    change (retryFn_calls (loop_start st)) with 0%nat.
    rewrite Hnonempty, H1, Hout1, Hjudge1.
    rewrite (bool_decide_eq_false_2 (Z.of_nat 1 < 1)) by (cbn; lia).
    rewrite andb_false_r. cbn [andb]. cbn. done. }
  subst out. rewrite orchestrate_run_loop, Hloop. cbn zeta. cbn [fst snd].
  eexists. split; [reflexivity|]. split; [apply last_push_log|]. cbn.
  by repeat split.
Qed.

Lemma X5_witness :
  ∃ log,
    (orchestrate text_json (critical_env 0 10) (initial_state "up") ∅ freedom
       "input" (always "path") retry_options).2
    = Resolved "Use the real rates" log
    ∧ log_retryCount log = 1.
Proof.
  destruct (X5_critical_finding_is_retried_through_retryFn text_json
              (critical_env 0 10) (initial_state "up") ∅ freedom "input"
              (always "path") retry_options echo_fix
              {| q_score := js_num 20; q_reasoning := "made-up rates";
                 q_hasCriticalIssue := true;
                 q_suggestedFix := Some "Use the real rates" |}
              "path" "path" "Use the real rates" "Use the real rates"
              {| q_score := js_num 90; q_reasoning := "ok";
                 q_hasCriticalIssue := false; q_suggestedFix := None |})
    as (log & Hout & _ & _ & Hcount & _); try reflexivity.
  exists log. split; [exact Hout|exact Hcount].
Defined.

(** X6.  With a [retryFn] and [maxRetries = 1]: when the first attempt
    throws, the second attempt calls [retryFn], not [agentFn], and hands it
    the text "Auto-retry after error: " followed by the error message.
    When that resolves with a result that goes into text, and the quality
    check, if it is made, does not return [null], [orchestrate] resolves
    with that result, with [retryCount = 1] and that text as
    [correctionApplied]. *)
Theorem X6_error_is_retried_through_retryFn
    {T : Type} (JSON_stringify : T → Outcome string) env st cl a input
    (agentFn : nat → Outcome T) options retry err r1 text1 quality :
  maxRetries_of options = 1 →
  retryFn_of options = Some retry →
  agentFn 0%nat = Thrown err →
  let correction :=
    "Auto-retry after error: " +:+ default "Unknown error" err in
  retry correction 0%nat = Returned r1 →
  output_text JSON_stringify options r1 = Returned text1 →
  quality_of env options 1 = Returned quality →
  let out := orchestrate JSON_stringify env st cl a input agentFn options in
  ∃ log,
    out.2 = Resolved r1 log
    ∧ last (st_callLog out.1.1) = Some log
    ∧ log_success log = true
    ∧ log_retryCount log = 1
    ∧ log_correctionApplied log = Some correction
    ∧ log_error log = None
    ∧ log_qualityScore log = q_score quality
    ∧ st_totalCorrections out.1.1 = st_totalCorrections st + 1
    ∧ agentFn_calls
        (exit_loop (run_loop JSON_stringify env st agentFn options)) = 1%nat
    ∧ retryFn_calls
        (exit_loop (run_loop JSON_stringify env st agentFn options)) = 1%nat.
Proof.
  intros Hmax Hretry H0 correction H1 Hout1 Hquality out.
  assert (Hloop :
            run_loop JSON_stringify env st agentFn options
            = Passed r1 (env_clock env 1 - env_startTime env) text1 quality
                {| lastError := Some (default "Unknown error" err);
                   retryCount := 1;
                   correctionApplied := Some correction;
                   totalCorrections := st_totalCorrections st + 1;
                   agentFn_calls := 1; retryFn_calls := 1 |}).
  { unfold run_loop. rewrite Hmax. change (Z.to_nat (1 + 1)) with 2%nat.
    cbn [attempt_loop]. rewrite Hmax, Hretry. cbn [Z.of_nat].
    rewrite decide_True by lia. unfold invoke at 1.
    cbn [loop_start agentFn_calls]. rewrite H0.
    rewrite decide_True by lia.
    rewrite decide_True by (cbn; lia). unfold invoke. rewrite Hretry.
    cbn [count_retry set_lastError correctionApplied retryFn_calls].
    fold correction.
    change (or_default (Some correction) "Retry with improved parameters")
      with correction.
    change (retryFn_calls (loop_start st)) with 0%nat.
    rewrite H1, Hout1, Hquality.
    rewrite (bool_decide_eq_false_2 (Z.of_nat 1 < 1)) by (cbn; lia).
    rewrite andb_false_r. cbn [andb]. cbn. done. }
  subst out. rewrite orchestrate_run_loop, Hloop. cbn zeta. cbn [fst snd].
  eexists. split; [reflexivity|]. split; [apply last_push_log|]. cbn.
  by repeat split.
Qed.

Lemma X6_witness :
  ∃ log,
    (orchestrate text_json (sample_env 0 10) (initial_state "up") ∅ freedom
       "input" (never "down") retry_options).2
    = Resolved "Auto-retry after error: down" log
    ∧ log_retryCount log = 1.
Proof.
  destruct (X6_error_is_retried_through_retryFn text_json
              (sample_env 0 10) (initial_state "up") ∅ freedom "input"
              (never "down") retry_options echo_fix (Some "down")
              "Auto-retry after error: down" "Auto-retry after error: down"
              {| q_score := js_num 70;
                 q_reasoning := "Evaluation completed with default score";
                 q_hasCriticalIssue := false; q_suggestedFix := None |})
    as (log & Hout & _ & _ & Hcount & _); try reflexivity.
  exists log. split; [exact Hout|exact Hcount].
Defined.

(** X21.  [evaluateQuality] returns what [parseJSON] read without looking
    at it, so a judge that answers with the JSON text [null] makes it
    return [null]; the first read of a field of the evaluation then throws
    inside the [try], and the attempt fails although its unit of work
    resolved.  With the quality check on, no [retryFn] and a judge that
    answers [null] every time, a unit of work that always resolves (with
    a result that goes into text) is called [maxRetries + 1] times, and
    [orchestrate] rejects with the message of that [TypeError] and logs a
    failed call with quality score 0. *)
Theorem X21_null_evaluation_fails_the_attempt
    {T : Type} (JSON_stringify : T → Outcome string) env st cl a input
    (agentFn : nat → Outcome T) options :
  retryFn_of options = None →
  0 ≤ maxRetries_of options →
  checks_quality options = true →
  (∀ k, env_judge env k = JudgeSaidNull) →
  (∀ k, ∃ r text, agentFn k = Returned r
                  ∧ output_text JSON_stringify options r = Returned text) →
  let out := orchestrate JSON_stringify env st cl a input agentFn options in
  ∃ log,
    last (st_callLog out.1.1) = Some log
    ∧ out.2 = Rejected ("[Orchestrator] " +:+ agent_text a
                        +:+ " failed after "
                        +:+ pretty (maxRetries_of options + 1)
                        +:+ " attempts: " +:+ NULL_QUALITY_MESSAGE)
    ∧ log_success log = false
    ∧ log_qualityScore log = js_num 0
    ∧ log_retryCount log = maxRetries_of options
    ∧ log_error log = Some NULL_QUALITY_MESSAGE
    ∧ invocations (exit_loop (run_loop JSON_stringify env st agentFn options))
      = maxRetries_of options + 1.
Proof.
  intros Hretry Hmax Hchecks Hnull Hfine out.
  destruct (attempt_loop_null_judge JSON_stringify env agentFn options
              (Z.to_nat (maxRetries_of options + 1)) Hretry Hchecks Hnull
              Hfine 0 (loop_start st)) as (l' & Hloop & Herr); [lia|lia|].
  pose proof (attempt_loop_accounting JSON_stringify env agentFn options
                (Z.to_nat (maxRetries_of options + 1)) 0 (loop_start st))
    as Hcount.
  cbn zeta in Hcount. rewrite Hloop in Hcount. cbn [exit_loop] in Hcount.
  destruct Hcount as (Hcorr & _ & Hretries & Hcalls); [lia|].
  change (retryCount (loop_start st)) with 0 in *.
  change (totalCorrections (loop_start st)) with (st_totalCorrections st) in *.
  change (invocations (loop_start st)) with 0 in *.
  fold (run_loop JSON_stringify env st agentFn options) in Hloop.
  subst out. rewrite orchestrate_run_loop, Hloop. cbn zeta. cbn [fst snd].
  eexists. split; [apply last_push_log|]. cbn.
  rewrite Herr.
  replace (retryCount l') with (maxRetries_of options) by lia.
  repeat split; try done; lia.
Qed.

Lemma X21_witness :
  (orchestrate text_json (null_judge_env 0 10) (initial_state "up") ∅ coach
     "input" (always "tip") None).2
  = Rejected "[Orchestrator] coach failed after 2 attempts: Cannot read properties of null (reading 'hasCriticalIssue')".
Proof.
  destruct (X21_null_evaluation_fails_the_attempt text_json
              (null_judge_env 0 10) (initial_state "up") ∅ coach "input"
              (always "tip") None)
    as (log & _ & Hout & _);
    [reflexivity|vm_compute; discriminate|reflexivity|done
    |intros k; by exists "tip", "tip"|].
  rewrite Hout. reflexivity.
Defined.

(** ** Buffers and counters *)

Lemma keep_last_all {A : Type} n (l : list A) :
  (length l ≤ n)%nat → keep_last n l = l.
Proof.
  intros Hlen. unfold keep_last.
  by replace (length l - n)%nat with 0%nat by lia.
Qed.

Lemma length_keep_last {A : Type} n (l : list A) :
  length (keep_last n l) = (length l `min` n)%nat.
Proof. unfold keep_last. rewrite length_drop. lia. Qed.

(** Pushing onto a buffer of the last [n] and dropping the first element
    when there are more than [n], gives the last [n] again. *)
Lemma keep_last_push {A : Type} n (l : list A) x :
  (0 < n)%nat →
  (let l' := keep_last n l ++ [x] in
   if decide (n < length l')%nat then tail l' else l')
  = keep_last n (l ++ [x]).
Proof.
  intros Hn. cbn zeta. rewrite length_app, length_keep_last. cbn [length].
  unfold keep_last. rewrite length_app. cbn [length].
  destruct (decide (length l < n)%nat) as [Hshort|Hlong].
  - rewrite decide_False by lia.
    replace (length l - n)%nat with 0%nat by lia.
    replace (length l + 1 - n)%nat with 0%nat by lia. done.
  - rewrite decide_True by lia.
    replace (length l + 1 - n)%nat with (length l - n + 1)%nat by lia.
    rewrite <- drop_drop, (drop_app_le l) by lia.
    by destruct (drop (length l - n) l ++ [x]).
Qed.

Lemma push_log_keep_last (logs : list AgentCallLog) log :
  push_log (keep_last MAX_LOG_SIZE logs) log
  = keep_last MAX_LOG_SIZE (logs ++ [log]).
Proof. apply (keep_last_push MAX_LOG_SIZE). unfold MAX_LOG_SIZE. lia. Qed.

Lemma push_correction_keep_last (cs : list string) c :
  push_correction (keep_last 5 cs) c = keep_last 5 (cs ++ [c]).
Proof. apply (keep_last_push 5). lia. Qed.

Section CounterFacts.

Context {T : Type}.
Variable JSON_stringify : T -> Outcome string.

Lemma call_logs_length sc (cs : list (OrchestrateCall T)) :
  length (call_logs JSON_stringify sc cs) = length cs.
Proof.
  revert sc. induction cs as [|c cs IH]; intros sc; [done|].
  cbn [call_logs]. rewrite length_app, IH.
  destruct (orchestrate_call_records JSON_stringify sc c)
    as (log & n & _ & -> & _). done.
Qed.

Lemma call_logs_agents sc (cs : list (OrchestrateCall T)) :
  log_agent <$> call_logs JSON_stringify sc cs = oc_agentName <$> cs.
Proof.
  revert sc. induction cs as [|c cs IH]; intros sc; [done|].
  cbn [call_logs]. rewrite fmap_app, IH.
  destruct (orchestrate_call_records JSON_stringify sc c)
    as (log & n & Hagent & -> & _). cbn. by rewrite Hagent.
Qed.

(** The call log holds the logs of the last 100 calls, the counter
    [totalCalls] counts all of them. *)
Lemma callLog_follows_calls (cs : list (OrchestrateCall T)) upSince cl :
  let st := (orchestrate_calls JSON_stringify (initial_state upSince, cl) cs).1 in
  st_callLog st
  = keep_last MAX_LOG_SIZE
      (call_logs JSON_stringify (initial_state upSince, cl) cs)
  ∧ st_totalCalls st = Z.of_nat (length cs)
  ∧ st_upSince st = upSince.
Proof.
  induction cs as [|c cs IH] using rev_ind; [done|].
  cbn zeta in *. rewrite orchestrate_calls_snoc, call_logs_snoc.
  destruct (orchestrate_call_records JSON_stringify
              (orchestrate_calls JSON_stringify (initial_state upSince, cl) cs) c)
    as (log & n & Hagent & -> & ->).
  destruct IH as (IHlog & IHn & IHup).
  rewrite record_call_callLog, record_call_totalCalls. cbn.
  rewrite IHlog, IHn, push_log_keep_last, length_app. cbn.
  split; [done|]. split; [lia|]. done.
Qed.

End CounterFacts.

(** X7.  From the start of the process, after any sequence of calls of
    [orchestrate], the call log holds exactly the logs of the last 100
    calls, oldest first, never more; [totalCalls] is the number of all
    calls; [getOrchestratorState] shows the same logs newest first. *)
Theorem X7_callLog_keeps_the_last_100_calls
    {T : Type} (JSON_stringify : T → Outcome string)
    (cs : list (OrchestrateCall T)) (upSince : string) (cl : Checklists) :
  let start := (initial_state upSince, cl) in
  let st := (orchestrate_calls JSON_stringify start cs).1 in
  let logs := call_logs JSON_stringify start cs in
  length logs = length cs
  ∧ st_callLog st = drop (length cs - 100) logs
  ∧ length (st_callLog st) = (length cs `min` 100)%nat
  ∧ st_totalCalls st = Z.of_nat (length cs)
  ∧ st_callLog (getOrchestratorState st) = reverse (st_callLog st)
  ∧ head (st_callLog (getOrchestratorState st)) = last logs.
Proof.
  intros start st logs.
  destruct (callLog_follows_calls JSON_stringify cs upSince cl)
    as (Hlog & Hn & _).
  fold start st logs in Hlog, Hn.
  pose proof (call_logs_length JSON_stringify start cs) as Hlen.
  fold logs in Hlen.
  assert (Hrev : st_callLog (getOrchestratorState st) = reverse (st_callLog st)).
  { cbn. by rewrite rev_alt. }
  split; [done|]. split.
  { rewrite Hlog. unfold keep_last, MAX_LOG_SIZE. by rewrite Hlen. }
  split.
  { rewrite Hlog, length_keep_last, Hlen. done. }
  split; [done|]. split; [done|].
  rewrite Hrev, head_reverse, Hlog. unfold keep_last.
  destruct (decide (logs = [])) as [->|Hne]; [done|].
  rewrite last_lookup, last_lookup, lookup_drop, length_drop.
  f_equal. unfold MAX_LOG_SIZE.
  assert (0 < length logs)%nat by (destruct logs; [done|cbn; lia]).
  lia.
Qed.

Lemma count_by_name {A B : Type} (f : A → AgentName) (g : B → AgentName)
    (l1 : list A) (l2 : list B) a :
  f <$> l1 = g <$> l2 →
  length (filter (λ x, f x = a) l1) = length (filter (λ y, g y = a) l2).
Proof.
  revert l2. induction l1 as [|x l1 IH]; intros [|y l2] Heq; try done.
  cbn in Heq. injection Heq as Hxy Heq.
  destruct (decide (f x = a)) as [Hx|Hx].
  - rewrite !filter_cons_True by congruence. cbn. by rewrite (IH l2).
  - rewrite !filter_cons_False by congruence. by apply IH.
Qed.

Lemma total_calls_after_update agents a h :
  h_totalCalls h = h_totalCalls (agents a) + 1 →
  total ((λ b, h_totalCalls (set_agent agents a h b)) <$> AGENT_NAMES)
  = total ((λ b, h_totalCalls (agents b)) <$> AGENT_NAMES) + 1.
Proof.
  intros Hcalls. unfold AGENT_NAMES, total, set_agent. cbn.
  destruct a; cbn; repeat (case_decide; try congruence); lia.
Qed.

Section HealthFacts.

Context {T : Type}.
Variable JSON_stringify : T -> Outcome string.

Lemma agent_totals_follow_calls (cs : list (OrchestrateCall T)) upSince cl :
  let st := (orchestrate_calls JSON_stringify (initial_state upSince, cl) cs).1 in
  total ((λ b, h_totalCalls (st_agents st b)) <$> AGENT_NAMES)
  = Z.of_nat (length cs).
Proof.
  induction cs as [|c cs IH] using rev_ind; [done|].
  cbn zeta in *. rewrite orchestrate_calls_snoc.
  destruct (orchestrate_call_records JSON_stringify
              (orchestrate_calls JSON_stringify (initial_state upSince, cl) cs) c)
    as (log & n & _ & _ & ->).
  unfold record_call, updateHealth. cbn [st_agents].
  rewrite total_calls_after_update by done.
  cbn [st_agents with_corrections]. rewrite IH, length_app. cbn. lia.
Qed.

(** What is left in a health record of the logs of its agent. *)
Lemma health_remembers_calls (cs : list (OrchestrateCall T)) upSince cl a :
  let st := (orchestrate_calls JSON_stringify (initial_state upSince, cl) cs).1 in
  let logs := agent_logs JSON_stringify a (initial_state upSince, cl) cs in
  h_agent (st_agents st a) = a
  ∧ h_lastCallAt (st_agents st a) = log_timestamp <$> last logs
  ∧ h_lastError (st_agents st a) = last (omap failure_text logs)
  ∧ h_recentCorrections (st_agents st a)
    = keep_last 5 (omap correction_text logs).
Proof.
  induction cs as [|c cs IH] using rev_ind; [done|].
  cbn zeta in *. unfold agent_logs in *.
  rewrite orchestrate_calls_snoc, call_logs_snoc, filter_app.
  destruct (orchestrate_call_records JSON_stringify
              (orchestrate_calls JSON_stringify (initial_state upSince, cl) cs) c)
    as (log & n & Hagent & -> & ->).
  destruct IH as (IHa & IHt & IHe & IHc).
  destruct (decide (oc_agentName c = a)) as [Heq|Hne].
  - rewrite filter_cons_True, filter_nil by congruence.
    rewrite last_snoc, !omap_app. subst a.
    unfold record_call, updateHealth. cbn. rewrite set_agent_same. cbn.
    split; [done|]. split; [done|]. split.
    + destruct (negb (log_success log) && truthy (log_error log)) eqn:Hfail.
      * destruct (log_error log) as [e|] eqn:He;
          [|by rewrite andb_false_r in Hfail].
        assert (failure_text log = Some e) as ->
          by (unfold failure_text; by rewrite He, Hfail).
        by rewrite last_snoc.
      * assert (failure_text log = None) as ->
          by (unfold failure_text; by rewrite Hfail).
        by rewrite app_nil_r.
    + rewrite IHc.
      destruct (log_correctionApplied log) as [[|ch rest]|] eqn:Hcorr.
      * assert (correction_text log = None) as ->
          by (unfold correction_text; by rewrite Hcorr).
        by rewrite app_nil_r.
      * assert (correction_text log = Some (String ch rest)) as ->
          by (unfold correction_text; by rewrite Hcorr).
        apply push_correction_keep_last.
      * assert (correction_text log = None) as ->
          by (unfold correction_text; by rewrite Hcorr).
        by rewrite app_nil_r.
  - rewrite filter_cons_False, filter_nil, app_nil_r by congruence.
    rewrite record_call_other by done. done.
Qed.

End HealthFacts.

(** X8.  From the start of the process, after any sequence of calls of
    [orchestrate]: the [totalCalls] of an agent is the number of calls made
    for it, resolved or rejected, and the [totalCalls] of the ten agents
    add up to the global [totalCalls], the number of all calls. *)
Theorem X8_call_counters_add_up
    {T : Type} (JSON_stringify : T → Outcome string)
    (cs : list (OrchestrateCall T)) (upSince : string) (cl : Checklists) :
  let st := (orchestrate_calls JSON_stringify (initial_state upSince, cl) cs).1 in
  (∀ a, h_totalCalls (st_agents st a)
        = Z.of_nat (length (filter (λ c, oc_agentName c = a) cs)))
  ∧ st_totalCalls st = Z.of_nat (length cs)
  ∧ total ((λ a, h_totalCalls (getAgentHealthMap st a)) <$> AGENT_NAMES)
    = st_totalCalls st.
Proof.
  intros st. split; [|split].
  - intros a. subst st.
    destruct (health_follows_calls JSON_stringify cs upSince cl a) as (-> & _).
    unfold agent_logs. f_equal. apply count_by_name, call_logs_agents.
  - subst st.
    by destruct (callLog_follows_calls JSON_stringify cs upSince cl)
      as (_ & -> & _).
  - destruct (callLog_follows_calls JSON_stringify cs upSince cl)
      as (_ & Hn & _). fold st in Hn. rewrite Hn.
    apply agent_totals_follow_calls.
Qed.

(** X9.  From the start of the process, after any sequence of calls of
    [orchestrate], the health record of an agent holds: as [lastCallAt] the
    time of its latest log; as [lastError] the error of its latest failed
    call that had a non-empty error text, which later successful calls do
    not clear; as [recentCorrections] the last five non-empty corrections
    of its logs, oldest first. *)
Theorem X9_health_keeps_last_error_and_five_corrections
    {T : Type} (JSON_stringify : T → Outcome string)
    (cs : list (OrchestrateCall T)) (upSince : string) (cl : Checklists)
    (a : AgentName) :
  let st := (orchestrate_calls JSON_stringify (initial_state upSince, cl) cs).1 in
  let logs := agent_logs JSON_stringify a (initial_state upSince, cl) cs in
  let corrections := omap correction_text logs in
  h_agent (st_agents st a) = a
  ∧ h_lastCallAt (st_agents st a) = log_timestamp <$> last logs
  ∧ h_lastError (st_agents st a) = last (omap failure_text logs)
  ∧ h_recentCorrections (st_agents st a)
    = drop (length corrections - 5) corrections
  ∧ (length (h_recentCorrections (st_agents st a)) ≤ 5)%nat.
Proof.
  intros st logs corrections.
  destruct (health_remembers_calls JSON_stringify cs upSince cl a)
    as (Ha & Ht & He & Hc).
  fold st logs corrections in Ha, Ht, He, Hc.
  split; [done|]. split; [done|]. split; [done|]. split; [done|].
  rewrite Hc, length_keep_last. lia.
Qed.

(** A failure followed by a success: the agent is healthy again by its
    status rule only if the numbers allow, and its last error stays. *)
Example last_error_survives_a_success :
  let st := (orchestrate_calls text_json (initial_state "up", ∅)
               [sample_call letter 0 10 (never "down");
                sample_call letter 10 20 (always "text")]).1 in
  h_lastError (st_agents st letter) = Some "down"
  ∧ h_recentCorrections (st_agents st letter)
    = ["Auto-retry after error: down"].
Proof. vm_compute. by split. Qed.

(** ** Recent logs and recent events *)

Lemma js_slice_from_last {A : Type} (k : Z) (l : list A) :
  1 ≤ k → js_slice_from (- k) l = drop (length l - Z.to_nat k) l.
Proof.
  intros Hk. unfold js_slice_from.
  destruct (Z.ltb_spec (- k) 0) as [_|?]; [|lia]. f_equal. lia.
Qed.

Lemma js_slice_from_0 {A : Type} (l : list A) : js_slice_from (- 0) l = l.
Proof.
  unfold js_slice_from. change (- 0 <? 0) with false. cbv iota.
  by replace (Z.to_nat ((- 0) `min` Z.of_nat (length l))) with 0%nat by lia.
Qed.

Lemma js_slice_from_suffix {A : Type} (k : Z) (l : list A) :
  0 ≤ k → last (js_slice_from (- k) l) = last l.
Proof.
  intros Hk. destruct (decide (k = 0)) as [->|Hne].
  - by rewrite js_slice_from_0.
  - rewrite js_slice_from_last by lia.
    destruct (decide (l = [])) as [->|Hl]; [done|].
    assert (0 < length l)%nat by (destruct l; [done|cbn; lia]).
    rewrite !last_lookup, lookup_drop, length_drop. f_equal. lia.
Qed.

(** X10.  [getRecentLogs(limit)] gives the newest [limit] logs of the call
    log, newest first, for a [limit] of 1 or more (20 when it is left out),
    and fewer only when the call log is shorter; for [limit = 0] it gives
    the whole call log, since [slice(-0)] is [slice(0)].  For any [limit]
    from 0 on, its first entry is the latest log, so right after a call of
    [orchestrate] it is the log of that call. *)
Theorem X10_getRecentLogs_gives_the_newest_first
    (st : OrchestratorState) (limit : option Z) :
  let k := default 20 limit in
  (1 ≤ k →
   getRecentLogs st limit = take (Z.to_nat k) (reverse (st_callLog st))
   ∧ length (getRecentLogs st limit)
     = (Z.to_nat k `min` length (st_callLog st))%nat)
  ∧ (k = 0 → getRecentLogs st limit = reverse (st_callLog st))
  ∧ (0 ≤ k → head (getRecentLogs st limit) = last (st_callLog st))
  ∧ (∀ (T : Type) (JSON_stringify : T → Outcome string) env st0 cl a input
       agentFn options r log,
       0 ≤ k →
       orchestrate JSON_stringify env st0 cl a input agentFn options
       = (st, mark_in_progress env a cl, Resolved r log) →
       head (getRecentLogs st limit) = Some log).
Proof.
  intros k.
  assert (Hhead : 0 ≤ k → head (getRecentLogs st limit) = last (st_callLog st)).
  { intros Hk. unfold getRecentLogs. fold k.
    by rewrite head_reverse, js_slice_from_suffix. }
  split; [|split; [|split]]; [| |done|].
  - intros Hk. unfold getRecentLogs. fold k.
    rewrite js_slice_from_last by done. split.
    + by rewrite take_reverse.
    + rewrite length_reverse, length_drop. lia.
  - intros Hk. unfold getRecentLogs. fold k. rewrite Hk.
    by rewrite js_slice_from_0.
  - intros T JSON_stringify env st0 cl a input agentFn options r log Hk Hout.
    rewrite Hhead by done.
    destruct (orchestrate_records JSON_stringify env st0 cl a input agentFn
                options) as (log' & n & _ & Hst & Hres & _).
    rewrite Hout in Hst, Hres. cbn in Hst, Hres.
    destruct (Hres r log eq_refl) as [-> _].
    rewrite Hst. apply last_push_log.
Qed.

Lemma X10_witness :
  let st := (orchestrate_calls text_json (initial_state "up", ∅)
               [sample_call letter 0 10 (always "text");
                sample_call coach 10 25 (always "tip");
                sample_call letter 30 70 (never "down")]).1 in
  log_durationMs <$> getRecentLogs st (Some 2) = [40; 15].
Proof.
  cbn zeta.
  destruct (X10_getRecentLogs_gives_the_newest_first
              (orchestrate_calls text_json (initial_state "up", ∅)
                 [sample_call letter 0 10 (always "text");
                  sample_call coach 10 25 (always "tip");
                  sample_call letter 30 70 (never "down")]).1 (Some 2))
    as (Hnewest & _).
  destruct Hnewest as [-> _]; [vm_compute; discriminate|].
  vm_compute. reflexivity.
Defined.

Lemma push_event_keep_last (events : list BusEvent) e :
  push_event (keep_last MAX_EVENT_LOG events) e
  = keep_last MAX_EVENT_LOG (events ++ [e]).
Proof. apply (keep_last_push MAX_EVENT_LOG). unfold MAX_EVENT_LOG. lia. Qed.

Section EventLogFacts.

Context {L : Type}.
Variable toFixed1 : Z -> string.

Lemma bus_call_eventLog (bus : AgentBus L) c :
  eventLog (bus_call toFixed1 bus c).1
  = match emitted_by c with
    | Some e => push_event (eventLog bus) e
    | None => eventLog bus
    end.
Proof.
  destruct c as [type event stamp|chainId stamp|callback|ref|type listener];
    cbn; try done.
  - unfold emit. case_decide; [done|]. by destruct (broadcast _ _).
  - unfold completeChain. destruct (chains bus !! chainId); [|done].
    by destruct (broadcast _ _).
Qed.

Lemma bus_calls_eventLog (cs : list (BusCall L)) : ∀ (bus : AgentBus L) before,
  eventLog bus = keep_last MAX_EVENT_LOG before →
  eventLog (bus_calls toFixed1 bus cs).1
  = keep_last MAX_EVENT_LOG (before ++ omap emitted_by cs).
Proof.
  induction cs as [|c cs IH]; intros bus before Hbus.
  - cbn. by rewrite app_nil_r.
  - cbn [bus_calls]. pose proof (bus_call_eventLog bus c) as Hc.
    destruct (bus_call toFixed1 bus c) as [bus1 eff1]. cbn [fst] in Hc.
    specialize (IH bus1).
    destruct (bus_calls toFixed1 bus1 cs) as [bus2 eff2]. cbn [fst] in *.
    cbn [omap list_omap]. destruct (emitted_by c) as [e|].
    + rewrite (IH (before ++ [e])).
      * by rewrite <- (assoc_L (++)).
      * by rewrite Hc, Hbus, push_event_keep_last.
    + rewrite (IH before); [done|]. by rewrite Hc.
Qed.

End EventLogFacts.

(** X11.  Whatever methods of a fresh bus are called, in whatever order,
    the event log holds exactly the last 200 events that [emit] accepted
    (depth at most 3), oldest first, never more; [getRecentEvents(limit)]
    gives the last [limit] of them in the same order for a [limit] of 1 or
    more (50 when left out), the whole log for [limit = 0], and for any
    [limit] from 0 on it ends with the event accepted last. *)
Theorem X11_eventLog_keeps_the_last_200_events
    {L : Type} (toFixed1 : Z → string) (cs : list (BusCall L))
    (limit : option Z) :
  let bus := (bus_calls toFixed1 new_bus cs).1 in
  let events := omap emitted_by cs in
  let k := default 50 limit in
  eventLog bus = drop (length events - 200) events
  ∧ (length (eventLog bus) ≤ 200)%nat
  ∧ Forall (λ e, ev_depth e ≤ 3) (eventLog bus)
  ∧ (1 ≤ k →
     getRecentEvents bus limit
     = drop (length (eventLog bus) - Z.to_nat k) (eventLog bus))
  ∧ (k = 0 → getRecentEvents bus limit = eventLog bus)
  ∧ (0 ≤ k → last (getRecentEvents bus limit) = last events).
Proof.
  intros bus events k.
  assert (Hlog : eventLog bus = keep_last MAX_EVENT_LOG events).
  { subst bus events.
    by rewrite (bus_calls_eventLog toFixed1 cs new_bus []). }
  assert (Hlast : last (eventLog bus) = last events).
  { rewrite Hlog. unfold keep_last.
    destruct (decide (events = [])) as [->|Hne]; [done|].
    assert (0 < length events)%nat by (destruct events; [done|cbn; lia]).
    rewrite !last_lookup, lookup_drop, length_drop. f_equal.
    unfold MAX_EVENT_LOG. lia. }
  split; [by rewrite Hlog|]. split.
  { rewrite Hlog, length_keep_last. unfold MAX_EVENT_LOG. lia. }
  split.
  { rewrite Hlog. unfold keep_last. apply Forall_drop.
    subst events. apply Forall_forall. intros e He.
    apply list_elem_of_omap in He as (c & _ & Hc).
    destruct c as [type event stamp| | | |]; try done. cbn in Hc.
    case_decide as Hdepth; [done|]. injection Hc as <-. cbn.
    unfold MAX_CHAIN_DEPTH in Hdepth. lia. }
  split; [|split].
  - intros Hk. unfold getRecentEvents. fold k. by rewrite js_slice_from_last.
  - intros Hk. unfold getRecentEvents. fold k. rewrite Hk.
    by rewrite js_slice_from_0.
  - intros Hk. unfold getRecentEvents. fold k.
    by rewrite js_slice_from_suffix.
Qed.

Lemma X11_witness :
  ev_source <$> getRecentEvents
    (bus_calls sample_toFixed1 (new_bus (L := Listener))
       [CallEmit vision_extracted (sample_event vision 0) (sample_stamp 1);
        CallEmit watchdog_matched (sample_event watchdog 4) (sample_stamp 2);
        CallEmit freedom_updated (sample_event freedom 2) (sample_stamp 3)]).1
    (Some 1)
  = [freedom].
Proof.
  destruct (X11_eventLog_keeps_the_last_200_events sample_toFixed1
              [CallEmit (L := Listener) vision_extracted
                 (sample_event vision 0) (sample_stamp 1);
               CallEmit watchdog_matched (sample_event watchdog 4)
                 (sample_stamp 2);
               CallEmit freedom_updated (sample_event freedom 2)
                 (sample_stamp 3)] (Some 1))
    as (_ & _ & _ & Hrecent & _).
  cbn zeta in Hrecent. rewrite Hrecent by (vm_compute; discriminate).
  vm_compute. reflexivity.
Defined.

(** ** The checklist functions *)



Lemma assign_twice item update :
  assign (assign item update) update = assign item update.
Proof.
  unfold assign. cbn.
  destruct update as [[s|] [p|] [r|] [d|] [t1|] [t2|]]; done.
Qed.

(** X13.  [updateChecklistItem] returns [null] and changes nothing when the
    session has no checklist or no item with the id.  Otherwise it changes
    the first item of the session with that id, in place: the keys present
    in the update are assigned, id, task, description and agent stay, and the
    changed item is returned; the other items and the other sessions are
    as before, and applying the same update again changes nothing more. *)
Theorem X13_updateChecklistItem_changes_one_item_in_place
    (cl : Checklists) (sessionId itemId : string) (update : ItemUpdate) :
  let out := updateChecklistItem cl sessionId itemId update in
  (out.2 = None
   ↔ ∀ item, item ∈ getChecklist cl sessionId → it_id item ≠ itemId)
  ∧ (out.2 = None → out.1 = cl)
  ∧ (∀ item', out.2 = Some item' →
       ∃ k item,
         getChecklist cl sessionId !! k = Some item
         ∧ it_id item = itemId
         ∧ (∀ j other, getChecklist cl sessionId !! j = Some other →
              (j < k)%nat → it_id other ≠ itemId)
         ∧ item' = assign item update
         ∧ getChecklist out.1 sessionId
           = <[k := item']> (getChecklist cl sessionId)
         ∧ it_id item' = it_id item
         ∧ it_task item' = it_task item
         ∧ it_description item' = it_description item
         ∧ it_assignedAgent item' = it_assignedAgent item)
  ∧ (∀ sid, sid ≠ sessionId → getChecklist out.1 sid = getChecklist cl sid)
  ∧ length (getChecklist out.1 sessionId)
    = length (getChecklist cl sessionId)
  ∧ updateChecklistItem out.1 sessionId itemId update = (out.1, out.2).
Proof.
  intros out. subst out. unfold updateChecklistItem, getChecklist.
  destruct (cl !! sessionId) as [items|] eqn:Hsid; cbn [default].
  2: { cbn. rewrite Hsid. repeat split; try done.
       intros _ item Hin. by apply elem_of_nil in Hin. }
  destruct (list_find (λ i, it_id i = itemId) items) as [[k item]|] eqn:Hfind.
  - apply list_find_Some in Hfind as Hk. destruct Hk as (Hk & Hid & Hfirst).
    cbn [fst snd]. rewrite lookup_insert_eq. cbn [default].
    split; [|split; [|split; [|split; [|split]]]].
    + split; [done|]. intros Hnone. exfalso. eapply Hnone; [|done].
      by eapply list_elem_of_lookup_2.
    + done.
    + intros item' [= <-]. exists k, item. repeat split; try done.
    + intros sid Hne. by rewrite lookup_insert_ne.
    + apply length_insert.
    + assert (Hagain : list_find (λ i, it_id i = itemId)
                         (<[k := assign item update]> items)
                       = Some (k, assign item update)).
      { apply list_find_Some. split; [|split].
        - apply list_lookup_insert_eq. by eapply lookup_lt_Some.
        - done.
        - intros j other Hj Hlt.
          rewrite list_lookup_insert_ne in Hj by lia. by eapply Hfirst. }
      rewrite Hagain. cbn. rewrite assign_twice.
      by rewrite insert_insert_eq, list_insert_insert_eq.
  - apply list_find_None in Hfind. cbn [fst snd]. rewrite Hsid. cbn [default].
    split; [|split; [|split; [|split; [|split]]]]; try done.
    + split; [|done]. intros _ item Hin.
      rewrite Forall_forall in Hfind. by apply Hfind.
    + by rewrite (proj2 (list_find_None _ _)).
Qed.

(** X14.  The loop with which every call of [orchestrate] begins touches
    only the pending items assigned to the called agent: these become
    [in_progress] with progress 30 and a start time, every other item
    (of another agent, or already in progress, completed or failed) is
    left as it is.  This is all that [orchestrate] does to the checklists,
    whether the call resolves or rejects: it never marks an item completed
    or failed, so after a rejected call the item stays [in_progress]. *)
Theorem X14_orchestrate_starts_only_pending_items_of_its_agent
    {T : Type} (JSON_stringify : T → Outcome string) env st (cl : Checklists)
    a input (agentFn : nat → Outcome T) options sid items k item :
  distinct_ids cl →
  cl !! sid = Some items →
  items !! k = Some item →
  let out := orchestrate JSON_stringify env st cl a input agentFn options in
  ∃ item',
    getChecklist out.1.2 sid !! k = Some item'
    ∧ length (getChecklist out.1.2 sid) = length items
    ∧ (it_assignedAgent item = a → it_status item = pending →
         it_status item' = in_progress
         ∧ it_progress item' = 30
         ∧ is_Some (it_startedAt item')
         ∧ it_result item' = it_result item
         ∧ it_completedAt item' = it_completedAt item)
    ∧ (it_assignedAgent item ≠ a ∨ it_status item ≠ pending → item' = item)
    ∧ it_id item' = it_id item
    ∧ it_assignedAgent item' = it_assignedAgent item
    ∧ (it_status item' = it_status item ∨ it_status item' = in_progress).
Proof.
  intros Hwf Hsid Hk out. subst out. rewrite orchestrate_checklists.
  unfold mark_in_progress.
  rewrite (sweep_item _ _ _ _ items) by done. rewrite Hk. cbn [fmap option_fmap option_map].
  eexists. split; [done|]. split.
  { rewrite sweep_spec by done. unfold getChecklist.
    rewrite lookup_fmap, Hsid. cbn. unfold touch_all. by rewrite length_fmap. }
  unfold touch.
  destruct (decide (it_assignedAgent item = a)) as [Ha|Ha];
    destruct (decide (it_status item = pending)) as [Hp|Hp].
  - rewrite !bool_decide_eq_true_2 by done. cbn.
    repeat split; try done; try (by right). by intros [?|?].
  - rewrite (bool_decide_eq_false_2 (it_status item = pending)) by done.
    rewrite andb_false_r. repeat split; try done; by left.
  - rewrite (bool_decide_eq_false_2 (it_assignedAgent item = a)) by done.
    cbn. repeat split; try done; by left.
  - rewrite (bool_decide_eq_false_2 (it_assignedAgent item = a)) by done.
    cbn. repeat split; try done; by left.
Qed.

Lemma X14_witness :
  ∃ item',
    getChecklist
      (orchestrate text_json (sample_env 0 10) (initial_state "up") sample_checklists
         vision "input" (always "ok") None).1.2 "session_1" !! 0%nat
    = Some item'
    ∧ it_status item' = in_progress.
Proof.
  destruct (X14_orchestrate_starts_only_pending_items_of_its_agent
              text_json (sample_env 0 10) (initial_state "up") sample_checklists
              vision "input" (always "ok") None "session_1"
              (getChecklist sample_checklists "session_1") 0
              {| it_id := task_id 1700000000000 0;
                 it_task := "Task";
                 it_description := "What the agent is to do";
                 it_assignedAgent := vision;
                 it_status := pending;
                 it_progress := 0;
                 it_result := None;
                 it_decision := None;
                 it_startedAt := None;
                 it_completedAt := None |})
    as (item' & Hitem & _ & Hstart & _).
  - apply sample_checklists_distinct_ids.
  - vm_compute. reflexivity.
  - vm_compute. reflexivity.
  - exists item'. split; [exact Hitem|]. by apply Hstart.
Defined.

(** ** The default checklist and the bus *)

Lemma accepted_or_not X c : accepted_from X c ∨ ¬ accepted_from X c.
Proof.
  destruct c as [c|env a]; cbn; [|right; by intros []].
  destruct (decide (pe_source (ec_event c) = X)) as [Hs|Hs];
    destruct (decide (pe_depth (ec_event c) ≤ 3)) as [Hd|Hd];
    [by left|right|right|right]; by intros [? ?].
Qed.

(** The first call of a run that puts an event of source [X] on the bus. *)
Lemma first_accepted X cs :
  Exists (accepted_from X) cs →
  ∃ before c after,
    cs = before ++ EmitStep c :: after
    ∧ Forall (λ c', ¬ accepted_from X c') before
    ∧ pe_source (ec_event c) = X
    ∧ pe_depth (ec_event c) ≤ 3.
Proof.
  induction cs as [|c cs IH]; intros Hex; [by apply Exists_nil in Hex|].
  destruct (accepted_or_not X c) as [Hc|Hc].
  - destruct c as [c|env a]; [|done]. destruct Hc as [Hs Hd].
    exists [], c, cs. split; [done|]. split; [apply Forall_nil_2|done].
  - apply Exists_cons in Hex as [Hex|Hex]; [done|].
    destruct (IH Hex) as (before & c' & after & -> & Hbefore & Hs & Hd).
    exists (c :: before), c', after. split; [done|].
    split; [by apply Forall_cons|done].
Qed.

Lemma never_accepted X cs :
  ¬ Exists (accepted_from X) cs → Forall (λ c, ¬ accepted_from X c) cs.
Proof.
  induction cs as [|c cs IH]; intros Hno; [apply Forall_nil_2|].
  apply Forall_cons. split.
  - intros Hc. apply Hno. by apply Exists_cons_hd.
  - apply IH. intros Hex. apply Hno. by apply Exists_cons_tl.
Qed.

Lemma accepted_in_run_or_not X cs :
  Exists (accepted_from X) cs ∨ ¬ Exists (accepted_from X) cs.
Proof.
  induction cs as [|c cs IH]; [right; by intros ?%Exists_nil|].
  destruct (accepted_or_not X c) as [Hc|Hc]; [left; by apply Exists_cons_hd|].
  destruct IH as [IH|IH]; [left; by apply Exists_cons_tl|].
  right. by intros [?|?]%Exists_cons.
Qed.

(** An item of an agent of the listener's table is completed after a run
    exactly when the run put an event of that agent on the bus. *)
Lemma item_completed_iff (toFixed1 : Z → string) s sid k item cs :
  handlers_registered s →
  distinct_ids (sys_checklists s) →
  item_at s sid k = Some item →
  it_status item ≠ completed →
  AGENT_TO_CHECKLIST (it_assignedAgent item) = Some (it_assignedAgent item) →
  ∃ item',
    item_at (system_calls toFixed1 s cs) sid k = Some item'
    ∧ it_id item' = it_id item
    ∧ (it_status item' = completed
       ↔ Exists (accepted_from (it_assignedAgent item)) cs)
    ∧ (it_status item' = completed → it_progress item' = 100).
Proof.
  intros Hreg Hwf Hitem Hwait Halias.
  destruct (system_calls_item toFixed1 cs s sid k item Hreg Hwf Hitem)
    as (_ & _ & Hitem').
  eexists. split; [exact Hitem'|].
  destruct (accepted_in_run_or_not (it_assignedAgent item) cs) as [Hex|Hno].
  - destruct (first_accepted _ _ Hex)
      as (before & c & after & -> & Hbefore & Hsource & Hdepth).
    rewrite foldl_app. cbn [foldl].
    destruct (after_calls_waiting before item Hbefore Hwait)
      as (Hwait1 & Hagent1 & Hid1).
    set (waiting := foldl (λ item c, after_call c item) item before) in *.
    assert (Hfinished : after_call (EmitStep c) waiting
                        = assign waiting
                            (completion (le_now (ec_env c))
                               (complete_event (ec_type c) (ec_event c)
                                               (ec_stamp c)))).
    { cbn [after_call]. rewrite decide_False by lia. unfold observed.
      cbn [complete_event ev_source]. rewrite Hsource, <- Hagent1 in *.
      rewrite Halias. unfold touch.
      rewrite bool_decide_eq_true_2 by done.
      by rewrite (bool_decide_eq_false_2 (it_status waiting = completed)). }
    rewrite Hfinished. rewrite after_calls_completed by done.
    repeat split; try done.
  - destruct (after_calls_waiting cs item (never_accepted _ _ Hno) Hwait)
      as (Hwait' & _ & Hid').
    split; [done|]. split; [|done]. split; done.
Qed.

Lemma sweep_length cond update (cl : Checklists) sid :
  distinct_ids cl →
  length (getChecklist (sweep cond update cl) sid)
  = length (getChecklist cl sid).
Proof.
  intros Hwf. rewrite sweep_spec by done. unfold getChecklist.
  rewrite lookup_fmap. destruct (cl !! sid) as [items|]; [|done].
  cbn. unfold touch_all. by rewrite length_fmap.
Qed.

(** A run neither adds an item to a checklist nor removes one. *)
Lemma system_calls_length (toFixed1 : Z → string) cs : ∀ s sid,
  handlers_registered s → distinct_ids (sys_checklists s) →
  length (getChecklist (sys_checklists (system_calls toFixed1 s cs)) sid)
  = length (getChecklist (sys_checklists s) sid).
Proof.
  induction cs as [|c cs IH]; intros s sid Hreg Hwf; [done|].
  cbn [system_calls foldl].
  assert (Hstep : handlers_registered (system_call toFixed1 s c)
                  ∧ distinct_ids (sys_checklists (system_call toFixed1 s c))
                  ∧ length (getChecklist
                              (sys_checklists (system_call toFixed1 s c)) sid)
                    = length (getChecklist (sys_checklists s) sid)).
  { destruct c as [c|env agentName]; cbn [system_call sys_checklists sys_bus].
    - split; [|split].
      + unfold handlers_registered. by rewrite emit_call_listeners.
      + rewrite emit_call_checklists by done.
        case_decide; [done|]. by apply checklist_listener_distinct_ids.
      + rewrite emit_call_checklists by done.
        case_decide; [done|]. unfold checklist_listener.
        destruct (AGENT_TO_CHECKLIST _); [|done]. by apply sweep_length.
    - split; [done|]. split; [by apply sweep_distinct_ids|].
      by apply sweep_length. }
  destruct Hstep as (Hreg' & Hwf' & Hlen).
  fold (system_calls toFixed1 (system_call toFixed1 s c) cs).
  rewrite IH by done. exact Hlen.
Qed.

(** X15.  Every agent of the seven tasks of [buildBorrowerChecklist] is in
    the alias table of the checklist listener.  So, with the listeners of
    [registerBusHandlers], after any run of bus and [orchestrate] calls a
    task of the default checklist is completed exactly when the bus has
    accepted an event of the task's agent since the checklist was built;
    once each of the seven agents has emitted an accepted event, all seven
    items are completed with progress 100. *)
Theorem X15_default_checklist_follows_the_bus
    (toFixed1 : Z → string) (s0 : System) (now : Z) (sessionId : string)
    (cs : list SystemCall) :
  handlers_registered s0 →
  distinct_ids (sys_checklists s0) →
  let s := with_checklists s0
             (buildBorrowerChecklist now sessionId (sys_checklists s0)).1 in
  let s' := system_calls toFixed1 s cs in
  (∀ k task, BORROWER_TASKS !! k = Some task →
     ∃ item,
       item_at s' sessionId k = Some item
       ∧ it_id item = task_id now k
       ∧ (it_status item = completed
          ↔ Exists (accepted_from (ni_assignedAgent task)) cs)
       ∧ (it_status item = completed → it_progress item = 100))
  ∧ length (getChecklist (sys_checklists s') sessionId) = 7%nat
  ∧ ((∀ a, a ∈ [vision; watchdog; debate; letter; call_script; freedom; coach]
           → Exists (accepted_from a) cs) →
     ∀ item, item ∈ getChecklist (sys_checklists s') sessionId →
             it_status item = completed ∧ it_progress item = 100).
Proof.
  intros Hreg Hwf s s'.
  assert (Hreg' : handlers_registered s) by done.
  assert (Hwf' : distinct_ids (sys_checklists s))
    by by apply createChecklist_distinct_ids.
  assert (Hitems : ∀ k task, BORROWER_TASKS !! k = Some task →
            ∃ created,
              item_at s sessionId k = Some created
              ∧ it_id created = task_id now k
              ∧ it_status created = pending
              ∧ it_assignedAgent created = ni_assignedAgent task
              ∧ AGENT_TO_CHECKLIST (ni_assignedAgent task)
                = Some (ni_assignedAgent task)).
  { intros k task Hk. unfold item_at, getChecklist. subst s.
    unfold buildBorrowerChecklist, createChecklist. cbn [sys_checklists with_checklists fst].
    rewrite lookup_insert_eq. cbn [default id].
    rewrite list_lookup_imap, Hk. cbn. eexists. split; [done|].
    repeat split.
    do 7 (destruct k as [|k]; [cbn in Hk; by injection Hk as <-|]).
    done. }
  assert (Hall : ∀ k task, BORROWER_TASKS !! k = Some task →
     ∃ item,
       item_at s' sessionId k = Some item
       ∧ it_id item = task_id now k
       ∧ (it_status item = completed
          ↔ Exists (accepted_from (ni_assignedAgent task)) cs)
       ∧ (it_status item = completed → it_progress item = 100)).
  { intros k task Hk.
    destruct (Hitems k task Hk) as (created & Hat & Hid & Hst & Hag & Hal).
    destruct (item_completed_iff toFixed1 s sessionId k created cs)
      as (item & Hat' & Hid' & Hiff & Hprog); try done.
    - by rewrite Hst.
    - by rewrite Hag.
    - exists item. rewrite Hag in Hiff. repeat split; try done.
      + congruence.
      + apply Hiff.
      + apply Hiff. }
  assert (Hlen : length (getChecklist (sys_checklists s') sessionId) = 7%nat).
  { subst s'. rewrite system_calls_length by done. subst s.
    unfold getChecklist, buildBorrowerChecklist, createChecklist.
    cbn [sys_checklists with_checklists fst].
    rewrite lookup_insert_eq. cbn [default id]. by rewrite length_imap. }
  split; [exact Hall|]. split; [exact Hlen|].
  intros Hevery item Hin.
  apply list_elem_of_lookup in Hin as [k Hk].
  assert (k < 7)%nat as Hlt by (apply lookup_lt_Some in Hk; lia).
  destruct (lookup_lt_is_Some_2 BORROWER_TASKS k) as [task Htask]; [done|].
  destruct (Hall k task Htask) as (item' & Hat & _ & Hiff & Hprog).
  unfold item_at in Hat. rewrite Hk in Hat. injection Hat as <-.
  assert (it_status item = completed) as Hdone.
  { apply Hiff, Hevery.
    do 7 (destruct k as [|k];
          [cbn in Htask; injection Htask as <-; cbn; repeat constructor|]).
    done. }
  split; [done|by apply Hprog].
Qed.

Lemma X15_witness :
  let s := with_checklists sample_system
             (buildBorrowerChecklist 1700000000001 "session_2"
                (sys_checklists sample_system)).1 in
  let cs := [OrchestrateStep (sample_env 0 10) vision;
             EmitStep (sample_emit vision_extracted vision 0 1)] in
  ∃ item,
    item_at (system_calls sample_toFixed1 s cs) "session_2" 0 = Some item
    ∧ it_id item = task_id 1700000000001 0
    ∧ it_status item = completed
    ∧ it_progress item = 100.
Proof.
  cbn zeta.
  destruct (X15_default_checklist_follows_the_bus sample_toFixed1
              sample_system 1700000000001 "session_2"
              [OrchestrateStep (sample_env 0 10) vision;
               EmitStep (sample_emit vision_extracted vision 0 1)])
    as (Htasks & _).
  - reflexivity.
  - apply sample_checklists_distinct_ids.
  - destruct (Htasks 0%nat _ eq_refl) as (item & Hat & Hid & Hiff & Hprog).
    assert (Hdone : it_status item = completed).
    { apply Hiff. apply Exists_cons_tl, Exists_cons_hd.
      split; [reflexivity|]. vm_compute. discriminate. }
    exists item. split; [exact Hat|]. split; [exact Hid|].
    split; [exact Hdone|]. exact (Hprog Hdone).
Defined.

(** ** The chain records of the bus *)

Lemma total_snoc values v : total (values ++ [v]) = total values + v.
Proof.
  unfold total. induction values as [|x values IH]; cbn; [lia|].
  rewrite IH. lia.
Qed.

Lemma length_remove_dups_le `{EqDecision A} (l : list A) :
  (length (remove_dups l) ≤ length l)%nat.
Proof.
  induction l as [|x l IH]; cbn; [done|].
  destruct (decide_rel elem_of x l); cbn; lia.
Qed.

Lemma trackChain_follows (chs : gmap string ChainSummary) e events cid :
  chain_follows cid events (chs !! cid) →
  chain_follows cid (events ++ [e]) (trackChain chs e !! cid).
Proof.
  intros Hinv. unfold trackChain, chain_follows, chain_events in *.
  rewrite filter_app.
  destruct (decide (ev_chainId e = cid)) as [<-|Hne].
  - rewrite lookup_insert_eq, filter_cons_True, filter_nil by done.
    destruct (chs !! ev_chainId e) as [chain|]; cbn.
    + destruct Hinv as (Hid & Hev & Hnil & Hag & Hdur & Hst & Hstatus).
      split; [done|]. split; [by rewrite Hev|].
      split; [by destruct (ch_events chain)|]. split; [done|].
      split; [rewrite Hdur; symmetry; rewrite fmap_app; apply total_snoc|].
      split; [|done]. by destruct (ch_events chain).
    + rewrite Hinv. cbn. repeat split; try done; [lia|by left].
  - rewrite lookup_insert_ne by done.
    rewrite filter_cons_False, filter_nil, app_nil_r by done. done.
Qed.

Section ChainFacts.

Context {L : Type}.
Variable toFixed1 : Z -> string.

Lemma bus_call_follows (bus : AgentBus L) c events :
  (∀ cid, chain_follows cid events (chains bus !! cid)) →
  ∀ cid, chain_follows cid
           match emitted_by c with
           | Some e => events ++ [e]
           | None => events
           end
           (chains (bus_call toFixed1 bus c).1 !! cid).
Proof.
  intros Hinv cid.
  destruct c as [type event stamp|chainId stamp|callback|ref|type listener];
    cbn [emitted_by bus_call]; try apply Hinv.
  - unfold emit. case_decide; [apply Hinv|].
    destruct (broadcast _ _). cbn [fst chains].
    apply trackChain_follows, Hinv.
  - unfold completeChain.
    destruct (chains bus !! chainId) as [chain|] eqn:Hchain; [|apply Hinv].
    destruct (broadcast _ _). cbn [fst chains].
    destruct (decide (chainId = cid)) as [->|Hne].
    + rewrite lookup_insert_eq. specialize (Hinv cid). rewrite Hchain in Hinv.
      destruct Hinv as (Hid & Hev & Hnil & Hag & Hdur & Hst & Hstatus).
      cbn. repeat split; try done. by right.
    + rewrite lookup_insert_ne by done. apply Hinv.
Qed.

Lemma bus_calls_follows (cs : list (BusCall L)) :
  ∀ (bus : AgentBus L) before,
    (∀ cid, chain_follows cid before (chains bus !! cid)) →
    ∀ cid, chain_follows cid (before ++ omap emitted_by cs)
             (chains (bus_calls toFixed1 bus cs).1 !! cid).
Proof.
  induction cs as [|c cs IH]; intros bus before Hbus cid.
  - cbn. rewrite app_nil_r. apply Hbus.
  - cbn [bus_calls]. pose proof (bus_call_follows bus c before Hbus) as Hc.
    destruct (bus_call toFixed1 bus c) as [bus1 eff1]. cbn [fst] in Hc.
    specialize (IH bus1).
    destruct (bus_calls toFixed1 bus1 cs) as [bus2 eff2]. cbn [fst] in *.
    cbn [omap list_omap]. destruct (emitted_by c) as [e|].
    + specialize (IH (before ++ [e]) Hc cid).
      by rewrite <- (assoc_L (++)) in IH.
    + by apply IH.
Qed.

End ChainFacts.

(** X16.  Whatever methods of a fresh bus are called, in whatever order,
    [getChain(id)] is undefined exactly when no accepted event (depth at
    most 3) carried the chain id.  Otherwise the record holds all accepted
    events of the chain in order (the record is not capped as the event
    log is, and events emitted after [completeChain] are still added),
    [totalAgents] is the number of distinct sources among them (at least 1,
    at most the number of events), [totalDurationMs] the sum of their
    durations with a missing duration counted as 0, [startedAt] the
    timestamp of the first of them; the status is [running] with no
    completion time, or [completed] with one, and never [error]. *)
Theorem X16_chain_record_follows_the_accepted_events
    {L : Type} (toFixed1 : Z → string) (cs : list (BusCall L))
    (chainId : string) :
  let bus := (bus_calls toFixed1 new_bus cs).1 in
  let events := chain_events chainId (omap emitted_by cs) in
  (getChain bus chainId = None ↔ events = [])
  ∧ ∀ chain, getChain bus chainId = Some chain →
      ch_chainId chain = chainId
      ∧ ch_events chain = events
      ∧ Forall (λ e, ev_chainId e = chainId ∧ ev_depth e ≤ 3) (ch_events chain)
      ∧ ch_totalAgents chain = distinct_sources events
      ∧ 1 ≤ ch_totalAgents chain ≤ Z.of_nat (length events)
      ∧ ch_totalDurationMs chain
        = total ((λ e, duration_or_0 (ev_durationMs e)) <$> events)
      ∧ Some (ch_startedAt chain) = ev_timestamp <$> head events
      ∧ (ch_status chain = running ∧ ch_completedAt chain = None
         ∨ ch_status chain = completed_chain
           ∧ is_Some (ch_completedAt chain)).
Proof.
  intros bus events.
  pose proof (bus_calls_follows toFixed1 cs (new_bus (L := L)) []) as Hinv.
  specialize (Hinv (λ cid, eq_refl) chainId).
  rewrite app_nil_l in Hinv. fold bus in Hinv. unfold getChain.
  unfold chain_follows in Hinv. fold events in Hinv.
  destruct (chains bus !! chainId) as [chain|].
  - destruct Hinv as (Hid & Hev & Hnil & Hag & Hdur & Hst & Hstatus).
    split; [split; [done|]; intros Hempty; by rewrite Hev in Hnil|].
    intros ? [= <-]. rewrite <- Hev.
    split; [done|]. split; [done|]. split.
    { rewrite Hev. subst events. unfold chain_events.
      apply Forall_forall. intros e [Hcid He]%list_elem_of_filter.
      split; [done|].
      apply list_elem_of_omap in He as (c & _ & Hc).
      destruct c as [type event stamp| | | |]; try done. cbn in Hc.
      case_decide as Hdepth; [done|]. injection Hc as <-. cbn.
      unfold MAX_CHAIN_DEPTH in Hdepth. lia. }
    split; [done|]. split; [|done].
    rewrite Hag. unfold distinct_sources. split.
    + destruct (ch_events chain) as [|e rest] eqn:Hevents; [done|].
      assert (ev_source e ∈ remove_dups (ev_source <$> e :: rest)) as Hin.
      { apply elem_of_remove_dups. cbn. apply list_elem_of_here. }
      destruct (remove_dups (ev_source <$> e :: rest));
        [by apply elem_of_nil in Hin|cbn; lia].
    + pose proof (length_remove_dups_le (ev_source <$> ch_events chain)) as Hle.
      rewrite length_fmap in Hle. lia.
  - split; [done|]. by intros chain.
Qed.

Lemma X16_witness :
  ∃ chain,
    getChain (bus_calls (L := Listener) sample_toFixed1 new_bus
                [CallEmit vision_extracted (sample_event vision 0)
                          (sample_stamp 1);
                 CallCompleteChain "chain_1" (sample_stamp 2);
                 CallEmit watchdog_matched (sample_event watchdog 4)
                          (sample_stamp 3);
                 CallEmit watchdog_matched (sample_event watchdog 1)
                          (sample_stamp 4)]).1 "chain_1"
    = Some chain
    ∧ ch_totalAgents chain = 2
    ∧ ch_totalDurationMs chain = 2400
    ∧ ch_status chain = completed_chain.
Proof.
  destruct (X16_chain_record_follows_the_accepted_events (L := Listener)
              sample_toFixed1
              [CallEmit vision_extracted (sample_event vision 0)
                        (sample_stamp 1);
               CallCompleteChain "chain_1" (sample_stamp 2);
               CallEmit watchdog_matched (sample_event watchdog 4)
                        (sample_stamp 3);
               CallEmit watchdog_matched (sample_event watchdog 1)
                        (sample_stamp 4)]
              "chain_1") as [_ Hchain].
  eexists. split; [vm_compute; reflexivity|].
  edestruct Hchain as (_ & _ & _ & Hag & _ & Hdur & _ & _);
    [vm_compute; reflexivity|].
  split; [exact Hag|]. split; [exact Hdur|]. vm_compute. reflexivity.
Defined.

(** ** The subscribers of the bus *)

Lemma filter_refs_NoDup (P : Subscriber → Prop) `{∀ c, Decision (P c)}
    (clients : list Subscriber) :
  NoDup (sub_ref <$> clients) → NoDup (sub_ref <$> filter P clients).
Proof.
  intros Hdup. eapply sublist_NoDup; [exact Hdup|].
  apply fmap_sublist, sublist_filter.
Qed.

Lemma filter_other_refs (clients : list Subscriber) ref :
  ref ∉ sub_ref <$> clients →
  filter (λ c, sub_ref c ≠ ref) clients = clients.
Proof.
  induction clients as [|c clients IH]; intros Hnot; [done|].
  cbn in Hnot. apply not_elem_of_cons in Hnot as [Hne Hnot].
  rewrite filter_cons_True by done. by rewrite IH.
Qed.

Lemma filter_this_ref (clients : list Subscriber) ref :
  ref ∉ sub_ref <$> filter (λ c, sub_ref c ≠ ref) clients.
Proof.
  intros (c & -> & Hin)%list_elem_of_fmap.
  by apply list_elem_of_filter in Hin as [Hne _].
Qed.

Section SubscriberFacts.

Context {L : Type}.
Variable toFixed1 : Z -> string.

Lemma subscribe_NoDup (bus : AgentBus L) callback :
  NoDup (sub_ref <$> sseClients bus) →
  NoDup (sub_ref <$> sseClients (subscribe bus callback)).
Proof.
  intros Hdup. unfold subscribe. cbn [sseClients].
  case_bool_decide as Hin; [done|].
  rewrite fmap_app. apply NoDup_app. split; [done|]. split.
  - intros ref Href [->|[]%elem_of_nil]%elem_of_cons. done.
  - apply NoDup_singleton.
Qed.

Lemma bus_call_subscribers (bus : AgentBus L) c :
  NoDup (sub_ref <$> sseClients bus) →
  NoDup (sub_ref <$> sseClients (bus_call toFixed1 bus c).1).
Proof.
  intros Hdup.
  destruct c as [type event stamp|chainId stamp|callback|ref|type listener];
    cbn [bus_call fst].
  - unfold emit. case_decide; [done|]. rewrite broadcast_pair.
    cbn [fst sseClients]. by apply filter_refs_NoDup.
  - unfold completeChain. destruct (chains bus !! chainId); [|done].
    rewrite broadcast_pair. cbn [fst sseClients]. by apply filter_refs_NoDup.
  - by apply subscribe_NoDup.
  - unfold unsubscribe. cbn [sseClients]. by apply filter_refs_NoDup.
  - done.
Qed.

Lemma bus_calls_subscribers (cs : list (BusCall L)) : ∀ bus : AgentBus L,
  NoDup (sub_ref <$> sseClients bus) →
  NoDup (sub_ref <$> sseClients (bus_calls toFixed1 bus cs).1).
Proof.
  induction cs as [|c cs IH]; intros bus Hdup; [done|].
  cbn [bus_calls]. pose proof (bus_call_subscribers bus c Hdup) as Hc.
  destruct (bus_call toFixed1 bus c) as [bus1 eff1]. cbn [fst] in Hc.
  specialize (IH bus1 Hc).
  by destruct (bus_calls toFixed1 bus1 cs) as [bus2 eff2].
Qed.

End SubscriberFacts.

(** X17.  The subscribers of the bus form a set: whatever methods of a
    fresh bus are called, no callback is in it twice.  Subscribing a
    callback that is already subscribed changes nothing; the function that
    [subscribe] returned removes the callback, and gives back the earlier
    set when the callback was new.  An accepted event is delivered once to
    every subscriber, the newly subscribed one among them, and not at all
    to a callback that has been unsubscribed. *)
Theorem X17_subscribers_form_a_set
    {L : Type} (toFixed1 : Z → string) (cs : list (BusCall L))
    (callback : Subscriber) (type : BusEventType) (event : PartialEvent)
    (stamp : Stamp) :
  let bus := (bus_calls toFixed1 new_bus cs).1 in
  let subscribed := subscribe bus callback in
  let unsubscribed := unsubscribe subscribed (sub_ref callback) in
  NoDup (sub_ref <$> sseClients bus)
  ∧ subscribe subscribed callback = subscribed
  ∧ sub_ref callback ∈ sub_ref <$> sseClients subscribed
  ∧ (sub_ref callback ∉ sub_ref <$> sseClients unsubscribed)
  ∧ (sub_ref callback ∉ (sub_ref <$> sseClients bus) →
     sseClients unsubscribed = sseClients bus)
  ∧ (pe_depth event ≤ 3 →
     NoDup ((delivered (emit subscribed type event stamp).2).*1)
     ∧ sub_ref callback
       ∈ ((delivered (emit subscribed type event stamp).2).*1 : list nat))
  ∧ sub_ref callback
    ∉ ((delivered (emit unsubscribed type event stamp).2).*1 : list nat).
Proof.
  intros bus subscribed unsubscribed.
  assert (Hdup : NoDup (sub_ref <$> sseClients bus)).
  { subst bus. apply bus_calls_subscribers. cbn. apply NoDup_nil_2. }
  assert (Hin : sub_ref callback ∈ sub_ref <$> sseClients subscribed).
  { subst subscribed. unfold subscribe. cbn [sseClients].
    case_bool_decide as Hin; [done|].
    rewrite fmap_app. apply elem_of_app. right. cbn. apply list_elem_of_here. }
  assert (Hcalls : ∀ b : AgentBus L,
            (delivered (emit b type event stamp).2).*1
            = if decide (pe_depth event > MAX_CHAIN_DEPTH) then []
              else sub_ref <$> sseClients b).
  { intros b. unfold emit. case_decide; [done|]. rewrite broadcast_pair.
    cbn [snd delivered]. rewrite <- list_fmap_compose.
    by apply list_fmap_ext. }
  split; [done|]. split.
  { subst subscribed. unfold subscribe at 1. cbn [sseClients eventLog chains listeners].
    rewrite bool_decide_eq_true_2 by done. by destruct (subscribe bus callback). }
  split; [done|]. split; [apply filter_this_ref|]. split.
  { intros Hnew. subst unsubscribed subscribed. unfold unsubscribe, subscribe.
    cbn [sseClients]. rewrite bool_decide_eq_false_2 by done.
    rewrite filter_app, filter_other_refs by done.
    rewrite filter_cons_False, filter_nil by (intros Hne; by apply Hne).
    by rewrite app_nil_r. }
  split.
  { intros Hdepth. rewrite Hcalls.
    rewrite decide_False by (unfold MAX_CHAIN_DEPTH; lia).
    split; [by apply subscribe_NoDup|done]. }
  rewrite Hcalls. case_decide; [apply not_elem_of_nil|apply filter_this_ref].
Qed.

Lemma X17_witness :
  let subscribed :=
    subscribe (subscribe (new_bus (L := Listener)) listener8) listener8 in
  (delivered (emit subscribed vision_extracted (sample_event vision 0)
                   (sample_stamp 1)).2).*1 = [8%nat].
Proof.
  cbn zeta.
  destruct (X17_subscribers_form_a_set (L := Listener) sample_toFixed1
              [CallSubscribe listener8] listener8 vision_extracted
              (sample_event vision 0) (sample_stamp 1))
    as (_ & _ & _ & _ & _ & Honce & _).
  destruct Honce as [_ _]; [vm_compute; discriminate|].
  vm_compute. reflexivity.
Defined.

(** ** What [emit] answers, and what the listeners start *)

Lemma last_push_event (log : list BusEvent) e : last (push_event log e) = Some e.
Proof.
  unfold push_event. case_decide as Hlen; [|apply last_snoc].
  destruct log as [|e0 log]; cbn in *; [unfold MAX_EVENT_LOG in Hlen; lia|].
  apply last_snoc.
Qed.

Lemma listeners_of_nonempty {L : Type} (ls : list (BusEventType * L)) type :
  listeners_of ls type ≠ [] ↔ ∃ l, (type, l) ∈ ls.
Proof.
  unfold listeners_of. split.
  - intros Hne.
    destruct (filter (λ tl, tl.1 = type) ls) as [|[t l] rest] eqn:Hfilter;
      [done|].
    assert ((t, l) ∈ filter (λ tl, tl.1 = type) ls) as Hin
      by (rewrite Hfilter; apply list_elem_of_here).
    apply list_elem_of_filter in Hin as [Ht Hin]. cbn in Ht. subst t.
    by exists l.
  - intros [l Hin] Hnil.
    assert ((type, l) ∈ filter (λ tl, tl.1 = type) ls) as Hin'
      by by apply list_elem_of_filter.
    apply (list_elem_of_fmap_2 snd) in Hin'. rewrite Hnil in Hin'.
    by apply elem_of_nil in Hin'.
Qed.

(** X18.  [emit] answers [true] exactly when the event was accepted (depth
    at most 3) and a listener is registered for its type, that is, when a
    listener was called.  So [false] does not mean that the event was
    dropped: an accepted event with no listener for its type is still put
    last in the event log, recorded in its chain and delivered to every
    subscriber.  With the listeners of [registerBusHandlers] every type has
    one (the checklist listener), and [emit] answers [true] exactly when
    the depth is at most 3; on a bus without listeners it always answers
    [false]. *)
Theorem X18_emit_answers_whether_a_listener_was_called
    (bus : AgentBus Listener) (type : BusEventType) (event : PartialEvent)
    (stamp : Stamp) :
  let out := emit bus type event stamp in
  let e := complete_event type event stamp in
  (out.1.1 = true ↔ pe_depth event ≤ 3 ∧ ∃ l, (type, l) ∈ listeners bus)
  ∧ (out.1.1 = true ↔ dispatched out.2 ≠ [])
  ∧ (pe_depth event ≤ 3 →
     last (eventLog out.1.2) = Some e
     ∧ (∃ chain, getChain out.1.2 (pe_chainId event) = Some chain
                 ∧ last (ch_events chain) = Some e)
     ∧ delivered out.2 = (λ c, (sub_ref c, e)) <$> sseClients bus)
  ∧ (listeners bus = listeners (registerBusHandlers new_bus) →
     (out.1.1 = true ↔ pe_depth event ≤ 3))
  ∧ (listeners bus = [] → out.1.1 = false).
Proof.
  intros out e. subst out.
  destruct (decide (pe_depth event ≤ 3)) as [Hdepth|Hdepth].
  - rewrite emit_accepted by (unfold MAX_CHAIN_DEPTH; lia).
    cbn [fst snd eventLog dispatched delivered]. fold e.
    assert (Hb : bool_decide (listeners_of (listeners bus) type ≠ []) = true
                 ↔ ∃ l, (type, l) ∈ listeners bus).
    { etrans; [apply bool_decide_eq_true|apply listeners_of_nonempty]. }
    split; [split; [intros ?; split; [done|by apply Hb]
                   |intros [_ ?]; by apply Hb]|].
    split.
    { etrans; [apply bool_decide_eq_true|].
      destruct (listeners_of (listeners bus) type); [done|].
      split; by intros _. }
    split.
    { intros _. split; [apply last_push_event|]. split; [|done].
      unfold getChain, trackChain. cbn [chains].
      change (ev_chainId e) with (pe_chainId event).
      rewrite lookup_insert_eq. eexists. split; [done|]. cbn [ch_events].
      apply last_snoc. }
    split.
    { intros Hreg. split; [done|]. intros _.
      apply Hb, listeners_of_nonempty. rewrite Hreg, registered_listeners.
      by destruct type. }
    intros Hnone.
    apply not_true_is_false. intros Hd.
    apply Hb in Hd as [l Hl]. rewrite Hnone in Hl. by apply elem_of_nil in Hl.
  - rewrite emit_rejected by (unfold MAX_CHAIN_DEPTH; lia).
    cbn [fst snd dispatched no_effects].
    split; [split; [done|by intros [? _]]|].
    split; [done|]. split; [done|]. split; [|done].
    intros _. split; [done|lia].
Qed.

Lemma X18_witness :
  (emit (new_bus (L := Listener)) vision_extracted (sample_event vision 0)
        (sample_stamp 1)).1.1 = false
  ∧ last (eventLog (emit (new_bus (L := Listener)) vision_extracted
                         (sample_event vision 0) (sample_stamp 1)).1.2)
    = Some (complete_event vision_extracted (sample_event vision 0)
                           (sample_stamp 1)).
Proof.
  destruct (X18_emit_answers_whether_a_listener_was_called
              new_bus vision_extracted (sample_event vision 0)
              (sample_stamp 1))
    as (_ & _ & Hkept & _ & Hnone).
  split; [by apply Hnone|]. apply Hkept. vm_compute. discriminate.
Defined.

(** X19.  What the listeners of [registerBusHandlers] do with an accepted
    event: an event of depth 3 starts nothing; below that,
    [vision:extracted] starts the watchdog trigger, [watchdog:matched]
    starts the freedom trigger, [debate:verdict] starts the freedom trigger
    unless its payload is [null] or [undefined] (the listener then fails
    on reading [verdict.choice] and starts nothing), and the other types
    start none, so an event starts at most one trigger and a trigger's
    cause has depth at most 2.  A [freedom:updated] event of depth at most
    2 completes its chain before [emit] returns: the chain record, which
    ends with the event, is [completed], and the subscribers get the event
    and then the chain summary.  Every other accepted event, a
    [freedom:updated] event of depth 3 included, leaves the status of its
    chain as it was ([running] for a new chain) and delivers the event
    only. *)
Theorem X19_listeners_follow_the_chain_map
    (toFixed1 : Z → string) (env : ListenerEnv) (s : System)
    (type : BusEventType) (event : PartialEvent) (stamp : Stamp) :
  handlers_registered s →
  pe_depth event ≤ 3 →
  let e := complete_event type event stamp in
  let out := emit_and_dispatch toFixed1 env s type event stamp in
  let sent := (λ c, (sub_ref c, e)) <$> sseClients (sys_bus s) in
  out.1 = true
  ∧ sys_started out.2 = sys_started s ++ chain_map e
  ∧ (length (chain_map e) ≤ 1)%nat
  ∧ Forall (λ t, tr_cause t = e ∧ ev_depth (tr_cause t) ≤ 2) (chain_map e)
  ∧ (type = debate_verdict → pe_payload event = Nullish →
     sys_started out.2 = sys_started s)
  ∧ (type = debate_verdict → pe_payload event ≠ Nullish →
     pe_depth event ≤ 2 →
     sys_started out.2
     = sys_started s ++ [mkTrigger freedom freedom_updated e])
  ∧ (∃ chain,
       getChain (sys_bus out.2) (pe_chainId event) = Some chain
       ∧ last (ch_events chain) = Some e
       ∧ if decide (type = freedom_updated ∧ pe_depth event ≤ 2) then
           ch_status chain = completed_chain
           ∧ ch_completedAt chain = Some (stamp_timestamp (le_chain env))
           ∧ sys_delivered out.2
             = sys_delivered s ++ sent
               ++ ((λ c, (sub_ref c,
                          chain_summary_event toFixed1 chain
                            (pe_chainId event) (le_chain env)))
                     <$> filter (λ c, sub_on c e ≠ UnsubscribesSelf)
                           (sseClients (sys_bus s)))
         else
           ch_status chain
           = default running
               (ch_status <$> getChain (sys_bus s) (pe_chainId event))
           ∧ sys_delivered out.2 = sys_delivered s ++ sent).
Proof.
  intros Hreg Hdepth e out sent.
  assert (Hmap : type = debate_verdict →
            chain_map e
            = if decide (pe_depth event >= 3) then []
              else match pe_payload event with
                   | Nullish => []
                   | _ => [mkTrigger freedom freedom_updated e]
                   end).
  { intros ->. unfold chain_map. cbn. by destruct (pe_payload event). }
  cut (out.1 = true
       ∧ sys_started out.2 = sys_started s ++ chain_map e
       ∧ (length (chain_map e) ≤ 1)%nat
       ∧ Forall (λ t, tr_cause t = e ∧ ev_depth (tr_cause t) ≤ 2) (chain_map e)
       ∧ (∃ chain,
            getChain (sys_bus out.2) (pe_chainId event) = Some chain
            ∧ last (ch_events chain) = Some e
            ∧ if decide (type = freedom_updated ∧ pe_depth event ≤ 2) then
                ch_status chain = completed_chain
                ∧ ch_completedAt chain = Some (stamp_timestamp (le_chain env))
                ∧ sys_delivered out.2
                  = sys_delivered s ++ sent
                    ++ ((λ c, (sub_ref c,
                               chain_summary_event toFixed1 chain
                                 (pe_chainId event) (le_chain env)))
                          <$> filter (λ c, sub_on c e ≠ UnsubscribesSelf)
                                (sseClients (sys_bus s)))
              else
                ch_status chain
                = default running
                    (ch_status <$> getChain (sys_bus s) (pe_chainId event))
                ∧ sys_delivered out.2 = sys_delivered s ++ sent)).
  { intros (Htrue & Hstarted & Hone & Hcause & Hchain).
    split; [done|]. split; [done|]. split; [done|]. split; [done|].
    split; [|split; [|done]].
    - intros Htype Hnull. rewrite Hstarted, (Hmap Htype), Hnull.
      destruct (decide (pe_depth event >= 3)); by rewrite app_nil_r.
    - intros Htype Hpayload Hshallow. rewrite Hstarted, (Hmap Htype).
      rewrite decide_False by lia. by destruct (pe_payload event). }
  clear Hmap. subst out. unfold emit_and_dispatch.
  rewrite emit_accepted by (unfold MAX_CHAIN_DEPTH; lia). fold e.
  cbn [fst snd dispatched delivered].
  rewrite Hreg, registered_listeners.
  assert (Htracked : ∃ chain,
            trackChain (chains (sys_bus s)) e !! pe_chainId event = Some chain
            ∧ last (ch_events chain) = Some e
            ∧ ch_status chain
              = default running
                  (ch_status <$> getChain (sys_bus s) (pe_chainId event))).
  { unfold trackChain, getChain.
    change (ev_chainId e) with (pe_chainId event).
    rewrite lookup_insert_eq. eexists. split; [done|]. cbn [ch_events ch_status].
    split; [apply last_snoc|].
    by destruct (chains (sys_bus s) !! pe_chainId event). }
  destruct Htracked as (chain & Hchain & Hlast & Hstatus).
  split.
  { apply bool_decide_eq_true. by destruct type. }
  unfold chain_map. change (ev_depth e) with (pe_depth event).
  change (ev_type e) with type. change (ev_payload e) with (pe_payload event).
  destruct (decide (pe_depth event >= 3)) as [Hdeep|Hshallow].
  - destruct (decide (type = freedom_updated ∧ pe_depth event ≤ 2))
      as [[_ ?]|_]; [lia|].
    destruct type; cbn [app fmap list_fmap foldl run_listener];
      change (ev_depth e) with (pe_depth event);
      rewrite ?decide_True by done; cbn [sys_started sys_bus sys_delivered].
    all: rewrite app_nil_r; split; [done|]; split; [cbn; lia|];
      split; [apply Forall_nil_2|]; exists chain; by repeat split.
  - destruct type; cbn [app fmap list_fmap foldl run_listener];
      change (ev_depth e) with (pe_depth event);
      change (ev_payload e) with (pe_payload event);
      rewrite ?(decide_False (P := pe_depth event >= 3)) by done;
      cbn [sys_started sys_bus sys_delivered start_trigger].
    3: { destruct (decide (freedom_updated = freedom_updated
                           ∧ pe_depth event ≤ 2))
           as [_|Hno]; [|exfalso; apply Hno; split; [done|lia]].
         change (ev_chainId e) with (pe_chainId event).
         rewrite (completeChain_known toFixed1 _ _ chain) by exact Hchain.
         cbn [sys_started sys_bus sys_delivered delivered chains sseClients].
         rewrite app_nil_r. split; [done|]. split; [cbn; lia|].
         split; [apply Forall_nil_2|].
         unfold getChain. cbn [chains]. rewrite lookup_insert_eq.
         eexists. split; [done|]. split; [done|]. split; [done|].
         split; [done|]. by rewrite <- (assoc_L (++)). }
    all: destruct (decide (_ = freedom_updated ∧ _)) as [[? _]|_]; [done|];
      destruct (pe_payload event);
      cbn [sys_started sys_bus sys_delivered start_trigger];
      (split; [by rewrite ?app_nil_r|]; split; [cbn; lia|];
       split;
       [first [apply Forall_nil_2
              |apply Forall_cons; split; [|apply Forall_nil_2];
               cbn [tr_cause]; change (ev_depth e) with (pe_depth event);
               split; [done|lia]]|];
       exists chain; by repeat split).
Qed.

Lemma X19_witness :
  ∃ chain,
    getChain (sys_bus (emit_and_dispatch sample_toFixed1
                         (sample_listener_env 2) sample_system
                         freedom_updated (sample_event freedom 2)
                         (sample_stamp 1)).2) "chain_1"
    = Some chain
    ∧ ch_status chain = completed_chain.
Proof.
  destruct (X19_listeners_follow_the_chain_map sample_toFixed1
              (sample_listener_env 2) sample_system freedom_updated
              (sample_event freedom 2) (sample_stamp 1))
    as (_ & _ & _ & _ & _ & _ & chain & Hchain & _ & Hdone).
  - reflexivity.
  - vm_compute. discriminate.
  - exists chain. split; [exact Hchain|].
    destruct (decide (freedom_updated = freedom_updated
                      ∧ pe_depth (sample_event freedom 2) ≤ 2))
      as [_|Hno].
    + apply Hdone.
    + exfalso. apply Hno. split; [reflexivity|]. vm_compute. discriminate.
Defined.

(** ** The downstream triggers *)

Lemma emit_and_dispatch_log (toFixed1 : Z → string) env s type event stamp :
  handlers_registered s →
  pe_depth event ≤ 3 →
  let e := complete_event type event stamp in
  let out := emit_and_dispatch toFixed1 env s type event stamp in
  eventLog (sys_bus out.2) = push_event (eventLog (sys_bus s)) e
  ∧ sys_started out.2 = sys_started s ++ chain_map e
  ∧ handlers_registered out.2.
Proof.
  intros Hreg Hdepth e out. subst out. unfold emit_and_dispatch.
  rewrite emit_accepted by (unfold MAX_CHAIN_DEPTH; lia). fold e.
  cbn [fst snd dispatched delivered].
  rewrite Hreg, registered_listeners.
  unfold chain_map, handlers_registered.
  change (ev_depth e) with (pe_depth event). change (ev_type e) with type.
  change (ev_payload e) with (pe_payload event).
  destruct (decide (pe_depth event >= 3)) as [Hdeep|Hshallow];
    destruct type; cbn [app fmap list_fmap foldl run_listener];
    change (ev_depth e) with (pe_depth event);
    change (ev_payload e) with (pe_payload event);
    rewrite ?(decide_True (P := pe_depth event >= 3)) by done;
    rewrite ?(decide_False (P := pe_depth event >= 3)) by done;
    cbn [sys_started sys_bus sys_delivered start_trigger eventLog listeners];
    rewrite ?app_nil_r; try done.
  2: { destruct (pe_payload event);
         cbn [sys_started sys_bus start_trigger eventLog listeners];
         by rewrite ?app_nil_r. }
  unfold completeChain.
  destruct (chains _ !! ev_chainId e); [|by rewrite ?app_nil_r].
  destruct (broadcast _ _). cbn. by rewrite ?app_nil_r.
Qed.

(** X20.  A downstream trigger calls its agent through [orchestrate] with
    one retry and without the quality check, so the call is recorded in the
    call log and the health record like any other.  When the call resolves
    and the summary can be built, the trigger emits one event: of the
    trigger's type and agent, in the chain of the event that caused it (a
    new chain when that chain id is the empty string), one hop deeper,
    naming the cause in [triggeredBy] and carrying the duration of the
    call.  As a trigger's cause has depth at most 2, the event has depth at
    most 3: it is accepted, put last in the event log, and starts the
    triggers of the chain map in its turn.  When the call rejects or the
    summary cannot be built, the error is swallowed: nothing is emitted
    and the bus is as before. *)
Theorem X20_trigger_continues_the_chain_of_its_cause
    {T : Type} (toFixed1 : Z → string) (JSON_stringify : T → Outcome string)
    (strategy_of : Payload → string) (summary_of : BusEvent → T → Outcome string)
    (payload_of : T → Payload) (oenv : CallEnv) (lenv : ListenerEnv)
    (stamp : Stamp) (fresh : string) (w : World) (t : Trigger)
    (agentFn : nat → Outcome T) :
  handlers_registered (w_system w) →
  ev_depth (tr_cause t) ≤ 2 →
  let cause := tr_cause t in
  let call :=
    orchestrate JSON_stringify oenv (w_state w) (sys_checklists (w_system w))
      (tr_agent t) (trigger_input strategy_of cause) agentFn hop_options in
  let w' := run_trigger toFixed1 JSON_stringify strategy_of summary_of
              payload_of oenv lenv stamp fresh w t agentFn in
  w_state w' = call.1.1
  ∧ handlers_registered (w_system w')
  ∧ (ev_chainId cause ≠ "" →
     or_default (Some (ev_chainId cause)) fresh = ev_chainId cause)
  ∧ or_default (Some "") fresh = fresh
  ∧ match call.2 with
    | Resolved result log =>
        match summary_of cause result with
        | Returned summary =>
            let e :=
              {| ev_id := stamp_id stamp;
                 ev_type := tr_emits t;
                 ev_source := tr_agent t;
                 ev_chainId := or_default (Some (ev_chainId cause)) fresh;
                 ev_depth := ev_depth cause + 1;
                 ev_timestamp := stamp_timestamp stamp;
                 ev_summary := summary;
                 ev_payload := payload_of result;
                 ev_durationMs := Some (log_durationMs log);
                 ev_triggeredBy := Some (ev_id cause) |} in
            ev_depth e ≤ 3
            ∧ last (eventLog (sys_bus (w_system w'))) = Some e
            ∧ sys_started (w_system w')
              = sys_started (w_system w) ++ chain_map e
        | Thrown _ =>
            sys_bus (w_system w') = sys_bus (w_system w)
            ∧ sys_started (w_system w') = sys_started (w_system w)
            ∧ sys_delivered (w_system w') = sys_delivered (w_system w)
        end
    | Rejected _ =>
        sys_bus (w_system w') = sys_bus (w_system w)
        ∧ sys_started (w_system w') = sys_started (w_system w)
        ∧ sys_delivered (w_system w') = sys_delivered (w_system w)
    end.
Proof.
  intros Hreg Hdepth cause call w'. subst w' call cause. unfold run_trigger.
  destruct (orchestrate JSON_stringify oenv (w_state w)
              (sys_checklists (w_system w)) (tr_agent t)
              (trigger_input strategy_of (tr_cause t)) agentFn hop_options)
    as [[st' cl'] [result log|message]]; cbn [fst snd].
  2: { repeat split; try done. by destruct (ev_chainId (tr_cause t)). }
  destruct (summary_of (tr_cause t) result) as [summary|err];
    cbn [w_state w_system].
  2: { repeat split; try done. by destruct (ev_chainId (tr_cause t)). }
  unfold emitAgentEvent. cbn [snd default].
  match goal with
  | |- context [emit_and_dispatch toFixed1 lenv ?s ?ty ?ev stamp] =>
      destruct (emit_and_dispatch_log toFixed1 lenv s ty ev stamp)
        as (Hlog & Hstarted & Hreg')
  end; [done|cbn; lia|].
  split; [done|]. split; [exact Hreg'|].
  split; [by destruct (ev_chainId (tr_cause t))|]. split; [done|].
  split; [cbn; lia|]. split.
  - rewrite Hlog. apply last_push_event.
  - exact Hstarted.
Qed.

Lemma X20_witness :
  let cause := complete_event vision_extracted (sample_event vision 0)
                 (sample_stamp 1) in
  let w' :=
    run_trigger sample_toFixed1 text_json (λ _, "")
      (λ _ result, Returned ("Matched " +:+ result)) AgentOutput
      (sample_env 0 10) (sample_listener_env 2) (sample_stamp 2) "chain_9"
      {| w_state := initial_state "up"; w_system := sample_system |}
      (mkTrigger watchdog watchdog_matched cause) (always "3 grants") in
  (λ e, (ev_source e, ev_depth e, ev_chainId e, ev_triggeredBy e))
    <$> last (eventLog (sys_bus (w_system w')))
  = Some (watchdog, 1, "chain_1", Some "evt_1")
  ∧ tr_agent <$> sys_started (w_system w') = [freedom].
Proof.
  cbn zeta.
  destruct (X20_trigger_continues_the_chain_of_its_cause
              sample_toFixed1 text_json (λ _, "")
              (λ _ result, Returned ("Matched " +:+ result)) AgentOutput
              (sample_env 0 10) (sample_listener_env 2) (sample_stamp 2)
              "chain_9"
              {| w_state := initial_state "up"; w_system := sample_system |}
              (mkTrigger watchdog watchdog_matched
                 (complete_event vision_extracted (sample_event vision 0)
                    (sample_stamp 1)))
              (always "3 grants"))
    as (_ & _ & _ & _ & Hemitted).
  - reflexivity.
  - vm_compute. discriminate.
  - vm_compute in Hemitted. destruct Hemitted as (_ & Hlast & Hstarted).
    vm_compute. split; reflexivity.
Defined.
